(** * Lidar intensity modelling: data handling and helper functions

    A shallow embedding of [dataset/datahandler.py] and of the helper
    functions of [util/__init__.py], and the properties of the datasets, the
    loader and the label lookup table that hold on them.

    Conventions of the embedding.
    - Python integers are [Z]; Python lists are [list]; a [dict] whose
      iteration order matters is an association list in insertion order, a
      [dict] that is only looked up and counted is a [gmap].
    - A floating point number is an [fval]: a finite value carried as an
      exact rational, an infinity or a not-a-number.  The special values
      arise from a division by zero as they do in NumPy, which warns there
      and does not raise.  The arithmetic of the arrays and tensors is
      exact; the one product whose rounding decides something, the
      validation ratio times the number of samples, is rounded to the
      nearest binary64 float ([round64]).
    - A Python computation is a [py A]: the lines printed so far and either
      an exception or a value. *)

From Stdlib Require Import QArith Qround Qpower Lqa.
From stdpp Require Import gmap strings list sorting.

Open Scope Z_scope.

(** ** Python: exceptions, printing, indexing and slicing *)

Module Py.

Inductive exn :=
| IndexError
| ValueError
| KeyError
| UnboundLocalError
| AssertionError
| ZeroDivisionError
| FileNotFoundError
| RuntimeError
| OverflowError.

#[global] Instance exn_eq_dec : EqDecision exn.
Proof. solve_decision. Defined.

(** A printed line: free text, or the line of [print("Wrong key ", key)]. *)
Inductive line :=
| Text (s : string)
| WrongKey (key : Z).

Record py (A : Type) := Run { stdout : list line; outcome : exn + A }.
Arguments Run {A} _ _.
Arguments stdout {A} _.
Arguments outcome {A} _.

Definition ret {A} (a : A) : py A := Run [] (inr a).

Definition raise {A} (e : exn) : py A := Run [] (inl e).

Definition print (l : line) : py unit := Run [l] (inr tt).

Definition bind {A B} (c : py A) (k : A -> py B) : py B :=
  match outcome c with
  | inl e => Run (stdout c) (inl e)
  | inr a => Run (stdout c ++ stdout (k a)) (outcome (k a))
  end.

#[global] Instance py_ret : MRet py := @ret.
#[global] Instance py_bind : MBind py := fun A B k c => bind c k.

(** [try: c except e: h] *)
Definition try_except {A} (c : py A) (e : exn) (h : py A) : py A :=
  match outcome c with
  | inl e' =>
      if decide (e' = e) then Run (stdout c ++ stdout h) (outcome h) else c
  | inr _ => c
  end.

(** [assert b] *)
Definition assert (b : bool) : py unit :=
  if b then ret tt else raise AssertionError.

(** [l[i]] at a position inside or outside of a sequence of length [n]:
    a negative index counts from the end. *)
Definition norm_index (n : nat) (i : Z) : option nat :=
  if bool_decide (0 <= i < Z.of_nat n) then Some (Z.to_nat i)
  else if bool_decide (- Z.of_nat n <= i < 0) then Some (Z.to_nat (i + Z.of_nat n))
  else None.

Definition getitem {A} (l : list A) (i : Z) : py A :=
  match norm_index (length l) i with
  | Some k => match l !! k with Some a => ret a | None => raise IndexError end
  | None => raise IndexError
  end.

(** The bound [k] of a slice [l[k:]] or [l[:k]] on a sequence of length [n]:
    a negative bound counts from the end, and the result is clipped. *)
Definition slice_bound (n : nat) (k : Z) : nat :=
  if bool_decide (k < 0) then Z.to_nat (Z.max 0 (k + Z.of_nat n))
  else Z.to_nat (Z.min k (Z.of_nat n)).

(** [l[k:]] *)
Definition slice_from {A} (l : list A) (k : Z) : list A :=
  drop (slice_bound (length l) k) l.

(** [l[:k]] *)
Definition slice_to {A} (l : list A) (k : Z) : list A :=
  take (slice_bound (length l) k) l.

(** [l[a:b]] for constants [0 <= a <= b] *)
Definition slice {A} (l : list A) (a b : nat) : list A :=
  drop a (take b l).

(** [range(n)] *)
Definition range (n : nat) : list nat := seq 0 n.

(** [for x in l: s = body(s, x)] *)
Fixpoint for_ {A S} (l : list A) (body : S -> A -> py S) (s : S) : py S :=
  match l with
  | [] => ret s
  | x :: l' => s' ← body s x; for_ l' body s'
  end.

(** [d[k]] on a dictionary *)
Definition lookup_key {V} (d : gmap string V) (k : string) : py V :=
  match d !! k with
  | Some v => ret v
  | None => raise KeyError
  end.

(** [a % b] *)
Definition pymod (a b : Z) : py Z :=
  if bool_decide (b = 0) then raise ZeroDivisionError else ret (a mod b).

(** [int(q)]: the fraction is dropped, towards zero. *)
Definition int (q : Q) : Z := Z.quot (Qnum q) (Zpos (Qden q)).

(** *** Floats

    A Python float is a binary64 number: 53 significant bits, and steps
    of 2^-1074 at least. *)

(** To the nearest integer, a tie to the even one. *)
Definition nearest_even (q : Q) : Z :=
  let f := Qfloor q in
  match (q - inject_Z f ?= 1 # 2)%Q with
  | Lt => f
  | Gt => f + 1
  | Eq => if Z.even f then f else f + 1
  end.

(** The binade of a positive number [x]: the [e] with
    [2^e <= x < 2^(e+1)]. *)
Definition binade (x : Q) : Z :=
  let d := Z.log2 (Qnum x) - Z.log2 (Zpos (Qden x)) in
  if Qle_bool (2 ^ d) x then d else d - 1.

(** A positive number rounded to 53 significant bits, or to a multiple of
    2^-1074 where it is small: a multiple of the step [u] of its binade,
    the nearest one, a tie to the even one. *)
Definition round64_pos (x : Q) : Q :=
  let u := (2 ^ Z.max (binade x - 52) (-1074))%Q in
  (inject_Z (nearest_even (x / u)) * u)%Q.

(** The float that a number is rounded to, as long as that is finite. *)
Definition round64 (x : Q) : Q :=
  match Qnum x with
  | 0 => 0%Q
  | Zpos _ => round64_pos x
  | Zneg _ => (- round64_pos (- x))%Q
  end.

(** The rounded number is no finite float: it has left the range of the
    floats, whose largest is 2^1024 - 2^971. *)
Definition no_float (y : Q) : bool :=
  Qle_bool (2 ^ 1024) y || Qle_bool y (- 2 ^ 1024).

End Py.

(** ** NumPy and Torch: floating point values and arrays *)

Module Np.

Inductive fval :=
| Fin (q : Q)
| Inf (neg : bool)
| NaN.

Definition Qneg (q : Q) : bool := negb (Qle_bool 0 q).
Definition Qzero (q : Q) : bool := Qeq_bool q 0.

Definition fneg (a : fval) : fval :=
  match a with
  | Fin q => Fin (- q)
  | Inf s => Inf (negb s)
  | NaN => NaN
  end.

Definition fadd (a b : fval) : fval :=
  match a, b with
  | Fin x, Fin y => Fin (x + y)
  | Fin _, Inf s | Inf s, Fin _ => Inf s
  | Inf s, Inf t => if Bool.eqb s t then Inf s else NaN
  | NaN, _ | _, NaN => NaN
  end.

Definition fsub (a b : fval) : fval := fadd a (fneg b).

Definition fmul (a b : fval) : fval :=
  match a, b with
  | Fin x, Fin y => Fin (x * y)
  | Fin x, Inf s | Inf s, Fin x =>
      if Qzero x then NaN else Inf (xorb s (Qneg x))
  | Inf s, Inf t => Inf (xorb s t)
  | NaN, _ | _, NaN => NaN
  end.

Definition fdiv (a b : fval) : fval :=
  match a, b with
  | Fin x, Fin y =>
      if Qzero y then (if Qzero x then NaN else Inf (Qneg x))
      else Fin (x / y)
  | Fin _, Inf _ => Fin 0
  | Inf s, Fin y => Inf (xorb s (Qneg y))
  | Inf _, Inf _ => NaN
  | NaN, _ | _, NaN => NaN
  end.

(** [a == b] *)
Definition feqb (a b : fval) : bool :=
  match a, b with
  | Fin x, Fin y => Qeq_bool x y
  | Inf s, Inf t => Bool.eqb s t
  | _, _ => false
  end.

(** [a <= b] *)
Definition fleb (a b : fval) : bool :=
  match a, b with
  | Fin x, Fin y => Qle_bool x y
  | Inf s, Inf t => s || negb t
  | Inf s, Fin _ => s
  | Fin _, Inf t => negb t
  | _, _ => false
  end.

(** The minimum and maximum of two values as [ndarray.min] and
    [ndarray.max] combine them: a not-a-number wins. *)
Definition fmin2 (a b : fval) : fval :=
  match a, b with
  | NaN, _ | _, NaN => NaN
  | _, _ => if fleb a b then a else b
  end.

Definition fmax2 (a b : fval) : fval :=
  match a, b with
  | NaN, _ | _, NaN => NaN
  | _, _ => if fleb a b then b else a
  end.

(** [a.min()] and [a.max()] of a one-dimensional array: a [ValueError] on
    an empty one. *)
Definition amin (l : list fval) : Py.py fval :=
  match l with
  | [] => Py.raise Py.ValueError
  | x :: l' => Py.ret (foldl fmin2 x l')
  end.

Definition amax (l : list fval) : Py.py fval :=
  match l with
  | [] => Py.raise Py.ValueError
  | x :: l' => Py.ret (foldl fmax2 x l')
  end.

(** Two values are the same value: equal rationals, the same infinity, or
    both not-a-number. *)
Definition fsame (a b : fval) : Prop :=
  match a, b with
  | Fin x, Fin y => (x == y)%Q
  | Inf s, Inf t => s = t
  | NaN, NaN => True
  | _, _ => False
  end.

(** A tensor of any rank: its shape and its elements in row-major order. *)
Record tensor := Tensor { shape : list nat; data : list fval }.

(** An operation applied to every element. *)
Definition pointwise (f : fval -> fval) (x : tensor) : tensor :=
  Tensor (shape x) (map f (data x)).

Definition tensor_same (x y : tensor) : Prop :=
  shape x = shape y /\ Forall2 fsame (data x) (data y).

(** A table of [int32] cells as [np.zeros] makes it: one-dimensional, or
    two-dimensional with rows of [nel] cells. *)
Inductive ndarray :=
| Arr1 (cells : list Z)
| Arr2 (nel : nat) (rows : list (list Z)).

(** A stored integer in the 32 bits of a cell, two's complement. *)
Definition wrap32 (v : Z) : Z := (v + 2 ^ 31) mod 2 ^ 32 - 2 ^ 31.

(** [np.zeros((n), dtype=np.int32)] and [np.zeros((n, nel), dtype=np.int32)] *)
Definition zeros1 (n : Z) : ndarray := Arr1 (replicate (Z.to_nat n) 0).

Definition zeros2 (n : Z) (nel : nat) : ndarray :=
  Arr2 nel (replicate (Z.to_nat n) (replicate nel 0)).

(** The length of the first axis. *)
Definition alen (a : ndarray) : nat :=
  match a with
  | Arr1 cells => length cells
  | Arr2 _ rows => length rows
  end.

(** The value of a mapping entry: an integer, or a list of integers
    ([isinstance(data, list)]). *)
Inductive mapval :=
| Scalar (v : Z)
| Vector (l : list Z).

(** [lut[key] = data].  The index is checked first ([IndexError]).  Then a
    scalar is stored in the cell, or in every cell of the row; a list is
    stored as the row when it has the length of the row, or is broadcast
    when it has one element; a list does not fit into a single cell, nor
    into a row of another length ([ValueError]). *)
Definition setitem (lut : ndarray) (key : Z) (data : mapval) : Py.py ndarray :=
  match Py.norm_index (alen lut) key with
  | None => Py.raise Py.IndexError
  | Some k =>
      match lut, data with
      | Arr1 cells, Scalar v => Py.ret (Arr1 (<[k := wrap32 v]> cells))
      | Arr1 _, Vector _ => Py.raise Py.ValueError
      | Arr2 nel rows, Scalar v =>
          Py.ret (Arr2 nel (<[k := replicate nel (wrap32 v)]> rows))
      | Arr2 nel rows, Vector l =>
          if bool_decide (length l = nel) then
            Py.ret (Arr2 nel (<[k := map wrap32 l]> rows))
          else match l with
               | [v] => Py.ret (Arr2 nel (<[k := replicate nel (wrap32 v)]> rows))
               | _ => Py.raise Py.ValueError
               end
      end
  end.

(** What one index reads from a table: a cell, or a row. *)
Inductive cell :=
| Sc (v : Z)
| Row (r : list Z).

(** [lut[i]] for one integer [i] *)
Definition item (lut : ndarray) (i : Z) : Py.py cell :=
  match lut with
  | Arr1 cells => v ← Py.getitem cells i; Py.ret (Sc v)
  | Arr2 _ rows => r ← Py.getitem rows i; Py.ret (Row r)
  end.

(** An array of integers of any rank: the labels to map. *)
Record iarray := IArray { ishape : list nat; idata : list Z }.

(** [lut[label]] for an array of indices: one cell or row per index, in the
    shape of [label]. *)
Fixpoint items (lut : ndarray) (idx : list Z) : Py.py (list cell) :=
  match idx with
  | [] => Py.ret []
  | i :: idx' => c ← item lut i; cs ← items lut idx'; Py.ret (c :: cs)
  end.

Record mapped := Mapped { mshape : list nat; mcells : list cell }.

Definition take_ (lut : ndarray) (label : iarray) : Py.py mapped :=
  cs ← items lut (idata label); Py.ret (Mapped (ishape label) cs).

End Np.

(** ** util/__init__.py *)

Module Util.
Import Py Np.

(** [sigmoid_to_tanh]: [[0,1] -> [-1,+1]] *)
Definition sigmoid_to_tanh (x : tensor) : tensor :=
  let out := pointwise (fun v => fsub (fmul v (Fin 2)) (Fin 1)) x in
  out.

(** [tanh_to_sigmoid]: [[-1,+1] -> [0,1]] *)
Definition tanh_to_sigmoid (x : tensor) : tensor :=
  let out := pointwise (fun v => fdiv (fadd v (Fin 1)) (Fin 2)) x in
  out.

(** *** The label lookup table

    [_map] and [BinaryScan.map] build their table with the same two loops,
    written out in both functions; the loops are embedded once. *)

(** A mapping as [mapdict.items()] yields it: the entries in insertion
    order. *)
Definition mapdict := list (Z * mapval).

(** The body of the first loop: [nel] is set from the entry at hand, and
    [maxkey] is raised to its key. *)
Definition scan_entry (st : Z * option nat) (kd : Z * mapval) : Z * option nat :=
  let '(maxkey, _) := st in
  let '(key, data) := kd in
  let nel := match data with
             | Vector l => length l
             | Scalar _ => 1%nat
             end in
  (if bool_decide (key > maxkey) then key else maxkey, Some nel).

(** The first loop, from [maxkey = 0] and [nel] not yet bound. *)
Definition scan_mapdict (m : mapdict) : Z * option nat :=
  foldl scan_entry (0, None) m.

(** The table allocated after the first loop: [nel] is read, which fails
    when no entry has bound it. *)
Definition alloc_lut (m : mapdict) : py ndarray :=
  let '(maxkey, nel) := scan_mapdict m in
  match nel with
  | None => raise UnboundLocalError
  | Some nel =>
      if bool_decide (1 < nel)%nat then ret (zeros2 (maxkey + 100) nel)
      else ret (zeros1 (maxkey + 100))
  end.

(** The second loop: every entry is stored at its key, and an [IndexError]
    is answered by printing the key. *)
Fixpoint fill_lut (lut : ndarray) (m : mapdict) : py ndarray :=
  match m with
  | [] => ret lut
  | (key, data) :: m' =>
      lut' ← try_except (setitem lut key data) IndexError
                (print (WrongKey key);; ret lut);
      fill_lut lut' m'
  end.

(** The table of [_map], from [maxkey = 0] up to the end of the second
    loop. *)
Definition _map_lut (m : mapdict) : py ndarray :=
  lut ← alloc_lut m; fill_lut lut m.

(** The labels given to [_map]: a NumPy array or a Torch tensor. *)
Inductive labels :=
| NpLabels (a : iarray)
| TorchLabels (a : iarray).

Definition is_tensor (l : labels) : bool :=
  match l with TorchLabels _ => true | NpLabels _ => false end.

Definition label_array (l : labels) : iarray :=
  match l with TorchLabels a | NpLabels a => a end.

(** [_map(label, mapdict)]: the result is a tensor when [label] is one. *)
Definition _map (label : labels) (m : mapdict) : py (bool * mapped) :=
  lut ← _map_lut m;
  r ← take_ lut (label_array label);
  ret (is_tensor label, r).

End Util.

(** ** dataset/datahandler.py *)

Module DataHandler.
Import Py Np Util.

(** A channel of a scan: [H] rows of [W] pixels. *)
Abbreviation grid := (list (list fval)).

(** A value of the sensor description. *)
Inductive yamlval :=
| YBool (b : bool)
| YNum (q : Q)
| YStr (s : string)
| YList (l : list Q).

(** [if v:] *)
Definition truthy (v : yamlval) : bool :=
  match v with
  | YBool b => b
  | YNum q => negb (Qeq_bool q 0)
  | YStr s => negb (bool_decide (s = EmptyString))
  | YList l => negb (bool_decide (l = []))
  end.

(** The files the datasets read: for every directory the paths that
    [glob.glob(dir + '/*')] finds in it, in the order it finds them, and for
    every path the array of shape (channels, H, W) that [np.load] reads
    from it. *)
Record filesystem := FileSystem {
  dirs : gmap string (list string);
  files : gmap string (list grid)
}.

(** An array of finite values, by its values. *)
Definition finite (a : list (list (list Q))) : list grid :=
  map (map (map Fin)) a.

(** The values of an array, when all of them are finite. *)
Definition numbers (t : list grid) : option (list (list (list Q))) :=
  mapM (mapM (mapM (fun v => match v with Fin q => Some q | _ => None end))) t.

(** The stored arrays of finite pixel values, by their values. *)
Definition arrays (fs : filesystem) : gmap string (list (list (list Q))) :=
  omap numbers (files fs).

Definition isdir (fs : filesystem) (d : string) : bool :=
  bool_decide (is_Some (dirs fs !! d)).

Definition glob (fs : filesystem) (d : string) : list string :=
  default [] (dirs fs !! d).

(** The order of [str]: by code points. *)
Definition name_le (a b : string) : Prop := String.leb a b = true.

#[global] Instance name_le_dec : RelDecision name_le.
Proof. intros a b. unfold name_le. apply _. Defined.

(** [names.sort()] *)
Definition sort_names (names : list string) : list string :=
  merge_sort name_le names.

Definition np_load (fs : filesystem) (path : string) : py (list grid) :=
  match files fs !! path with
  | Some a => ret a
  | None => raise FileNotFoundError
  end.

(** *** UnaryScan *)

Record UnaryScan := MkUnaryScan {
  data_dir : string;
  data_stats : gmap string yamlval;
  scan_file_names : list string
}.

Definition UnaryScan_init (fs : filesystem) (data_dir : string)
    (data_stats : gmap string yamlval) (max_dataset_size : Z) : py UnaryScan :=
  (if isdir fs data_dir then
     print (Text ("Sequences folder exists! Using sequences from " +:+ data_dir))
   else raise ValueError);;
  let names := sort_names (glob fs data_dir) in
  let names := if bool_decide (max_dataset_size ≠ -1)
               then slice_to names max_dataset_size else names in
  ret (MkUnaryScan data_dir data_stats names).

Definition UnaryScan_len (self : UnaryScan) : Z :=
  Z.of_nat (length (scan_file_names self)).

(** [a[mask]]: the pixels of a row, and of a grid, where the mask holds, in
    row-major order. *)
Fixpoint row_get (row : list fval) (m : list bool) : list fval :=
  match row, m with
  | x :: row', b :: m' => if b then x :: row_get row' m' else row_get row' m'
  | _, _ => []
  end.

Fixpoint mask_get (g : grid) (m : list (list bool)) : list fval :=
  match g, m with
  | row :: g', mrow :: m' => row_get row mrow ++ mask_get g' m'
  | _, _ => []
  end.

(** [a[mask] = f(a[mask])] for an operation [f] on every element: each
    selected pixel is replaced by [f] of it, the others stay. *)
Definition mask_apply (f : fval -> fval) (g : grid) (m : list (list bool)) : grid :=
  zip_with (zip_with (fun x (b : bool) => if b then f x else x)) g m.

(** The body of the normalisation loop for channel [i]. *)
Definition normalize_channel (b_mask : list (list bool)) (proj : list grid)
    (i : nat) : py (list grid) :=
  chi ← getitem proj (Z.of_nat i);
  Min ← amin (mask_get chi b_mask);
  Max ← amax (mask_get chi b_mask);
  let chi := mask_apply (fun v => fdiv (fsub v Min) (fsub Max Min)) chi b_mask in
  let chi := mask_apply (fun v => fdiv (fsub v (Fin (1 # 2))) (Fin (1 # 2))) chi b_mask in
  ret (<[i := chi]> proj).

(** [a[lo:hi] = f(a[lo:hi])] along the first axis *)
Definition slice_apply {A} (f : A -> A) (lo hi : nat) (l : list A) : list A :=
  take lo l ++ map f (slice l lo hi) ++ drop hi l.

(** [np.repeat(proj, n, axis=1)]: along the second axis of the array, which
    is the axis of the rows of every channel, each element is repeated [n]
    times. *)
Definition repeat_axis1 (n : nat) (proj : list grid) : list grid :=
  map (fun ch => flat_map (replicate n) ch) proj.

(** [t * proj_mask] for [t] of shape (k, H, W) and [proj_mask] of shape
    (1, H, W): the one channel of the mask is broadcast over the channels
    of [t]. *)
Definition mul_mask (t proj_mask : list grid) : py (list grid) :=
  match proj_mask with
  | [m] => ret (map (fun ch => zip_with (zip_with fmul) ch m) t)
  | _ => raise RuntimeError
  end.

(** What [__getitem__] returns; [proj_rgb] is [None] for the empty list
    returned without colour channels. *)
Record sample := Sample {
  proj_xyz : list grid;
  proj_range : list grid;
  proj_remission : list grid;
  proj_mask : list grid;
  proj_rgb : option (list grid)
}.

Definition UnaryScan_getitem (fs : filesystem) (self : UnaryScan) (index : Z)
    : py sample :=
  scan_file ← getitem (scan_file_names self) index;
  proj ← np_load fs scan_file;
  ch5 ← getitem proj 5;
  let b_mask := map (map (fun v => feqb v (Fin 1))) ch5 in
  proj ← for_ (range 5) (normalize_channel b_mask) proj;
  have_rgb ← lookup_key (data_stats self) "have_rgb";
  let proj :=
    if truthy have_rgb then
      slice_apply
        (map (map (fun v => fsub (fdiv v (Fin (255 # 2))) (Fin 1)))) 6 9 proj
    else proj in
  let proj := repeat_axis1 4 proj in
  let proj_mask := slice proj 5 6 in
  proj_xyz ← mul_mask (slice proj 0 3) proj_mask;
  proj_range ← mul_mask (slice proj 3 4) proj_mask;
  proj_remission ← mul_mask (slice proj 4 5) proj_mask;
  proj_rgb ← (if truthy have_rgb then
                 rgb ← mul_mask (slice proj 6 9) proj_mask; ret (Some rgb)
               else ret None);
  ret (Sample proj_xyz proj_range proj_remission proj_mask proj_rgb).

(** *** BinaryScan *)

Record BinaryScan := MkBinaryScan {
  datasetA : UnaryScan;
  datasetB : UnaryScan;
  sizeA : Z;
  sizeB : Z
}.

Definition BinaryScan_init (fs : filesystem)
    (data_dirA : string) (data_statsA : gmap string yamlval)
    (data_dirB : string) (data_statsB : gmap string yamlval)
    (max_dataset_size : Z) : py BinaryScan :=
  datasetA ← UnaryScan_init fs data_dirA data_statsA max_dataset_size;
  datasetB ← UnaryScan_init fs data_dirB data_statsB max_dataset_size;
  ret (MkBinaryScan datasetA datasetB
         (Z.of_nat (size data_statsA)) (Z.of_nat (size data_statsB))).

(** [np.random.randint(0, high)], with [rnd] the number that the random
    source of the process gives at this call. *)
Definition randint (high : Z) (rnd : Z) : py Z :=
  if bool_decide (high <= 0) then raise ValueError else ret (rnd mod high).

(** The indices that [__getitem__] reads in the two datasets. *)
Definition BinaryScan_indices (self : BinaryScan) (index rnd : Z) : py (Z * Z) :=
  index_A ← pymod index (sizeA self);
  index_B ← randint (sizeB self) rnd;
  ret (index_A, index_B).

Definition BinaryScan_getitem (fs : filesystem) (self : BinaryScan)
    (index rnd : Z) : py (sample * sample) :=
  '(index_A, index_B) ← BinaryScan_indices self index rnd;
  a ← UnaryScan_getitem fs (datasetA self) index_A;
  b ← UnaryScan_getitem fs (datasetB self) index_B;
  ret (a, b).

Definition BinaryScan_len (self : BinaryScan) : Z :=
  Z.max (sizeA self) (sizeB self).

(** [BinaryScan.map(label, mapdict)]: the table of [_map], built by the same
    two loops, and indexed as a NumPy array. *)
Definition BinaryScan_map_lut (m : mapdict) : py ndarray :=
  lut ← alloc_lut m; fill_lut lut m.

Definition BinaryScan_map (label : iarray) (m : mapdict) : py mapped :=
  lut ← BinaryScan_map_lut m;
  take_ lut label.

(** *** Loader *)

Record dataset_cfg := DatasetCfg {
  cfg_data_dir : string;
  cfg_sensor : gmap string yamlval
}.

Inductive dataset :=
| Unary (d : UnaryScan)
| Binary (d : BinaryScan).

Definition dataset_len (d : dataset) : Z :=
  match d with
  | Unary u => UnaryScan_len u
  | Binary b => BinaryScan_len b
  end.

(** The data a loader iterates: the whole dataset, or [Subset(dataset,
    indices)]. *)
Inductive data_source :=
| Whole (d : dataset)
| Subset (d : dataset) (indices : list nat).

Definition source_len (s : data_source) : Z :=
  match s with
  | Whole d => dataset_len d
  | Subset _ indices => Z.of_nat (length indices)
  end.

Record DataLoader := MkDataLoader {
  dl_dataset : data_source;
  dl_batch_size : Z;
  dl_shuffle : bool;
  dl_num_workers : Z;
  dl_drop_last : bool
}.

(** [torch.utils.data.DataLoader(dataset, batch_size=..., shuffle=...,
    num_workers=..., drop_last=...)], as far as the library checks its
    arguments: the number of workers is not negative, a shuffling sampler
    has something to draw from, and the batch size is positive. *)
Definition DataLoader_init (dataset : data_source) (batch_size : Z)
    (shuffle : bool) (num_workers : Z) (drop_last : bool) : py DataLoader :=
  (if bool_decide (num_workers < 0) then raise ValueError else ret tt);;
  (if shuffle && bool_decide (source_len dataset <= 0)
   then raise ValueError else ret tt);;
  (if bool_decide (batch_size <= 0) then raise ValueError else ret tt);;
  ret (MkDataLoader dataset batch_size shuffle num_workers drop_last).

(** [len(loader)]: the number of batches. *)
Definition DataLoader_len (dl : DataLoader) : Z :=
  if dl_drop_last dl then source_len (dl_dataset dl) / dl_batch_size dl
  else (source_len (dl_dataset dl) + dl_batch_size dl - 1) / dl_batch_size dl.

Record Loader := MkLoader {
  trainloader : option DataLoader;
  validloader : option DataLoader;
  testloader : option DataLoader
}.

(** The dataset that [Loader.__init__] builds from [data_dict]. *)
Definition Loader_dataset (fs : filesystem) (data_dict : gmap string dataset_cfg)
    (max_dataset_size : Z) : py dataset :=
  if bool_decide (size data_dict = 2%nat) then
    A ← lookup_key data_dict "dataset_A";
    B ← lookup_key data_dict "dataset_B";
    d ← BinaryScan_init fs (cfg_data_dir A) (cfg_sensor A)
          (cfg_data_dir B) (cfg_sensor B) max_dataset_size;
    ret (Binary d)
  else
    A ← lookup_key data_dict "dataset_A";
    d ← UnaryScan_init fs (cfg_data_dir A) (cfg_sensor A) max_dataset_size;
    ret (Unary d).

(** [val_split_ratio*total_samples] for a ratio that is a float, given by
    its value: the number of samples is converted to a float, and the
    product is rounded to a float. *)
Definition split_product (val_split_ratio : Q) (total_samples : Z) : Q :=
  round64 (val_split_ratio * round64 (inject_Z total_samples)).

(** The number of samples is too large for a float, or the product is: the
    conversion of the one and [int] of the other, which is infinite then,
    are an [OverflowError]. *)
Definition split_overflow (val_split_ratio : Q) (total_samples : Z) : bool :=
  no_float (round64 (inject_Z total_samples))
  || no_float (split_product val_split_ratio total_samples).

(** [int(val_split_ratio*total_samples)] *)
Definition split_point (val_split_ratio : Q) (total_samples : Z) : py Z :=
  if split_overflow val_split_ratio total_samples then raise OverflowError
  else ret (int (split_product val_split_ratio total_samples)).

(** [range(total_samples)[int(val_split_ratio*total_samples):]] and
    [range(total_samples)[:int(val_split_ratio*total_samples)]], once the
    bound of the slice has been computed. *)
Definition train_indcs (val_split_ratio : Q) (total_samples : Z) : list nat :=
  slice_from (range (Z.to_nat total_samples))
    (int (split_product val_split_ratio total_samples)).

Definition val_indcs (val_split_ratio : Q) (total_samples : Z) : list nat :=
  slice_to (range (Z.to_nat total_samples))
    (int (split_product val_split_ratio total_samples)).

(** The loaders that [Loader.__init__] builds on [total_dataset]. *)
Definition Loader_split (total_dataset : dataset) (batch_size : Z)
    (val_split_ratio : Q) (workers : Z) (shuffle_train : bool)
    (is_train is_training_data : bool) : py Loader :=
  let total_samples := dataset_len total_dataset in
  if is_train then
    assert is_training_data;;
    split_point val_split_ratio total_samples;;
    let train_dataset :=
      Subset total_dataset (train_indcs val_split_ratio total_samples) in
    let val_dataset :=
      Subset total_dataset (val_indcs val_split_ratio total_samples) in
    trainloader ← DataLoader_init train_dataset batch_size shuffle_train workers true;
    assert (bool_decide (DataLoader_len trainloader > 0));;
    validloader ← DataLoader_init val_dataset batch_size false workers false;
    assert (bool_decide (DataLoader_len validloader > 0));;
    ret (MkLoader (Some trainloader) (Some validloader) None)
  else
    test_dataset ←
      (if is_training_data then
         split_point val_split_ratio total_samples;;
         ret (Subset total_dataset (val_indcs val_split_ratio total_samples))
       else ret (Whole total_dataset));
    testloader ← DataLoader_init test_dataset batch_size false workers false;
    assert (bool_decide (DataLoader_len testloader > 0));;
    ret (MkLoader None None (Some testloader)).

Definition Loader_init (fs : filesystem) (data_dict : gmap string dataset_cfg)
    (batch_size : Z) (val_split_ratio : Q) (workers : Z) (gt : bool)
    (shuffle_train : bool) (max_dataset_size : Z)
    (is_train is_training_data : bool) : py Loader :=
  total_dataset ← Loader_dataset fs data_dict max_dataset_size;
  Loader_split total_dataset batch_size val_split_ratio workers shuffle_train
    is_train is_training_data.

End DataHandler.

(** ** Vocabulary of the properties *)

Module Props.
Import Py Np Util DataHandler.

(** The largest key of a mapping, and [b] when that is larger. *)
Definition keys_max (m : mapdict) (b : Z) : Z :=
  foldr (fun kd acc => Z.max (fst kd) acc) b m.

(** The largest key of a mapping that has one: [max(key)]. *)
Definition max_key (m : mapdict) : option Z :=
  match m with
  | [] => None
  | kd :: m' => Some (keys_max m' (fst kd))
  end.

(** The vector length of a value, 1 for a scalar. *)
Definition entry_nel (data : mapval) : nat :=
  match data with
  | Vector l => length l
  | Scalar _ => 1%nat
  end.

(** The largest vector length among the values of a mapping. *)
Definition max_nel (m : mapdict) : nat :=
  foldr (fun kd acc => Nat.max (entry_nel (snd kd)) acc) 0%nat m.

(** The length of what one index reads from a table. *)
Definition entry_len (lut : ndarray) : nat :=
  match lut with
  | Arr1 _ => 1%nat
  | Arr2 nel _ => nel
  end.

(** What an index reads from a table in which nothing was stored there. *)
Definition zero_cell (lut : ndarray) : cell :=
  match lut with
  | Arr1 _ => Sc 0
  | Arr2 nel _ => Row (replicate nel 0)
  end.

(** What is stored at position [i] of the first axis. *)
Definition cell_at (lut : ndarray) (i : nat) : option cell :=
  match lut with
  | Arr1 cells => Sc <$> cells !! i
  | Arr2 _ rows => Row <$> rows !! i
  end.

(** The keys of a mapping that lie before the start of a table of [n]
    entries, in the order of the mapping. *)
Definition skipped_keys (n : Z) (m : mapdict) : list Z :=
  filter (fun k => k < - n) (m.*1).

(** The loop of the table without its [try]. *)
Definition fill_unguarded (lut : ndarray) (m : mapdict) : py ndarray :=
  for_ m (fun lut kd => setitem lut (fst kd) (snd kd)) lut.

(** The pixel of a channel at row [r] and column [c], and the pixel of
    channel [ch] of an array at row [r] and column [c]. *)
Definition at2 {A} (g : list (list A)) (r c : nat) : option A :=
  match g !! r with
  | Some row => row !! c
  | None => None
  end.

Definition pixel {A} (t : list (list (list A))) (ch r c : nat) : option A :=
  match t !! ch with
  | Some g => at2 g r c
  | None => None
  end.

(** The two steps of the normalisation of a pixel, for the minimum and the
    maximum of its channel over the valid pixels. *)
Definition normalized (Min Max : fval) (v : fval) : fval :=
  fdiv (fsub (fdiv (fsub v Min) (fsub Max Min)) (Fin (1 # 2))) (Fin (1 # 2)).

(** The mask of valid pixels of a loaded scan: [proj[5] == 1.0]. *)
Definition valid_mask (ch5 : list (list fval)) : list (list bool) :=
  map (map (fun v => feqb v (Fin 1))) ch5.

(** Every row repeated four times. *)
Definition upsampled {A} (g : list (list A)) : list (list A) :=
  flat_map (replicate 4) g.

(** A channel times the mask, pixel by pixel. *)
Definition masked (g m : list (list fval)) : list (list fval) :=
  zip_with (zip_with fmul) g m.

(** The colour channels rescaled. *)
Definition rescaled (g : list (list fval)) : list (list fval) :=
  map (map (fun v => fsub (fdiv v (Fin (255 # 2))) (Fin 1))) g.

(** The pixel at row [r] and column [c] of a stored scan is valid: its
    channel 5 is 1 there. *)
Definition valid_at (a : list (list (list Q))) (r c : nat) : Prop :=
  exists m, pixel a 5 r c = Some m /\ (m == 1)%Q.

(** Channel 5 of a stored scan is a binary mask. *)
Definition binary_mask (a : list (list (list Q))) : Prop :=
  forall r c m, pixel a 5 r c = Some m -> (m == 0)%Q \/ (m == 1)%Q.

(** Channel [i] of a stored scan takes two values over the valid pixels. *)
Definition two_valid_values (a : list (list (list Q))) (i : nat) : Prop :=
  exists r1 c1 r2 c2 x y,
    valid_at a r1 c1 /\ valid_at a r2 c2 /\
    pixel a i r1 c1 = Some x /\ pixel a i r2 c2 = Some y /\ ~ (x == y)%Q.

(** A pixel of a returned tensor, by the mask that is returned with it: a
    valid pixel lies between -1 and 1, a pixel that is not valid is zero. *)
Definition pixel_ok (v : fval) (mask : option fval) : Prop :=
  exists q mq, v = Fin q /\ mask = Some (Fin mq) /\
    (((mq == 1)%Q /\ (-1 <= q <= 1)%Q) \/ ((mq == 0)%Q /\ (q == 0)%Q)).

(** A channel normalised over its valid pixels, as the loop leaves it. *)
Definition norm_of (bm : list (list bool)) (g N : list (list fval)) : Prop :=
  exists Min Max,
    amin (mask_get g bm) = ret Min /\ amax (mask_get g bm) = ret Max /\
    N = mask_apply (normalized Min Max) g bm.

(** A channel of [H] rows of [W] pixels, and an array of shape (C, H, W). *)
Definition grid_shape {A} (g : list (list A)) (H W : nat) : Prop :=
  length g = H /\ Forall (fun row => length row = W) g.

Definition has_shape {A} (t : list (list (list A))) (C H W : nat) : Prop :=
  length t = C /\ Forall (fun g => grid_shape g H W) t.

End Props.

(** ** Examples of files and configurations *)

Module Examples.
Import Py Np Util DataHandler.

Definition stats_no_rgb : gmap string yamlval := {[ "have_rgb"%string := YBool false ]}.

(** Ten scans in the directory A. *)
Definition ten_names : list string :=
  (fun c => "A/" +:+ c +:+ ".npy") <$>
    ["0"; "1"; "2"; "3"; "4"; "5"; "6"; "7"; "8"; "9"]%string.

Definition fs_ten : filesystem := FileSystem {[ "A"%string := ten_names ]} ∅.

Definition dict_ten : gmap string dataset_cfg :=
  {[ "dataset_A"%string := DatasetCfg "A" stats_no_rgb ]}.

(** Three scans in the directory A and two in the directory B. *)
Definition fs_three_two : filesystem :=
  FileSystem
    {[ "A"%string := ["A/0.npy"; "A/1.npy"; "A/2.npy"]%string;
       "B"%string := ["B/0.npy"; "B/1.npy"]%string ]} ∅.

(** A scan of shape (6, 1, 2): two valid pixels, two values in every
    channel. *)
Definition scan_1x2 : list (list (list Q)) :=
  [ [[1; 2]]; [[3; 5]]; [[0; 1]]; [[7; 9]]; [[2; 4]]; [[1; 1]] ]%Q.

(** A scan of shape (6, 1, 2) whose first channel is 3 at both valid
    pixels. *)
Definition scan_constant : list (list (list Q)) :=
  [ [[3; 3]]; [[3; 5]]; [[0; 1]]; [[7; 9]]; [[2; 4]]; [[1; 1]] ]%Q.

Definition fs_scans : filesystem :=
  FileSystem {[ "A"%string := ["A/0.npy"; "A/1.npy"]%string ]}
    {[ "A/0.npy"%string := finite scan_1x2;
       "A/1.npy"%string := finite scan_constant ]}.

Definition unary_scans : UnaryScan :=
  MkUnaryScan "A" stats_no_rgb ["A/0.npy"; "A/1.npy"]%string.

(** A scan of shape (6, 1, 3) with two valid pixels and two values in every
    channel there; its third pixel is not valid, and the first channel
    holds no number at it. *)
Definition scan_gap : list grid :=
  [ [[Fin 1; Fin 2; NaN]]; [[Fin 3; Fin 5; Fin 0]]; [[Fin 0; Fin 1; Fin 0]];
    [[Fin 7; Fin 9; Fin 0]]; [[Fin 2; Fin 4; Fin 0]]; [[Fin 1; Fin 1; Fin 0]] ].

Definition fs_gap : filesystem :=
  FileSystem {[ "G"%string := ["G/0.npy"%string] ]}
    {[ "G/0.npy"%string := scan_gap ]}.

Definition unary_gap : UnaryScan :=
  MkUnaryScan "G" stats_no_rgb ["G/0.npy"%string].

End Examples.

(** ** Further vocabulary of the properties *)

Module Outcomes.
Import Py Np Util DataHandler Props.

(** The number of files that a dataset lists, from the number of files in
    its directory and [max_dataset_size]. *)
Definition listing_length (n : nat) (max_dataset_size : Z) : Z :=
  if bool_decide (max_dataset_size = -1) then Z.of_nat n
  else if bool_decide (0 <= max_dataset_size) then Z.min max_dataset_size (Z.of_nat n)
  else Z.max 0 (Z.of_nat n + max_dataset_size).

(** The channel of a returned sample that holds channel [i] of the scan. *)
Definition returned_channel (s : sample) (i : nat) : option (list (list fval)) :=
  match i with
  | 0 | 1 | 2 => proj_xyz s !! i
  | 3 => proj_range s !! 0
  | 4 => proj_remission s !! 0
  | _ => None
  end%nat.

(** A value can be stored in an entry of a table: a scalar always, a list
    in a row of its length or, broadcast, when it has one element. *)
Definition fits (lut : ndarray) (data : mapval) : Prop :=
  match lut, data with
  | Arr1 _, Scalar _ => True
  | Arr1 _, Vector _ => False
  | Arr2 _ _, Scalar _ => True
  | Arr2 nel _, Vector l => length l = nel \/ length l = 1%nat
  end.

#[global] Instance fits_dec (lut : ndarray) (data : mapval) :
  Decision (fits lut data).
Proof. destruct lut, data; simpl; apply _. Defined.

(** The entry of a table in which a value that fits has been stored (a
    list is never stored in a single cell, and the cell given for it is
    of no meaning). *)
Definition stored_cell (lut : ndarray) (data : mapval) : cell :=
  match lut, data with
  | Arr1 _, Scalar v => Sc (wrap32 v)
  | Arr1 _, Vector l => Sc (wrap32 (hd 0 l))
  | Arr2 nel _, Scalar v => Row (replicate nel (wrap32 v))
  | Arr2 nel _, Vector l =>
      if bool_decide (length l = nel) then Row (map wrap32 l)
      else Row (replicate nel (wrap32 (hd 0 l)))
  end.

(** An entry of a mapping fits the table, or its key lies outside of it. *)
Definition fits_or_skipped (lut : ndarray) (e : Z * mapval) : Prop :=
  fits lut (snd e) \/ norm_index (alen lut) (fst e) = None.

(** The numbers of a value are numbers of 32 bits: every version of NumPy
    stores them as they are. *)
Definition int32_value (data : mapval) : Prop :=
  match data with
  | Scalar v => - 2 ^ 31 <= v < 2 ^ 31
  | Vector l => Forall (fun v => - 2 ^ 31 <= v < 2 ^ 31) l
  end.

End Outcomes.

(** ** Further examples of scans *)

Module Scans.
Import Py Np Util DataHandler Props Examples.

(** A scan of one channel, a scan of shape (6, 1, 2) without valid pixel and
    a scan of shape (9, 1, 2) with two valid pixels and colour channels. *)
Definition scan_short : list (list (list Q)) := [ [[1; 2]] ]%Q.

Definition scan_dark : list (list (list Q)) :=
  [ [[1; 2]]; [[3; 5]]; [[0; 1]]; [[7; 9]]; [[2; 4]]; [[0; 0]] ]%Q.

Definition scan_rgb : list (list (list Q)) :=
  [ [[1; 2]]; [[3; 5]]; [[0; 1]]; [[7; 9]]; [[2; 4]]; [[1; 0]];
    [[0; 255]]; [[51; 102]]; [[255; 0]] ]%Q.

Definition fs_more : filesystem :=
  FileSystem {[ "M"%string := ["M/dark.npy"; "M/rgb.npy"; "M/short.npy"]%string ]}
    {[ "M/short.npy"%string := finite scan_short;
       "M/dark.npy"%string := finite scan_dark;
       "M/rgb.npy"%string := finite scan_rgb ]}.

Definition stats_rgb : gmap string yamlval := {[ "have_rgb"%string := YBool true ]}.

Definition unary_more : UnaryScan :=
  MkUnaryScan "M" stats_rgb ["M/dark.npy"; "M/rgb.npy"; "M/short.npy"]%string.

Definition unary_no_key : UnaryScan :=
  MkUnaryScan "A" ∅ ["A/0.npy"; "A/1.npy"]%string.

(** A sensor description of four entries. *)
Definition stats_four : gmap string yamlval :=
  {[ "have_rgb"%string := YBool false; "name"%string := YStr "lidar";
     "fov_up"%string := YNum 3; "fov_down"%string := YNum (-25) ]}.

End Scans.

(** ** util/__init__.py: the helper functions on tensors *)

Module Helpers.
Import Py Np Util.

(** What ends a call of a helper function early: an exception of the data
    handling, or one of the three others that the helpers raise. *)
Inductive failure :=
| Raised (e : exn)
| NameError
| AttributeError
| NotImplementedError.

(** The outcome of a call that prints nothing: a failure or a value. *)
Definition res (A : Type) : Type := failure + A.

#[global] Instance res_ret : MRet res := fun A a => inr a.
#[global] Instance res_bind : MBind res := fun A B k c =>
  match c with
  | inl e => inl e
  | inr a => k a
  end.

Definition fail {A} (e : failure) : res A := inl e.

(** [assert b] *)
Definition check (b : bool) : res unit :=
  if b then mret tt else fail (Raised AssertionError).

(** *** Tensors: sizes, broadcasting and reductions *)

(** The number of elements of a shape. *)
Definition numel (s : list nat) : nat := foldr Nat.mul 1%nat s.

(** Block [b] of [n] consecutive elements. *)
Definition chunk {A} (n b : nat) (l : list A) : list A := take n (drop (b * n) l).

(** The shape two shapes broadcast to, read from their last axes: sizes
    must agree, or one of them be 1. *)
Fixpoint broadcast_rev (s1 s2 : list nat) : option (list nat) :=
  match s1, s2 with
  | [], s | s, [] => Some s
  | a :: s1', b :: s2' =>
      r ← broadcast_rev s1' s2';
      if bool_decide (a = b) then Some (a :: r)
      else if bool_decide (a = 1%nat) then Some (b :: r)
      else if bool_decide (b = 1%nat) then Some (a :: r)
      else None
  end.

Definition broadcast_shapes (s1 s2 : list nat) : option (list nat) :=
  reverse <$> broadcast_rev (reverse s1) (reverse s2).

(** The elements of a tensor of shape [s] expanded to the shape [r] of the
    same rank: an axis of size 1 is repeated. *)
Fixpoint expand_data (s r : list nat) (d : list fval) : list fval :=
  match s, r with
  | a :: s', b :: r' =>
      if bool_decide (a = b) then
        i ← seq 0 a; expand_data s' r' (chunk (numel s') i d)
      else
        _ ← seq 0 b; expand_data s' r' d
  | _, _ => d
  end.

(** A shape is extended by axes of size 1 in front. *)
Definition expand (r : list nat) (x : tensor) : list fval :=
  expand_data (replicate (length r - length (shape x)) 1%nat ++ shape x) r (data x).

(** An operation on the elements of two tensors, as Torch broadcasts them;
    shapes that do not broadcast are a [RuntimeError]. *)
Definition binop (f : fval -> fval -> fval) (x y : tensor) : res tensor :=
  match broadcast_shapes (shape x) (shape y) with
  | Some r => mret (Tensor r (zip_with f (expand r x) (expand r y)))
  | None => fail (Raised RuntimeError)
  end.

(** The sum of the elements, from zero. *)
Definition fsum (l : list fval) : fval := foldl fadd (Fin 0) l.

(** [x.sum(dim=(1, 2, 3))]: the three axes after the first are summed out;
    a tensor of less than four axes has no axis 3 ([IndexError]). *)
Definition sum_123 (x : tensor) : res tensor :=
  match shape x with
  | B :: C :: H :: W :: rest =>
      let n := (C * H * W)%nat in
      let R := numel rest in
      mret (Tensor (B :: rest)
              (b ← seq 0 B; r ← seq 0 R;
               [fsum (m ← seq 0 n; option_list (data x !! ((b * n + m) * R + r)%nat))]))
  | _ => fail (Raised IndexError)
  end.

Definition fabs (a : fval) : fval :=
  match a with
  | Fin q => if Qle_bool 0 q then Fin q else Fin (- q)
  | Inf _ => Inf false
  | NaN => NaN
  end.

(** [F.l1_loss(a, b, reduction="none")] and
    [F.mse_loss(a, b, reduction="none")]: the two tensors are broadcast
    (with a warning when their sizes differ, which is not modelled) and
    compared element by element. *)
Definition l1_loss (a b : tensor) : res tensor :=
  binop (fun x y => fabs (fsub x y)) a b.

Definition mse_loss (a b : tensor) : res tensor :=
  binop (fun x y => let d := fsub x y in fmul d d) a b.

(** *** masked_loss *)

Definition masked_loss (img_ref img_gen mask : tensor) (distance : string)
    : res tensor :=
  loss ← (if String.eqb distance "l1" then l1_loss img_ref img_gen
          else if String.eqb distance "l2" then mse_loss img_ref img_gen
          else fail NotImplementedError);
  weighted ← binop fmul loss mask;
  loss ← sum_123 weighted;
  total ← sum_123 mask;
  binop fdiv loss total.

(** *** colorize *)

(** A colour as a colormap gives it: red, green, blue and opacity. *)
Record rgba := RGBA { red : fval; green : fval; blue : fval; alpha : fval }.

(** A colormap gives the colour of every number it is called on. *)
Definition colormap := Q -> rgba.

(** What the name [cm] is bound to when [colorize] evaluates
    [eval(f"cm.{cmap}")]: nothing, or an object with colormaps as
    attributes.  The module itself binds the names [gc], [osp], [cv2],
    [np], [torch], [nn], [F] and [tqdm] and its own functions, and no
    [cm]. *)
Definition namespace := option (gmap string colormap).

Definition module_namespace : namespace := None.

(** A name of Python in the letters of ASCII: a letter or an underscore,
    then letters, digits and underscores, and no keyword. *)
Definition name_start (c : Ascii.ascii) : bool :=
  let n := Ascii.nat_of_ascii c in
  (Nat.leb 65 n && Nat.leb n 90) || (Nat.leb 97 n && Nat.leb n 122)
  || Nat.eqb n 95.

Definition name_char (c : Ascii.ascii) : bool :=
  let n := Ascii.nat_of_ascii c in
  name_start c || (Nat.leb 48 n && Nat.leb n 57).

Definition keywords : list string :=
  ["False"; "None"; "True"; "and"; "as"; "assert"; "async"; "await";
   "break"; "class"; "continue"; "def"; "del"; "elif"; "else"; "except";
   "finally"; "for"; "from"; "global"; "if"; "import"; "in"; "is";
   "lambda"; "nonlocal"; "not"; "or"; "pass"; "raise"; "return"; "try";
   "while"; "with"; "yield"]%string.

Definition identifier (s : string) : bool :=
  match s with
  | EmptyString => false
  | String c s' =>
      name_start c && forallb name_char (String.list_ascii_of_string s')
      && negb (bool_decide (s ∈ keywords))
  end.

(** [eval(f"cm.{cmap}")] for a [cmap] that is a name ([identifier]): the
    expression is the attribute [cmap] of [cm].  Another string makes
    another expression of it, or none, and is not described here. *)
Definition eval_cm (cm : namespace) (cmap : string) : res colormap :=
  match cm with
  | None => fail NameError
  | Some attributes =>
      match attributes !! cmap with
      | Some f => mret f
      | None => fail AttributeError
      end
  end.

(** [np.linspace(0, 1, 256)] *)
Definition linspace_0_1_256 : list Q :=
  (fun k => inject_Z (Z.of_nat k) / 255)%Q <$> seq 0 256.

(** [torch.tensor(f(np.linspace(0, 1, 256))[:, :3])]: the colours of the
    256 numbers without their opacity, a tensor of shape (256, 3). *)
Definition colors (f : colormap) : tensor :=
  Tensor [256; 3]%nat (c ← f <$> linspace_0_1_256; [red c; green c; blue c]).

(** [tensor.clamp_(0, 1)] on one element *)
Definition clamp01 (v : fval) : fval :=
  match v with
  | Fin q => if Qle_bool q 0 then Fin 0 else if Qle_bool 1 q then Fin 1 else Fin q
  | Inf neg => if neg then Fin 0 else Fin 1
  | NaN => NaN
  end.

(** [torch.round] on one element: to the nearest integer, a tie to the even
    one. *)
Definition round_half_even (q : Q) : Z :=
  let f := Qfloor q in
  match (q - inject_Z f ?= 1 # 2)%Q with
  | Lt => f
  | Gt => f + 1
  | Eq => if Z.even f then f else f + 1
  end.

Definition fround (v : fval) : fval :=
  match v with
  | Fin q => Fin (inject_Z (round_half_even q))
  | _ => v
  end.

(** [.long()] on one element: the fraction is dropped; where the value is
    no number of 64 bits the conversion is left to the platform, which
    gives [undef v]. *)
Definition long (undef : fval -> Z) (v : fval) : Z :=
  match v with
  | Fin q => if bool_decide (- 2 ^ 63 <= int q < 2 ^ 63) then int q else undef v
  | _ => undef v
  end.

(** [F.embedding(index, weight)] for an index tensor of shape [s]: every
    index selects a row of the two-dimensional [weight], and must lie
    inside of it ([IndexError]). *)
Fixpoint embedding_rows (index : list Z) (N E : nat) (w : list fval)
    : res (list fval) :=
  match index with
  | [] => mret []
  | i :: index' =>
      if bool_decide (0 <= i < Z.of_nat N) then
        rows ← embedding_rows index' N E w;
        mret (chunk E (Z.to_nat i) w ++ rows)
      else fail (Raised IndexError)
  end.

Definition embedding (s : list nat) (index : list Z) (weight : tensor)
    : res tensor :=
  match shape weight with
  | [N; E] =>
      d ← embedding_rows index N E (data weight);
      mret (Tensor (s ++ [E]) d)
  | _ => fail (Raised RuntimeError)
  end.

(** [x.permute(0, 3, 1, 2)] *)
Definition permute_0312 (x : tensor) : res tensor :=
  match shape x with
  | [B; H; W; E] =>
      mret (Tensor [B; E; H; W]
              (b ← seq 0 B; k ← seq 0 E; p ← seq 0 (H * W);
               option_list (data x !! ((b * (H * W) + p) * E + k)%nat)))
  | _ => fail (Raised RuntimeError)
  end.

(** The effect of a call on its argument, which [clamp_] changes in place,
    and what the call returns. *)
Record colorized := Colorized { argument : tensor; returned : res tensor }.

(** [colorize(tensor, cmap)].  A tensor of four axes is unpacked, checked
    and squeezed to a view of three; [undef] is the conversion to integers
    of the platform where it is not defined (see [long]). *)
Definition colorize (cm : namespace) (undef : fval -> Z) (tensor : tensor)
    (cmap : string) : colorized :=
  let before : res (list nat * Np.tensor) :=
    s ← match shape tensor with
        | [B; C; H; W] => check (bool_decide (C = 1%nat));; mret [B; H; W]
        | s => mret s
        end;
    check (bool_decide (length s = 3%nat));;
    f ← eval_cm cm cmap;
    mret (s, colors f) in
  match before with
  | inl e => Colorized tensor (inl e)
  | inr (s, color_map) =>
      let clamped := clamp01 <$> data tensor in
      let scaled := (fun v => fmul v (Fin 255)) <$> clamped in
      let index := (fun v => long undef (fround v)) <$> scaled in
      Colorized (Tensor (shape tensor) clamped)
        (e ← embedding s index color_map; permute_0312 e)
  end.

(** *** flatten *)

(** [tensor_BCHW.flatten(2).permute(0, 2, 1).contiguous()]: the axes from
    the third on are merged, which needs a third axis ([IndexError]), and
    the two last axes of the result are exchanged. *)
Definition flatten (tensor_BCHW : tensor) : res tensor :=
  match shape tensor_BCHW with
  | B :: C :: X :: rest =>
      let L := numel (X :: rest) in
      mret (Tensor [B; L; C]
              (b ← seq 0 B; p ← seq 0 L; c ← seq 0 C;
               option_list (data tensor_BCHW !! ((b * C + c) * L + p)%nat)))
  | _ => fail (Raised IndexError)
  end.

(** *** xyz_to_normal *)

(** [estimate_surface_normal(xyz, mode=mode)]: a function of
    [util.geometry], called on the points and the mode. *)
Definition estimator := tensor -> string -> res tensor.

(** [xyz_to_normal], with what the name [estimate_surface_normal] is bound
    to when it is called: the import of the name is commented out in the
    module, which leaves it unbound. *)
Definition xyz_to_normal (estimate_surface_normal : option estimator)
    (xyz : tensor) (mode : string) : res tensor :=
  f ← from_option mret (fail NameError) estimate_surface_normal;
  n ← f xyz mode;
  let normals := pointwise fneg n in
  let normals := pointwise (fun v => if negb (feqb v v) then Fin 0 else v) normals in
  let normals := pointwise clamp01 (tanh_to_sigmoid normals) in
  mret normals.

Definition module_estimator : option estimator := None.

(** *** postprocess *)

(** A computation that prints: the lines printed and the outcome. *)
Record run (A : Type) := Ran { printed : list line; result : res A }.
Arguments Ran {A} _ _.
Arguments printed {A} _.
Arguments result {A} _.

#[global] Instance run_ret : MRet run := fun A a => Ran [] (inr a).
#[global] Instance run_bind : MBind run := fun A B k c =>
  match result c with
  | inl e => Ran (printed c) (inl e)
  | inr a => Ran (printed c ++ printed (k a)) (result (k a))
  end.

(** A computation of the data handling among those of the helpers. *)
Definition lift {A} (c : py A) : run A :=
  Ran (stdout c) (match outcome c with
                  | inl e => inl (Raised e)
                  | inr a => inr a
                  end).

(** A computation that prints nothing. *)
Definition quiet {A} (r : res A) : run A := Ran [] r.

(** [sub in s] for two strings *)
Fixpoint contains (sub s : string) : bool :=
  String.prefix sub s ||
  match s with
  | EmptyString => false
  | String _ s' => contains sub s'
  end.

(** A value of the dictionary [synth]: a Torch tensor or a NumPy array
    ([torch] tells which) of floating point numbers, or an array of
    integers that can be used as indices. *)
Inductive value :=
| Floats (torch : bool) (t : tensor)
| Ints (l : labels).

(** [tanh_to_sigmoid(value).clamp_(0, 1)]: the arithmetic gives floating
    point numbers on every value, and only a Torch tensor has the method
    [clamp_]. *)
Definition unit_range (v : value) : res value :=
  match v with
  | Floats true t => mret (Floats true (pointwise clamp01 (tanh_to_sigmoid t)))
  | Ints (TorchLabels a) =>
      let t := Tensor (ishape a) ((fun z => Fin (inject_Z z)) <$> idata a) in
      mret (Floats true (pointwise clamp01 (tanh_to_sigmoid t)))
  | Floats false _ | Ints (NpLabels _) => fail AttributeError
  end.

(** The integers of a cell or a row. *)
Definition cell_values (c : cell) : list Z :=
  match c with
  | Sc v => [v]
  | Row r => r
  end.

(** What [lut[label]] read, as the array it is: a table of rows adds an
    axis of their length. *)
Definition to_array (lut : ndarray) (r : mapped) : iarray :=
  IArray (match lut with
          | Arr1 _ => mshape r
          | Arr2 nel _ => mshape r ++ [nel]
          end)
         (mcells r ≫= cell_values).

Definition relabel (l : labels) (a : iarray) : labels :=
  if is_tensor l then TorchLabels a else NpLabels a.

(** [_map(label, mapdict)] on a value: the table is built by the two
    loops, and then indexed, which floating point numbers cannot do
    ([IndexError]).  [indexes] tells if the integers of [label] are of a
    type that can. *)
Definition _map_value (indexes : bool) (label : value) (m : mapdict) : run labels :=
  lut ← lift (_map_lut m);
  match label with
  | Floats _ _ => quiet (fail (Raised IndexError))
  | Ints l =>
      if indexes then
        r ← lift (take_ lut (label_array l));
        mret (relabel l (to_array lut r))
      else quiet (fail (Raised IndexError))
  end.

(** [a[..., ::-1]]: the last axis in reverse.  Torch has no negative step
    ([ValueError]); an array without axis cannot be indexed
    ([IndexError]). *)
Definition reverse_last (l : labels) : res labels :=
  match l with
  | TorchLabels _ => fail (Raised ValueError)
  | NpLabels a =>
      match last (ishape a) with
      | None => fail (Raised IndexError)
      | Some w =>
          mret (NpLabels (IArray (ishape a)
                  (c ← seq 0 (length (idata a) / w); reverse (chunk w c (idata a)))))
      end
  end.

(** The object [data_maps]: its two mappings. *)
Record data_maps := DataMaps { inv_learning_map : mapdict; color_map : mapdict }.

(** The body of the loop of [postprocess] for one entry of [synth].
    [inv_to_xyz] is the method of [lidar], called with [tol];
    [int32_index] tells if this version of Torch takes a tensor of 32-bit
    integers, which the table read by [_map] is, as indices. *)
Definition postprocess_entry (inv_to_xyz : value -> res value) (int32_index : bool)
    (data_maps : option data_maps) (out : gmap string value)
    (entry : string * value) : run (gmap string value) :=
  let '(key, value) := entry in
  if contains "inv" key then
    v ← quiet (unit_range value);
    let out := <[key := v]> out in
    p ← quiet (inv_to_xyz value);
    mret (<["points_" +:+ key := p]> out)
  else if contains "reflectance" key then
    v ← quiet (unit_range value);
    mret (<[key := v]> out)
  else if contains "label" key then
    match data_maps with
    | None => quiet (fail AttributeError)
    | Some maps =>
        inner ← _map_value true value (inv_learning_map maps);
        outer ← _map_value (if is_tensor inner then int32_index else true)
                  (Ints inner) (color_map maps);
        r ← quiet (reverse_last outer);
        mret (<[key := Ints r]> out)
    end
  else mret (<[key := value]> out).

(** [postprocess(synth, lidar, tol, normal_mode, data_maps)]: the entries
    of [synth] in their order; the dictionary returned is looked up by
    key. *)
Fixpoint postprocess_loop (inv_to_xyz : value -> res value) (int32_index : bool)
    (data_maps : option data_maps) (synth : list (string * value))
    (out : gmap string value) : run (gmap string value) :=
  match synth with
  | [] => mret out
  | entry :: synth' =>
      out' ← postprocess_entry inv_to_xyz int32_index data_maps out entry;
      postprocess_loop inv_to_xyz int32_index data_maps synth' out'
  end.

Definition postprocess (inv_to_xyz : value -> res value) (int32_index : bool)
    (synth : list (string * value)) (data_maps : option data_maps)
    : run (gmap string value) :=
  postprocess_loop inv_to_xyz int32_index data_maps synth ∅.

(** *** cycle *)

(** [next] on the generator [cycle(iterable)] for a sequence.  Between two
    calls the generator rests in its [for] loop, with [rest] still to
    come; when the loop has run out, [while True] starts it again on the
    whole sequence.  [fuel] bounds the number of times the loop is
    started in one call; [None] is a call that has not returned within
    it. *)
Fixpoint next_ {A} (fuel : nat) (iterable rest : list A) : option (A * list A) :=
  match rest with
  | i :: rest' => Some (i, rest')
  | [] =>
      match fuel with
      | O => None
      | S fuel' => next_ fuel' iterable iterable
      end
  end.

(** The values of the first [k] calls of [next], every call with [fuel]. *)
Fixpoint cycle_take {A} (fuel : nat) (iterable rest : list A) (k : nat)
    : option (list A) :=
  match k with
  | O => Some []
  | S k' =>
      '(i, rest') ← next_ fuel iterable rest;
      l ← cycle_take fuel iterable rest' k';
      Some (i :: l)
  end.

End Helpers.


(** ** Vocabulary of the properties of the helper functions *)

Module HelperProps.
Import Py Np Util Helpers.

(** The distance of two elements under the two names that [masked_loss]
    knows. *)
Definition distance_fn (distance : string) : fval -> fval -> fval :=
  if String.eqb distance "l1" then fun x y => fabs (fsub x y)
  else fun x y => let d := fsub x y in fmul d d.

(** A list repeated [k] times. *)
Definition tiled {A} (k : nat) (l : list A) : list A := _ ← seq 0 k; l.

(** The loss of one image: the distances of its elements, weighted by the
    mask laid over them and summed, divided by the sum of the mask. *)
Definition image_loss (dist : fval -> fval -> fval)
    (ref gen over mask : list fval) : fval :=
  fdiv (fsum (zip_with fmul (zip_with dist ref gen) over)) (fsum mask).

(** The element of image [b], channel [c] and pixel [p] among the elements
    of a batch of images of [C] channels of [HW] pixels. *)
Definition elem (d : list fval) (C HW b c p : nat) : option fval :=
  d !! ((b * C + c) * HW + p)%nat.

(** The distance of two numbers under the two names. *)
Definition distance_of (distance : string) (x y : Q) : Q :=
  if String.eqb distance "l1" then
    if Qle_bool 0 (x - y) then x - y else - (x - y)
  else (x - y) * (x - y).

(** The keys that [postprocess] writes: the keys of [synth], and for
    every key with [inv] in it the key with [points_] in front. *)
Definition written (synth : list (string * value)) (key : string) : Prop :=
  key ∈ synth.*1 \/
  exists k', k' ∈ synth.*1 /\ contains "inv" k' = true /\ key = "points_" +:+ k'.

(** The rows of a table have the length the table was made for. *)
Definition rows_ok (lut : ndarray) : Prop :=
  match lut with
  | Arr1 _ => True
  | Arr2 nel rows => Forall (fun r => length r = nel) rows
  end.

(** An element is the number 0, is the number 1, is a number. *)
Definition is_zero (v : fval) : Prop := exists q, v = Fin q /\ (q == 0)%Q.
Definition is_one (v : fval) : Prop := exists q, v = Fin q /\ (q == 1)%Q.
Definition is_number (v : fval) : Prop := exists q, v = Fin q.

End HelperProps.

(** ** Examples of colormaps and tensors *)

Module HelperExamples.
Import Py Np Util Helpers.

(** A colormap from black to white, and an object with this one
    colormap as attribute [gray]. *)
Definition gray : colormap := fun x => RGBA (Fin x) (Fin x) (Fin x) (Fin 1).

Definition cm_gray : gmap string colormap := {[ "gray"%string := gray ]}.

(** A batch of one image of one row and two pixels. *)
Definition image_1x2 : tensor :=
  Tensor [1; 1; 1; 2]%nat [Fin (1 # 3); Fin 7].

(** Two batches of one image of two channels of one pixel, and masks of
    one channel that select and that leave out the pixel. *)
Definition ref_2x1 : tensor := Tensor [1; 2; 1; 1]%nat [Fin 1; Fin 2].
Definition gen_2x1 : tensor := Tensor [1; 2; 1; 1]%nat [Fin 0; Fin 0].
Definition mask_on : tensor := Tensor [1; 1; 1; 1]%nat [Fin 1].
Definition mask_off : tensor := Tensor [1; 1; 1; 1]%nat [Fin 0].

(** Two batches of one image of one channel of two pixels, which agree at
    the first pixel, and a mask that selects the first pixel. *)
Definition ref_1x2 : tensor := Tensor [1; 1; 1; 2]%nat [Fin (1 # 2); Fin (-1)].
Definition gen_1x2 : tensor := Tensor [1; 1; 1; 2]%nat [Fin (1 # 2); Fin 1].
Definition mask_first : tensor := Tensor [1; 1; 1; 2]%nat [Fin 1; Fin 0].

(** A method [inv_to_xyz] that gives back its argument, two label mappings
    and a dictionary [synth] of three entries. *)
Definition xyz_id : value -> res value := fun v => inr v.

Definition maps_rgb : data_maps :=
  DataMaps [(0, Scalar 10); (1, Scalar 20)]
           [(10, Vector [1; 2; 3]); (20, Vector [4; 5; 6])].

Definition synth_3 : list (string * value) :=
  [("inv"%string, Floats true (Tensor [2%nat] [Fin (-3); Fin (1 # 2)]));
   ("label"%string, Ints (NpLabels (IArray [2%nat] [1; 0])));
   ("mask"%string, Floats true (Tensor [1%nat] [Fin 1]))].

End HelperExamples.


Import Py Np Util DataHandler Props Examples.

(** * Properties *)

(** The steps of a computation of loaders, unfolded. *)
Ltac py_red :=
  cbv beta iota zeta delta
    [mbind py_bind bind ret raise assert outcome stdout DataLoader_len
     dl_drop_last dl_dataset dl_batch_size andb negb app].

(** A list of channels of one shape. *)
Ltac shape_list :=
  repeat (apply Forall_cons_2; [assumption | ]); apply Forall_nil_2.

(** ** The range conversions *)

Lemma tanh_after_sigmoid_elem (v : fval) :
  fsame (fdiv (fadd (fsub (fmul v (Fin 2)) (Fin 1)) (Fin 1)) (Fin 2)) v.
Proof.
  destruct v as [q | s | ]; simpl.
  - field.
  - destruct s; reflexivity.
  - exact I.
Qed.

Lemma sigmoid_after_tanh_elem (v : fval) :
  fsame (fsub (fmul (fdiv (fadd v (Fin 1)) (Fin 2)) (Fin 2)) (Fin 1)) v.
Proof.
  destruct v as [q | s | ]; simpl.
  - field.
  - destruct s; reflexivity.
  - exact I.
Qed.

(** C9: the two range conversions are inverse to each other on every
    tensor: [tanh_to_sigmoid (sigmoid_to_tanh x)] and
    [sigmoid_to_tanh (tanh_to_sigmoid x)] have the shape of [x] and, element
    by element, the value of [x] (in exact arithmetic). *)
Theorem range_conversions_inverse (x : tensor) :
  tensor_same (Util.tanh_to_sigmoid (Util.sigmoid_to_tanh x)) x /\
  tensor_same (Util.sigmoid_to_tanh (Util.tanh_to_sigmoid x)) x.
Proof.
  split.
  - unfold Util.tanh_to_sigmoid, Util.sigmoid_to_tanh, pointwise, tensor_same.
    simpl. split; [reflexivity | ].
    rewrite map_map.
    induction (data x) as [ | v l IH]; simpl; constructor;
      [apply tanh_after_sigmoid_elem | exact IH].
  - unfold Util.tanh_to_sigmoid, Util.sigmoid_to_tanh, pointwise, tensor_same.
    simpl. split; [reflexivity | ].
    rewrite map_map.
    induction (data x) as [ | v l IH]; simpl; constructor;
      [apply sigmoid_after_tanh_elem | exact IH].
Qed.

(** ** The monad of Python computations *)

Lemma bind_ret_l {A B} (a : A) (k : A -> py B) : (x ← ret a; k x) = k a.
Proof. unfold mbind, py_bind, bind, ret. simpl. by destruct (k a). Qed.

Lemma bind_ext_outcome {A B} (c : py A) (k1 k2 : A -> py B) :
  (forall a, outcome c = inr a -> k1 a = k2 a) ->
  (x ← c; k1 x) = (x ← c; k2 x).
Proof.
  intros H. unfold mbind, py_bind, bind.
  destruct (outcome c) as [e | a] eqn:E; [reflexivity | ].
  by rewrite (H a).
Qed.

Lemma try_except_other {A} (c : py A) (e : exn) (h : py A) :
  outcome c <> inl e -> try_except c e h = c.
Proof.
  intros H. unfold try_except.
  destruct (outcome c) as [e' | a]; [ | reflexivity].
  destruct (decide (e' = e)) as [-> | ]; [by destruct H | reflexivity].
Qed.

(** ** The label lookup table *)

Lemma BinaryScan_map_lut_eq (m : mapdict) : BinaryScan_map_lut m = _map_lut m.
Proof. reflexivity. Qed.

Lemma keys_max_base (m : mapdict) (b k : Z) :
  keys_max m (Z.max b k) = Z.max k (keys_max m b).
Proof. induction m as [ | [key data] m IH]; simpl; lia. Qed.

Lemma keys_max_ge_base (m : mapdict) (b : Z) : b <= keys_max m b.
Proof. induction m as [ | [key data] m IH]; simpl; lia. Qed.

Lemma keys_max_ge_key (m : mapdict) (b : Z) (kd : Z * mapval) :
  kd ∈ m -> fst kd <= keys_max m b.
Proof.
  induction m as [ | kd' m IH]; intros Hin.
  - by apply elem_of_nil in Hin.
  - apply elem_of_cons in Hin as [-> | Hin]; simpl; [lia | ].
    specialize (IH Hin). lia.
Qed.

Lemma scan_fst (m : mapdict) (mk : Z) (o : option nat) :
  fst (foldl scan_entry (mk, o) m) = keys_max m mk.
Proof.
  revert mk o. induction m as [ | [key data] m IH]; intros mk o; [reflexivity | ].
  simpl. rewrite IH. case_bool_decide.
  - replace key with (Z.max mk key) at 1 by lia. apply keys_max_base.
  - replace mk with (Z.max mk key) at 1 by lia. apply keys_max_base.
Qed.

Lemma scan_snd_last (m : mapdict) (key : Z) (data : mapval) :
  snd (scan_mapdict (m ++ [(key, data)])) = Some (entry_nel data).
Proof.
  unfold scan_mapdict. rewrite foldl_app. simpl.
  destruct (foldl scan_entry (0, None) m) as [mk o]. simpl.
  by destruct data.
Qed.

Lemma last_is_snoc {A} (l : list A) (x : A) :
  last l = Some x -> exists l', l = l' ++ [x].
Proof.
  intros H. destruct l as [ | y l _] using rev_ind; [done | ].
  rewrite last_snoc in H. injection H as ->. eauto.
Qed.

(** The table that is allocated has the rows of the last entry of the
    mapping. *)
Lemma alloc_lut_last (m : mapdict) (kd : Z * mapval) :
  last m = Some kd ->
  alloc_lut m =
    ret (if bool_decide (1 < entry_nel (snd kd))%nat
         then zeros2 (keys_max m 0 + 100) (entry_nel (snd kd))
         else zeros1 (keys_max m 0 + 100)).
Proof.
  intros Hlast. destruct (last_is_snoc m kd Hlast) as [m' ->].
  destruct kd as [key data].
  pose proof (scan_snd_last m' key data) as Hsnd.
  pose proof (scan_fst (m' ++ [(key, data)]) 0 None) as Hfst.
  fold (scan_mapdict (m' ++ [(key, data)])) in Hfst.
  unfold alloc_lut.
  destruct (scan_mapdict (m' ++ [(key, data)])) as [mk o].
  simpl in *. subst. by case_bool_decide.
Qed.

Lemma last_nonempty {A} (l : list A) : l <> [] -> exists x, last l = Some x.
Proof.
  intros H. destruct l as [ | y l _] using rev_ind; [done | ].
  rewrite last_snoc. eauto.
Qed.

Lemma alloc_lut_nonempty (m : mapdict) :
  m <> [] ->
  exists nel,
    alloc_lut m =
      ret (if bool_decide (1 < nel)%nat
           then zeros2 (keys_max m 0 + 100) nel
           else zeros1 (keys_max m 0 + 100)).
Proof.
  intros Hne. destruct (last_nonempty m Hne) as [kd Hkd].
  exists (entry_nel (snd kd)). by apply alloc_lut_last.
Qed.

Lemma alen_zeros1 (n : Z) : alen (zeros1 n) = Z.to_nat n.
Proof. simpl. apply length_replicate. Qed.

Lemma alen_zeros2 (n : Z) (nel : nat) : alen (zeros2 n nel) = Z.to_nat n.
Proof. simpl. apply length_replicate. Qed.

Lemma alloc_lut_alen (m : mapdict) (lut : ndarray) :
  outcome (alloc_lut m) = inr lut -> alen lut = Z.to_nat (keys_max m 0 + 100).
Proof.
  intros Hout. destruct (decide (m = [])) as [-> | Hne]; [done | ].
  destruct (alloc_lut_nonempty m Hne) as (nel & Heq).
  rewrite Heq in Hout. simpl in Hout. injection Hout as <-.
  case_bool_decide; [apply alen_zeros2 | apply alen_zeros1].
Qed.

(** [lut[key] = data] either stores, and then leaves the length of the
    table as it is and prints nothing, or raises. *)
Lemma setitem_cases (lut : ndarray) (key : Z) (data : mapval) :
  (exists lut', setitem lut key data = ret lut' /\ alen lut' = alen lut /\
     entry_len lut' = entry_len lut /\ zero_cell lut' = zero_cell lut /\
     is_Some (norm_index (alen lut) key)) \/
  (setitem lut key data = raise ValueError /\
     is_Some (norm_index (alen lut) key)) \/
  (setitem lut key data = raise IndexError /\
     norm_index (alen lut) key = None).
Proof.
  unfold setitem. destruct (norm_index (alen lut) key) as [k | ] eqn:Hk.
  2:{ right. right. done. }
  destruct lut as [cells | nel rows], data as [v | l]; simpl.
  - left. eexists. split; [done | ]. simpl. rewrite length_insert. eauto.
  - right. left. eauto.
  - left. eexists. split; [done | ]. simpl. rewrite length_insert. eauto.
  - case_bool_decide.
    + left. eexists. split; [done | ]. simpl. rewrite length_insert. eauto.
    + destruct l as [ | v [ | w l]].
      * right. left. eauto.
      * left. eexists. split; [done | ]. simpl. rewrite length_insert. eauto.
      * right. left. eauto.
Qed.

Lemma setitem_alen (lut lut' : ndarray) (key : Z) (data : mapval) :
  outcome (setitem lut key data) = inr lut' -> alen lut' = alen lut.
Proof.
  intros H.
  destruct (setitem_cases lut key data)
    as [(l & Heq & Hlen & _) | [[Heq _] | [Heq _]]];
    rewrite Heq in H; simpl in H; [ | done | done].
  by injection H as <-.
Qed.

(** With every key inside the table, the loop is the loop without [try]. *)
Lemma fill_lut_in_range (m : mapdict) (lut : ndarray) :
  Forall (fun kd => is_Some (norm_index (alen lut) (fst kd))) m ->
  fill_lut lut m = fill_unguarded lut m.
Proof.
  revert lut. induction m as [ | [key data] m IH]; intros lut Hall; [reflexivity | ].
  apply Forall_cons in Hall as [Hk Hall]. simpl in Hk.
  unfold fill_unguarded. simpl. fold (fill_unguarded).
  assert (Hne : outcome (setitem lut key data) <> inl IndexError).
  { destruct (setitem_cases lut key data)
      as [(l & Heq & _) | [[Heq _] | [_ Hnone]]].
    - by rewrite Heq.
    - by rewrite Heq.
    - rewrite Hnone in Hk. by destruct Hk. }
  rewrite (try_except_other _ _ _ Hne).
  apply bind_ext_outcome. intros lut' Hout.
  unfold fill_unguarded in IH. apply IH.
  rewrite (setitem_alen _ _ _ _ Hout). exact Hall.
Qed.

Lemma fill_unguarded_silent (m : mapdict) (lut : ndarray) :
  stdout (fill_unguarded lut m) = [].
Proof.
  revert lut. induction m as [ | [key data] m IH]; intros lut; [reflexivity | ].
  unfold fill_unguarded. simpl. fold fill_unguarded.
  destruct (setitem_cases lut key data)
    as [(l & Heq & _) | [[Heq _] | [Heq _]]]; rewrite Heq.
  - rewrite bind_ret_l. apply IH.
  - reflexivity.
  - reflexivity.
Qed.

Lemma nonneg_key_in_range (m : mapdict) (lut : ndarray) :
  Forall (fun kd => 0 <= fst kd) m ->
  outcome (alloc_lut m) = inr lut ->
  Forall (fun kd => norm_index (alen lut) (fst kd) = Some (Z.to_nat (fst kd))) m.
Proof.
  intros Hpos Hout. apply alloc_lut_alen in Hout.
  apply Forall_forall. intros kd Hin.
  rewrite Forall_forall in Hpos. specialize (Hpos kd Hin).
  pose proof (keys_max_ge_key m 0 kd Hin) as Hle.
  unfold norm_index. rewrite Hout.
  rewrite bool_decide_eq_true_2; [reflexivity | lia].
Qed.

(** C10: for a mapping whose keys are all nonnegative, the table of [_map]
    and of [BinaryScan.map] is built without ever entering the [except
    IndexError] branch: every key lies inside the allocated table, the
    guarded loop is the loop that stores every entry without [try], and no
    diagnostic is printed. *)
Theorem nonneg_keys_never_skipped (m : mapdict)
    (Hkeys : Forall (fun kd => 0 <= fst kd) m) :
  (forall lut, outcome (alloc_lut m) = inr lut ->
     Forall (fun kd => norm_index (alen lut) (fst kd) = Some (Z.to_nat (fst kd))) m) /\
  _map_lut m = (lut ← alloc_lut m; fill_unguarded lut m) /\
  BinaryScan_map_lut m = (lut ← alloc_lut m; fill_unguarded lut m) /\
  stdout (_map_lut m) = [] /\
  stdout (BinaryScan_map_lut m) = [].
Proof.
  assert (Heq : _map_lut m = (lut ← alloc_lut m; fill_unguarded lut m)).
  { unfold _map_lut. apply bind_ext_outcome. intros lut Hout.
    apply fill_lut_in_range.
    eapply Forall_impl; [apply (nonneg_key_in_range m lut Hkeys Hout) | ].
    intros kd ->. eauto. }
  assert (Hsilent : stdout (_map_lut m) = []).
  { rewrite Heq. destruct (decide (m = [])) as [-> | Hne]; [reflexivity | ].
    destruct (alloc_lut_nonempty m Hne) as (nel & Halloc).
    rewrite Halloc, bind_ret_l. apply fill_unguarded_silent. }
  split; [intros lut; by apply nonneg_key_in_range | ].
  change (BinaryScan_map_lut m) with (_map_lut m).
  repeat split; assumption.
Qed.

Lemma nonneg_keys_never_skipped_witness :
  Forall (fun kd : Z * mapval => 0 <= fst kd) [(0, Scalar 5); (3, Vector [1; 2; 3])] /\
  stdout (_map_lut [(0, Scalar 5); (3, Vector [1; 2; 3])]) = [].
Proof.
  split.
  - repeat constructor; simpl; lia.
  - apply (nonneg_keys_never_skipped [(0, Scalar 5); (3, Vector [1; 2; 3])]).
    repeat constructor; simpl; lia.
Defined.

(** One turn of the guarded loop, by what the store does. *)
Lemma fill_lut_stored (lut lut' : ndarray) (key : Z) (data : mapval) (m : mapdict) :
  setitem lut key data = ret lut' ->
  fill_lut lut ((key, data) :: m) = fill_lut lut' m.
Proof.
  intros H. simpl. rewrite H.
  rewrite try_except_other by done.
  exact (bind_ret_l lut' (fun l => fill_lut l m)).
Qed.

Lemma fill_lut_value_error (lut : ndarray) (key : Z) (data : mapval) (m : mapdict) :
  setitem lut key data = raise ValueError ->
  fill_lut lut ((key, data) :: m) = raise ValueError.
Proof. intros H. simpl. by rewrite H. Qed.

Lemma fill_lut_skipped (lut : ndarray) (key : Z) (data : mapval) (m : mapdict) :
  norm_index (alen lut) key = None ->
  fill_lut lut ((key, data) :: m) = (print (WrongKey key);; fill_lut lut m).
Proof.
  intros H. simpl. unfold setitem. by rewrite H.
Qed.

Lemma fill_lut_alen (m : mapdict) (lut lut' : ndarray) :
  outcome (fill_lut lut m) = inr lut' -> alen lut' = alen lut.
Proof.
  revert lut. induction m as [ | [key data] m IH]; intros lut Hout.
  - simpl in Hout. by injection Hout as <-.
  - destruct (setitem_cases lut key data)
      as [(l & Heq & Hlen & _) | [[Heq _] | [_ Hnone]]].
    + rewrite (fill_lut_stored _ _ _ _ _ Heq) in Hout.
      rewrite (IH _ Hout). exact Hlen.
    + by rewrite (fill_lut_value_error _ _ _ _ Heq) in Hout.
    + rewrite (fill_lut_skipped _ _ _ _ Hnone) in Hout.
      unfold mbind, py_bind, bind in Hout. simpl in Hout. by apply IH.
Qed.

Lemma max_key_keys_max (m : mapdict) :
  m <> [] -> exists mk, max_key m = Some mk /\ keys_max m 0 = Z.max 0 mk.
Proof.
  intros Hne. destruct m as [ | [key data] m]; [done | ].
  exists (keys_max m key). split; [reflexivity | ].
  simpl. rewrite <- (keys_max_base m 0 key), <- (keys_max_base m key 0).
  f_equal. lia.
Qed.

Lemma filter_ext_in {A} (P Q : A -> Prop) `{!forall x, Decision (P x)}
    `{!forall x, Decision (Q x)} (l : list A) :
  Forall (fun x => P x <-> Q x) l -> filter P l = filter Q l.
Proof.
  induction 1 as [ | x l Hx Hl IH]; [reflexivity | ].
  rewrite !filter_cons, IH.
  destruct (decide (P x)), (decide (Q x)); tauto.
Qed.

(** A mapping of scalars into a one-dimensional table: the loop ends, and
    prints the keys that the table cannot hold. *)
Lemma fill_lut_scalars (m : mapdict) (cells : list Z) :
  Forall (fun kd => exists v, snd kd = Scalar v) m ->
  exists cells', length cells' = length cells /\
    fill_lut (Arr1 cells) m =
      Run (WrongKey <$> filter (fun k => norm_index (length cells) k = None) (m.*1))
          (inr (Arr1 cells')).
Proof.
  revert cells. induction m as [ | [key data] m IH]; intros cells Hall.
  - exists cells. done.
  - apply Forall_cons in Hall as [[v Hv] Hall]. simpl in Hv. subst data.
    destruct (norm_index (length cells) key) as [k | ] eqn:Hk.
    + destruct (IH (<[k := wrap32 v]> cells) Hall) as (cells' & Hlen & Heq).
      exists cells'. rewrite length_insert in Hlen, Heq. split; [done | ].
      rewrite (fill_lut_stored _ (Arr1 (<[k := wrap32 v]> cells))).
      2:{ unfold setitem. simpl. by rewrite Hk. }
      rewrite Heq. simpl. rewrite filter_cons.
      destruct (decide (norm_index (length cells) key = None)) as [E | _];
        [congruence | reflexivity].
    + destruct (IH cells Hall) as (cells' & Hlen & Heq).
      exists cells'. split; [done | ].
      rewrite fill_lut_skipped by exact Hk. rewrite Heq.
      simpl. rewrite filter_cons.
      destruct (decide (norm_index (length cells) key = None)) as [_ | E];
        [reflexivity | done].
Qed.

(** C8, as the code has it: for a mapping with at least one entry, the table
    of [_map] and of [BinaryScan.map] is allocated full of zeros with
    [max(0, max(key)) + 100] entries, [maxkey] starting from 0, and keeps
    that size; a key outside of the table is skipped, its diagnostic is
    printed and the loop goes on with the table as it was; a mapping of
    scalars always yields its table, and prints the skipped keys. *)
Theorem lut_size_and_skipped_keys (m : mapdict) (Hne : m <> []) :
  BinaryScan_map_lut m = _map_lut m /\
  (exists mk, max_key m = Some mk /\ keys_max m 0 = Z.max 0 mk) /\
  (exists nel,
     alloc_lut m = ret (if bool_decide (1 < nel)%nat
                        then zeros2 (keys_max m 0 + 100) nel
                        else zeros1 (keys_max m 0 + 100))) /\
  (forall lut, outcome (_map_lut m) = inr lut ->
     alen lut = Z.to_nat (keys_max m 0 + 100)) /\
  (forall lut key data rest, norm_index (alen lut) key = None ->
     fill_lut lut ((key, data) :: rest)
     = (print (WrongKey key);; fill_lut lut rest)) /\
  (Forall (fun kd => exists v, snd kd = Scalar v) m ->
   exists lut, outcome (_map_lut m) = inr lut /\
     stdout (_map_lut m) = WrongKey <$> skipped_keys (keys_max m 0 + 100) m).
Proof.
  split; [reflexivity | ].
  split; [by apply max_key_keys_max | ].
  split; [by apply alloc_lut_nonempty | ].
  split; [ | split].
  - intros lut Hout. unfold _map_lut in Hout.
    destruct (alloc_lut_nonempty m Hne) as (nel & Halloc).
    rewrite Halloc, bind_ret_l in Hout.
    rewrite (fill_lut_alen _ _ _ Hout).
    case_bool_decide; [apply alen_zeros2 | apply alen_zeros1].
  - intros lut key data rest Hnone. by apply fill_lut_skipped.
  - intros Hsc. destruct (last_nonempty m Hne) as [kd Hlast].
    assert (Hnel : entry_nel (snd kd) = 1%nat).
    { rewrite Forall_forall in Hsc.
      destruct (Hsc kd) as [v Hv]; [ | by rewrite Hv].
      destruct (last_is_snoc m kd Hlast) as [m' ->]. set_solver. }
    unfold _map_lut. rewrite (alloc_lut_last m kd Hlast), Hnel, bind_ret_l.
    rewrite bool_decide_eq_false_2 by lia.
    pose proof (keys_max_ge_base m 0) as Hge.
    destruct (fill_lut_scalars m (replicate (Z.to_nat (keys_max m 0 + 100)) 0) Hsc)
      as (cells' & _ & Heq).
    unfold zeros1. rewrite Heq. simpl. exists (Arr1 cells'). split; [done | ].
    f_equal. unfold skipped_keys. apply filter_ext_in.
    apply Forall_forall. intros k Hk.
    apply list_elem_of_fmap in Hk as (kd' & -> & Hin).
    pose proof (keys_max_ge_key m 0 kd' Hin) as Hle.
    rewrite length_replicate. unfold norm_index.
    repeat case_bool_decide; split; intros; try done; try lia.
Qed.

Lemma lut_size_and_skipped_keys_witness :
  [(-200, Scalar 1); (5, Scalar 2)] <> ([] : mapdict) /\
  norm_index (alen (zeros1 105)) (-200) = None /\
  Forall (fun kd : Z * mapval => exists v, snd kd = Scalar v)
    [(-200, Scalar 1); (5, Scalar 2)] /\
  fill_lut (zeros1 105) [(-200, Scalar 1); (5, Scalar 2)]
  = (print (WrongKey (-200));; fill_lut (zeros1 105) [(5, Scalar 2)]) /\
  exists lut, outcome (_map_lut [(-200, Scalar 1); (5, Scalar 2)]) = inr lut /\
    alen lut = 105%nat /\
    stdout (_map_lut [(-200, Scalar 1); (5, Scalar 2)]) = [WrongKey (-200)].
Proof.
  assert (Hne : [(-200, Scalar 1); (5, Scalar 2)] <> ([] : mapdict)) by done.
  assert (Hnone : norm_index (alen (zeros1 105)) (-200) = None) by reflexivity.
  assert (Hsc : Forall (fun kd : Z * mapval => exists v, snd kd = Scalar v)
                  [(-200, Scalar 1); (5, Scalar 2)])
    by (repeat constructor; simpl; eauto).
  destruct (lut_size_and_skipped_keys [(-200, Scalar 1); (5, Scalar 2)] Hne)
    as (_ & _ & _ & Hsize & Hskip & Hscalars).
  destruct (Hscalars Hsc) as (lut & Hout & Hstd).
  split; [exact Hne | ]. split; [exact Hnone | ]. split; [exact Hsc | ].
  split; [exact (Hskip (zeros1 105) (-200) (Scalar 1) [(5, Scalar 2)] Hnone) | ].
  exists lut. split; [exact Hout | ]. split; [exact (Hsize lut Hout) | exact Hstd].
Defined.

(** C8, as it is written, fails on a mapping whose keys are all negative:
    for the mapping {-5: 1} the largest key is -5, and the table has 100
    entries, not 95. *)
Lemma lut_size_all_negative_keys :
  max_key [(-5, Scalar 1)] = Some (-5) /\
  exists lut, _map_lut [(-5, Scalar 1)] = ret lut /\
    Z.of_nat (alen lut) = 100 /\ Z.of_nat (alen lut) <> -5 + 100.
Proof.
  split; [reflexivity | ].
  eexists. split; [reflexivity | ]. split; [reflexivity | ]. simpl. lia.
Qed.

Lemma setitem_elsewhere (lut lut' : ndarray) (key : Z) (data : mapval) (i : nat) :
  setitem lut key data = ret lut' ->
  norm_index (alen lut) key <> Some i ->
  cell_at lut' i = cell_at lut i.
Proof.
  unfold setitem. intros Hset Hne.
  destruct (norm_index (alen lut) key) as [k | ]; [ | done].
  assert (Hki : k <> i) by congruence.
  destruct lut as [cells | nel rows], data as [v | l]; simpl in *.
  - injection Hset as <-. simpl. by rewrite list_lookup_insert_ne.
  - done.
  - injection Hset as <-. simpl. by rewrite list_lookup_insert_ne.
  - case_bool_decide.
    + injection Hset as <-. simpl. by rewrite list_lookup_insert_ne.
    + destruct l as [ | v [ | w l]]; [done | | done].
      injection Hset as <-. simpl. by rewrite list_lookup_insert_ne.
Qed.

(** The loop leaves alone what no key of the mapping addresses, and keeps
    the length of the entries of the table. *)
Lemma fill_lut_untouched (m : mapdict) (lut lut' : ndarray) (i : nat) :
  outcome (fill_lut lut m) = inr lut' ->
  Forall (fun kd => norm_index (alen lut) (fst kd) <> Some i) m ->
  cell_at lut' i = cell_at lut i.
Proof.
  revert lut. induction m as [ | [key data] m IH]; intros lut Hout Hall.
  - simpl in Hout. by injection Hout as <-.
  - apply Forall_cons in Hall as [Hk Hall]. simpl in Hk.
    destruct (setitem_cases lut key data)
      as [(l & Heq & Hlen & _) | [[Heq _] | [_ Hnone]]].
    + rewrite (fill_lut_stored _ _ _ _ _ Heq) in Hout.
      rewrite (IH l Hout); [by eapply setitem_elsewhere | ].
      by rewrite Hlen.
    + by rewrite (fill_lut_value_error _ _ _ _ Heq) in Hout.
    + rewrite (fill_lut_skipped _ _ _ _ Hnone) in Hout.
      unfold mbind, py_bind, bind in Hout. simpl in Hout. by apply IH.
Qed.

Lemma fill_lut_entries (m : mapdict) (lut lut' : ndarray) :
  outcome (fill_lut lut m) = inr lut' ->
  entry_len lut' = entry_len lut /\ zero_cell lut' = zero_cell lut.
Proof.
  revert lut. induction m as [ | [key data] m IH]; intros lut Hout.
  - simpl in Hout. by injection Hout as <-.
  - destruct (setitem_cases lut key data)
      as [(l & Heq & _ & Hel & Hz & _) | [[Heq _] | [_ Hnone]]].
    + rewrite (fill_lut_stored _ _ _ _ _ Heq) in Hout.
      destruct (IH l Hout) as [-> ->]. done.
    + by rewrite (fill_lut_value_error _ _ _ _ Heq) in Hout.
    + rewrite (fill_lut_skipped _ _ _ _ Hnone) in Hout.
      unfold mbind, py_bind, bind in Hout. simpl in Hout. by apply IH.
Qed.

Lemma norm_index_nat (n i : nat) : (i < n)%nat -> norm_index n (Z.of_nat i) = Some i.
Proof.
  intros H. unfold norm_index.
  rewrite bool_decide_eq_true_2 by lia. by rewrite Nat2Z.id.
Qed.

Lemma item_cell_at (lut : ndarray) (i : nat) (c : cell) :
  cell_at lut i = Some c -> item lut (Z.of_nat i) = ret c.
Proof.
  destruct lut as [cells | nel rows]; simpl; intros H;
    apply fmap_Some in H as (x & Hx & ->);
    unfold getitem; rewrite norm_index_nat by (by eapply lookup_lt_Some);
    by rewrite Hx.
Qed.

Lemma cell_at_zeros (m : mapdict) (lut : ndarray) (i : nat) :
  outcome (alloc_lut m) = inr lut -> (i < alen lut)%nat ->
  cell_at lut i = Some (zero_cell lut).
Proof.
  intros Hout Hi. destruct (decide (m = [])) as [-> | Hne]; [done | ].
  destruct (alloc_lut_nonempty m Hne) as (nel & Heq).
  rewrite Heq in Hout. simpl in Hout. injection Hout as <-.
  case_bool_decide.
  - rewrite alen_zeros2 in Hi. simpl. by rewrite lookup_replicate_2.
  - rewrite alen_zeros1 in Hi. simpl. by rewrite lookup_replicate_2.
Qed.

(** C3, as the code has it: the table of [_map] and of [BinaryScan.map] has
    entries of the vector length of the last entry of the mapping (one cell
    for a scalar), which for {0: 5, 3: [1, 2, 3]} is also the largest; and
    in the table that was built, a lookup at an index inside the table that
    no key of the mapping addresses returns zero: the cell 0, or a row of
    zeros. *)
Theorem lut_shape_and_unmapped_lookup (m : mapdict) (kd : Z * mapval)
    (lut : ndarray) (i : nat) (sh : list nat)
    (Hlast : last m = Some kd)
    (Hout : outcome (_map_lut m) = inr lut)
    (Hi : (i < alen lut)%nat)
    (Hun : Forall (fun kd => norm_index (alen lut) (fst kd) <> Some i) m) :
  outcome (BinaryScan_map_lut m) = inr lut /\
  entry_len lut = Nat.max 1 (entry_nel (snd kd)) /\
  item lut (Z.of_nat i) = ret (zero_cell lut) /\
  outcome (_map (NpLabels (IArray sh [Z.of_nat i])) m)
    = inr (false, Mapped sh [zero_cell lut]) /\
  outcome (BinaryScan_map (IArray sh [Z.of_nat i]) m)
    = inr (Mapped sh [zero_cell lut]).
Proof.
  split; [exact Hout | ].
  assert (Hitem : item lut (Z.of_nat i) = ret (zero_cell lut)).
  { unfold _map_lut in Hout.
    rewrite (alloc_lut_last m kd Hlast), bind_ret_l in Hout.
    apply item_cell_at.
    rewrite (fill_lut_untouched m _ lut i Hout).
    - destruct (fill_lut_entries m _ lut Hout) as [_ ->].
      apply (cell_at_zeros m); [by rewrite (alloc_lut_last m kd Hlast) | ].
      by rewrite <- (fill_lut_alen _ _ _ Hout).
    - by rewrite <- (fill_lut_alen _ _ _ Hout). }
  split.
  { unfold _map_lut in Hout.
    rewrite (alloc_lut_last m kd Hlast), bind_ret_l in Hout.
    destruct (fill_lut_entries m _ lut Hout) as [-> _].
    case_bool_decide; simpl; lia. }
  split; [exact Hitem | ].
  assert (Htake : forall c : py ndarray, outcome c = inr lut ->
            outcome (l ← c; take_ l (IArray sh [Z.of_nat i]))
            = inr (Mapped sh [zero_cell lut])).
  { intros c Hc. unfold mbind, py_bind, bind. rewrite Hc. simpl.
    unfold take_. simpl. rewrite Hitem. reflexivity. }
  split.
  - unfold _map. unfold mbind, py_bind, bind at 1. rewrite Hout. simpl.
    unfold take_. simpl. rewrite Hitem. reflexivity.
  - unfold BinaryScan_map. by apply Htake.
Qed.

Lemma lut_shape_and_unmapped_lookup_witness :
  let m := [(0, Scalar 5); (3, Vector [1; 2; 3])] in
  let lut := Arr2 3 (<[3%nat := [1; 2; 3]]> (<[0%nat := [5; 5; 5]]> (replicate 103 [0; 0; 0]))) in
  last m = Some (3, Vector [1; 2; 3]) /\
  outcome (_map_lut m) = inr lut /\
  (7 < alen lut)%nat /\
  Forall (fun kd : Z * mapval => norm_index (alen lut) (fst kd) <> Some 7%nat) m /\
  entry_len lut = 3%nat /\
  outcome (_map (NpLabels (IArray [] [7])) m) = inr (false, Mapped [] [Row [0; 0; 0]]).
Proof.
  intros m lut.
  assert (Hlast : last m = Some (3, Vector [1; 2; 3])) by reflexivity.
  assert (Hout : outcome (_map_lut m) = inr lut) by reflexivity.
  assert (Hi : (7 < alen lut)%nat) by (vm_compute; lia).
  assert (Hun : Forall (fun kd : Z * mapval =>
                  norm_index (alen lut) (fst kd) <> Some 7%nat) m)
    by (repeat constructor; vm_compute; congruence).
  pose proof (lut_shape_and_unmapped_lookup m _ lut 7 [] Hlast Hout Hi Hun)
    as (_ & Hlen & _ & Hmap & _).
  repeat split; assumption.
Defined.

(** C3, as it is written, fails on {3: [1, 2, 3], 0: 5}, a mapping of a
    list and a scalar: the largest vector length is 3, the table that is
    allocated has single cells, and storing the list in it raises. *)
Lemma lut_shape_last_scalar :
  let m := [(3, Vector [1; 2; 3]); (0, Scalar 5)] in
  max_nel m = 3%nat /\
  alloc_lut m = ret (zeros1 103) /\
  entry_len (zeros1 103) = 1%nat /\
  _map_lut m = raise ValueError /\
  BinaryScan_map_lut m = raise ValueError.
Proof. repeat split. Qed.

(** ** The loader *)

(** *** The rounding of the floats *)

Lemma int_nonneg (q : Q) : (0 <= q)%Q -> int q = Qfloor q.
Proof.
  destruct q as [a b]. unfold Qle, int, Qfloor. simpl. intros H.
  apply Z.quot_div_nonneg; lia.
Qed.

Lemma inject_Z_nonneg (n : Z) : 0 <= n -> (0 <= inject_Z n)%Q.
Proof. unfold Qle. simpl. lia. Qed.

Lemma inject_Z_pos (z : Z) : 0 < z -> (0 < inject_Z z)%Q.
Proof. unfold Qlt. simpl. lia. Qed.

Lemma Qmult_ratio_nonneg (r x : Q) :
  (0 <= r <= 1)%Q -> (0 <= x)%Q -> (0 <= r * x <= x)%Q.
Proof. intros [H0 H1] Hx. split; nra. Qed.

Lemma nearest_even_floor (q : Q) :
  nearest_even q = Qfloor q \/
  (nearest_even q = Qfloor q + 1 /\ (1 # 2 <= q - inject_Z (Qfloor q))%Q).
Proof.
  unfold nearest_even.
  destruct (q - inject_Z (Qfloor q) ?= 1 # 2)%Q eqn:E.
  - apply Qeq_alt in E. destruct (Z.even (Qfloor q)); [by left | right].
    split; [reflexivity | ]. rewrite E. apply Qle_refl.
  - by left.
  - right. split; [reflexivity | ]. apply Qgt_alt in E. by apply Qlt_le_weak.
Qed.

(** An integer below a number is below the integer nearest to it, and an
    integer above it is above. *)
Lemma nearest_even_ge (q : Q) (z : Z) :
  (inject_Z z <= q)%Q -> z <= nearest_even q.
Proof.
  intros H. assert (Hf : z <= Qfloor q).
  { rewrite <- (Qfloor_Z z). by apply Qfloor_resp_le. }
  destruct (nearest_even_floor q) as [-> | [-> _]]; lia.
Qed.

Lemma nearest_even_le (q : Q) (z : Z) :
  (q <= inject_Z z)%Q -> nearest_even q <= z.
Proof.
  intros H. assert (Hf : Qfloor q <= z).
  { rewrite <- (Qfloor_Z z). by apply Qfloor_resp_le. }
  destruct (nearest_even_floor q) as [-> | [-> Hhalf]]; [exact Hf | ].
  destruct (decide (Qfloor q = z)) as [E | E]; [ | lia].
  exfalso. rewrite E in Hhalf. lra.
Qed.

Lemma Qdiv_le_cross (A B a b : Q) :
  (0 < A)%Q -> (A <= a)%Q -> (0 < b)%Q -> (b <= B)%Q -> (A / B <= a / b)%Q.
Proof.
  intros HA Ha Hb HB.
  apply Qle_shift_div_l; [exact Hb | ].
  assert (E : (A / B * b == A * b / B)%Q) by (field; lra).
  rewrite E. apply Qle_shift_div_r; [lra | nra].
Qed.

Lemma Qdiv_lt_cross (A B a b : Q) :
  (0 < a)%Q -> (a < A)%Q -> (0 < B)%Q -> (B <= b)%Q -> (a / b < A / B)%Q.
Proof.
  intros Ha HA HB Hb.
  apply Qlt_shift_div_l; [exact HB | ].
  assert (E : (a / b * B == a * B / b)%Q) by (field; lra).
  rewrite E. apply Qlt_shift_div_r; [lra | nra].
Qed.

Lemma pow2_inject (n : Z) : 0 <= n -> (inject_Z (2 ^ n) == 2 ^ n)%Q.
Proof. intros H. by rewrite Zpower_Qpower. Qed.

(** The binade is the one of the number. *)
Lemma binade_spec (x : Q) :
  (0 < x)%Q -> (2 ^ binade x <= x)%Q /\ (x < 2 ^ (binade x + 1))%Q.
Proof.
  intros Hx. unfold binade.
  destruct x as [a b]. cbn [Qnum Qden].
  assert (Ha : 0 < a) by (unfold Qlt in Hx; simpl in Hx; lia).
  set (la := Z.log2 a). set (lb := Z.log2 (Z.pos b)).
  destruct (Z.log2_spec a Ha) as [Ha1 Ha2]. fold la in Ha1, Ha2.
  destruct (Z.log2_spec (Z.pos b) ltac:(lia)) as [Hb1 Hb2]. fold lb in Hb1, Hb2.
  assert (Hla : 0 <= la) by apply Z.log2_nonneg.
  assert (Hlb : 0 <= lb) by apply Z.log2_nonneg.
  assert (Qa1 : (2 ^ la <= inject_Z a)%Q).
  { rewrite <- pow2_inject by done. by rewrite <- Zle_Qle. }
  assert (Qa2 : (inject_Z a < 2 ^ (la + 1))%Q).
  { rewrite <- pow2_inject by lia. rewrite <- Zlt_Qlt. lia. }
  assert (Qb1 : (2 ^ lb <= inject_Z (Z.pos b))%Q).
  { rewrite <- pow2_inject by done. by rewrite <- Zle_Qle. }
  assert (Qb2 : (inject_Z (Z.pos b) <= 2 ^ (lb + 1))%Q).
  { rewrite <- pow2_inject by lia. rewrite <- Zle_Qle. lia. }
  assert (Qapos : (0 < inject_Z a)%Q) by (apply inject_Z_pos; lia).
  assert (Qbpos : (0 < inject_Z (Z.pos b))%Q) by (apply inject_Z_pos; lia).
  assert (P : forall n, (0 < 2 ^ n)%Q) by (intros n; by apply Qpower_0_lt).
  assert (N2 : ~ (2 == 0)%Q) by discriminate.
  destruct (Qle_bool (2 ^ (la - lb)) (a # b)) eqn:E.
  - apply Qle_bool_iff in E. split; [exact E | ].
    rewrite (Qmake_Qdiv a b).
    replace (la - lb + 1) with ((la + 1) - lb) by lia.
    rewrite (Qpower_minus 2 (la + 1) lb N2).
    apply Qdiv_lt_cross; auto.
  - assert (Hlt : (a # b < 2 ^ (la - lb))%Q).
    { apply Qnot_le_lt. intros H. apply Qle_bool_iff in H. congruence. }
    replace (la - lb - 1 + 1) with (la - lb) by lia. split; [ | exact Hlt].
    rewrite (Qmake_Qdiv a b).
    replace (la - lb - 1) with (la - (lb + 1)) by lia.
    rewrite (Qpower_minus 2 la (lb + 1) N2).
    apply Qdiv_le_cross; auto.
Qed.

Lemma Qnum_zero (x : Q) : Qnum x = 0 -> (x == 0)%Q.
Proof. destruct x as [a b]. simpl. intros ->. reflexivity. Qed.

(** Below 2^53 the integers are floats: a number there is rounded to a
    number between the integer below it and the integer above it. *)
Lemma round64_between (x : Q) :
  (0 <= x)%Q -> (x < 2 ^ 53)%Q ->
  (inject_Z (Qfloor x) <= round64 x)%Q /\ (round64 x <= inject_Z (Qceiling x))%Q.
Proof.
  intros H0 H53. unfold round64.
  destruct (Qnum x) as [ | p | p] eqn:En.
  - apply Qnum_zero in En.
    assert (Ef : Qfloor x = 0) by (by rewrite En).
    assert (Ec : Qceiling x = 0) by (by rewrite En).
    rewrite Ef, Ec. split; apply Qle_refl.
  - assert (Hx : (0 < x)%Q).
    { destruct x as [a b]. simpl in En. subst a. reflexivity. }
    destruct (binade_spec x Hx) as [Hb _].
    assert (Hbin : binade x <= 52).
    { destruct (decide (binade x <= 52)) as [ | Hgt]; [done | exfalso].
      assert (H : (2 ^ 53 <= 2 ^ binade x)%Q)
        by (apply Qpower_le_compat_l; [lia | discriminate]).
      lra. }
    unfold round64_pos.
    set (e := Z.max (binade x - 52) (-1074)).
    assert (He : e <= 0) by lia.
    set (P := 2 ^ (- e)).
    assert (HP : 0 < P) by (apply Z.pow_pos_nonneg; lia).
    assert (Hu : (2 ^ e == / inject_Z P)%Q).
    { replace e with (- - e) at 1 by lia. rewrite Qpower_opp.
      unfold P. by rewrite pow2_inject by lia. }
    assert (QP : (0 < inject_Z P)%Q) by (by apply inject_Z_pos).
    assert (Hdiv : (x / 2 ^ e == x * inject_Z P)%Q).
    { rewrite Hu. field. lra. }
    set (m := nearest_even (x / 2 ^ e)).
    assert (Hlo : Qfloor x * P <= m).
    { apply nearest_even_ge. rewrite Hdiv, inject_Z_mult.
      pose proof (Qfloor_le x). nra. }
    assert (Hhi : m <= Qceiling x * P).
    { apply nearest_even_le. rewrite Hdiv, inject_Z_mult.
      pose proof (Qle_ceiling x). nra. }
    rewrite Zle_Qle, inject_Z_mult in Hlo, Hhi.
    rewrite Hu. split.
    + apply Qle_shift_div_l in Hlo; [ | exact QP]. exact Hlo.
    + apply Qle_shift_div_r; [exact QP | exact Hhi].
  - exfalso. destruct x as [a b]. simpl in En. subst a.
    unfold Qle in H0. simpl in H0. lia.
Qed.

Lemma no_float_small (y : Q) :
  (0 <= y)%Q -> (y < 2 ^ 1024)%Q -> no_float y = false.
Proof.
  intros H0 H1. unfold no_float.
  assert (P : (0 < 2 ^ 1024)%Q) by (by apply Qpower_0_lt).
  apply orb_false_iff. split.
  - destruct (Qle_bool (2 ^ 1024) y) eqn:E; [ | reflexivity].
    apply Qle_bool_iff in E. lra.
  - destruct (Qle_bool y (- 2 ^ 1024)) eqn:E; [ | reflexivity].
    apply Qle_bool_iff in E. lra.
Qed.

(** The fraction of the rounded number dropped: the integer below the
    number, or the one above it. *)
Lemma int_round64 (x : Q) :
  (0 <= x)%Q -> (x < 2 ^ 53)%Q ->
  Qfloor x <= int (round64 x) <= Qceiling x /\ no_float (round64 x) = false.
Proof.
  intros H0 H53. destruct (round64_between x H0 H53) as [Hlo Hhi].
  assert (Hf : 0 <= Qfloor x).
  { rewrite <- (Qfloor_Z 0). by apply Qfloor_resp_le. }
  assert (Hnn : (0 <= round64 x)%Q).
  { eapply Qle_trans; [ | exact Hlo]. by apply inject_Z_nonneg. }
  rewrite int_nonneg by exact Hnn.
  split.
  - split.
    + rewrite <- (Qfloor_Z (Qfloor x)). by apply Qfloor_resp_le.
    + rewrite <- (Qfloor_Z (Qceiling x)). by apply Qfloor_resp_le.
  - apply no_float_small; [exact Hnn | ].
    assert (Hc : Qceiling x <= 2 ^ 53).
    { unfold Qceiling.
      assert (H : - 2 ^ 53 <= Qfloor (- x)); [ | lia].
      rewrite <- (Qfloor_Z (- 2 ^ 53)). apply Qfloor_resp_le.
      rewrite inject_Z_opp, pow2_inject by lia. lra. }
    eapply Qle_lt_trans; [exact Hhi | ].
    eapply Qle_lt_trans; [rewrite <- Zle_Qle; exact Hc | ].
    rewrite pow2_inject by lia.
    apply Qpower_lt_compat_l; [lia | reflexivity].
Qed.

(** A number of samples below 2^53 is a float. *)
Lemma round64_samples (n : Z) :
  0 <= n < 2 ^ 53 ->
  (round64 (inject_Z n) == inject_Z n)%Q /\ no_float (round64 (inject_Z n)) = false.
Proof.
  intros [H0 H53].
  assert (Q0 : (0 <= inject_Z n)%Q) by (by apply inject_Z_nonneg).
  assert (Q53 : (inject_Z n < 2 ^ 53)%Q).
  { rewrite <- pow2_inject by lia. by rewrite <- Zlt_Qlt. }
  destruct (round64_between _ Q0 Q53) as [Hlo Hhi].
  rewrite Qfloor_Z in Hlo. rewrite Qceiling_Z in Hhi.
  split; [by apply Qle_antisym | ].
  by apply int_round64.
Qed.

(** The floats 0.1, 0.2 and 0.3, and the products of the floats 0.2, 0.3
    and 0.29 with 100 as the floats give them: 20, 30 and
    28.999999999999996. *)
Lemma round64_examples :
  (round64 (1 # 10) == 3602879701896397 # 36028797018963968)%Q /\
  (round64 (1 # 5) == 3602879701896397 # 18014398509481984)%Q /\
  (round64 (3 # 10) == 5404319552844595 # 18014398509481984)%Q /\
  (split_product (round64 (1 # 5)) 100 == 20)%Q /\
  (split_product (round64 (3 # 10)) 100 == 30)%Q /\
  (split_product (round64 (29 # 100)) 100
   == 8162774324609023 # 281474976710656)%Q.
Proof. repeat split; vm_compute; reflexivity. Qed.

(** *** The two splits *)

(** The product of a ratio between 0 and 1 and a number of samples below
    2^53: it is a float, and with its fraction dropped it is the integer
    below the exact product or the integer above it. *)
Lemma split_product_bounds (r : Q) (n : Z) :
  (0 <= r <= 1)%Q -> 0 <= n < 2 ^ 53 ->
  Qfloor (r * inject_Z n) <= int (split_product r n) <= Qceiling (r * inject_Z n) /\
  0 <= int (split_product r n) <= n /\
  split_overflow r n = false.
Proof.
  intros Hr Hn. unfold split_overflow, split_product.
  destruct (round64_samples n Hn) as [Ey Hy].
  set (y := round64 (inject_Z n)) in *.
  assert (Ex : (r * y == r * inject_Z n)%Q) by (by rewrite Ey).
  assert (Q0 : (0 <= inject_Z n)%Q) by (apply inject_Z_nonneg; lia).
  destruct (Qmult_ratio_nonneg r (inject_Z n) Hr Q0) as [Hx0 Hxn].
  assert (Q53 : (inject_Z n < 2 ^ 53)%Q).
  { rewrite <- pow2_inject by lia. rewrite <- Zlt_Qlt. lia. }
  destruct (int_round64 (r * y)) as [Hk Hnf]; [lra | lra | ].
  rewrite (Qfloor_comp _ _ Ex), (Qceiling_comp _ _ Ex) in Hk.
  assert (Hf : 0 <= Qfloor (r * inject_Z n)).
  { rewrite <- (Qfloor_Z 0). by apply Qfloor_resp_le. }
  assert (Hc : Qceiling (r * inject_Z n) <= n).
  { rewrite <- (Qceiling_Z n) at 2. by apply Qceiling_resp_le. }
  split; [exact Hk | ]. split; [lia | ].
  by rewrite Hy, Hnf.
Qed.

(** For a ratio between 0 and 1 the two slices are the first [k] indices
    and the indices after them, for [k] the product with its fraction
    dropped. *)
Lemma split_indices (r : Q) (n : Z) :
  (0 <= r <= 1)%Q -> 0 <= n < 2 ^ 53 ->
  val_indcs r n = seq 0 (Z.to_nat (int (split_product r n))) /\
  train_indcs r n
  = seq (Z.to_nat (int (split_product r n)))
        (Z.to_nat (n - int (split_product r n))).
Proof.
  intros Hr Hn. destruct (split_product_bounds r n Hr Hn) as (_ & Hk & _).
  unfold val_indcs, train_indcs, slice_to, slice_from, range.
  set (k := int (split_product r n)) in *.
  rewrite length_seq. unfold slice_bound.
  rewrite bool_decide_eq_false_2 by lia.
  replace (Z.to_nat (k `min` Z.of_nat (Z.to_nat n))) with (Z.to_nat k) by lia.
  rewrite take_seq, drop_seq. split; f_equal; lia.
Qed.

Lemma bind_inr {A B} (c : py A) (k : A -> py B) (b : B) :
  outcome (x ← c; k x) = inr b ->
  exists a, outcome c = inr a /\ outcome (k a) = inr b.
Proof.
  unfold mbind, py_bind, bind.
  destruct (outcome c) as [e | a]; simpl; [done | eauto].
Qed.

Lemma DataLoader_init_inr (s : data_source) (bs : Z) (sh : bool) (w : Z)
    (dl : bool) (x : DataLoader) :
  outcome (DataLoader_init s bs sh w dl) = inr x ->
  x = MkDataLoader s bs sh w dl /\ 0 < bs.
Proof.
  unfold DataLoader_init. intros H.
  apply bind_inr in H as (u1 & _ & H).
  apply bind_inr in H as (u2 & _ & H).
  apply bind_inr in H as (u3 & Hbs & H).
  simpl in H. injection H as <-. split; [reflexivity | ].
  case_bool_decide; [done | lia].
Qed.



(** C5, as the code has it: the split point is the product of the ratio
    and the number of samples as the floats give it, with its fraction
    dropped.  For every dataset of [n] samples, [n] below 2^53, and every
    ratio [r] between 0 and 1, this [k] is the integer below the exact
    product [r*n] or the integer above it, the validation indices are the
    first [k] indices and the training indices are the [n - k] that
    remain; the loaders that the constructor builds hold these two
    subsets; and with the float 0.2 and 100 samples that is 20 and 80
    samples. *)
Theorem loader_split_contiguous (d : dataset) (batch_size : Z) (r : Q)
    (workers : Z) (shuffle_train : bool) (Hr : (0 <= r <= 1)%Q)
    (Hn : 0 <= dataset_len d < 2 ^ 53) :
  let n := dataset_len d in
  let k := int (split_product r n) in
  Qfloor (r * inject_Z n) <= k <= Qceiling (r * inject_Z n) /\
  val_indcs r n = seq 0 (Z.to_nat k) /\
  train_indcs r n = seq (Z.to_nat k) (Z.to_nat (n - k)) /\
  (forall ld,
     outcome (Loader_split d batch_size r workers shuffle_train true true) = inr ld ->
     exists tl vl, trainloader ld = Some tl /\ validloader ld = Some vl /\
       dl_dataset tl = Subset d (seq (Z.to_nat k) (Z.to_nat (n - k))) /\
       dl_dataset vl = Subset d (seq 0 (Z.to_nat k))) /\
  (n = 100 ->
   length (val_indcs (round64 (1 # 5)) n) = 20%nat /\
   length (train_indcs (round64 (1 # 5)) n) = 80%nat).
Proof.
  intros n k. destruct (split_indices r n Hr Hn) as [Hval Htrain].
  destruct (split_product_bounds r n Hr Hn) as (Hk & _ & _).
  fold k in Hval, Htrain, Hk.
  split; [exact Hk | ]. split; [exact Hval | ]. split; [exact Htrain | ]. split.
  - intros ld Hout. unfold Loader_split in Hout.
    apply bind_inr in Hout as (u1 & _ & Hout).
    apply bind_inr in Hout as (u0 & _ & Hout).
    apply bind_inr in Hout as (tl & Htl & Hout).
    apply bind_inr in Hout as (u2 & _ & Hout).
    apply bind_inr in Hout as (vl & Hvl & Hout).
    apply bind_inr in Hout as (u3 & _ & Hout).
    simpl in Hout. injection Hout as <-.
    apply DataLoader_init_inr in Htl as [-> _].
    apply DataLoader_init_inr in Hvl as [-> _].
    exists (MkDataLoader (Subset d (train_indcs r (dataset_len d)))
              batch_size shuffle_train workers true),
           (MkDataLoader (Subset d (val_indcs r (dataset_len d)))
              batch_size false workers false).
    fold n. rewrite Hval, Htrain. done.
  - intros ->. split; vm_compute; reflexivity.
Qed.

Lemma loader_split_contiguous_witness :
  let d := Unary (MkUnaryScan "A" ∅ (replicate 100 "scan.npy"%string)) in
  (0 <= round64 (1 # 5) <= 1)%Q /\
  0 <= dataset_len d < 2 ^ 53 /\
  (exists ld, outcome (Loader_split d 4 (round64 (1 # 5)) 4 true true true) = inr ld) /\
  length (val_indcs (round64 (1 # 5)) (dataset_len d)) = 20%nat /\
  length (train_indcs (round64 (1 # 5)) (dataset_len d)) = 80%nat.
Proof.
  intros d.
  assert (Hr : (0 <= round64 (1 # 5) <= 1)%Q) by (split; vm_compute; discriminate).
  assert (Hn : 0 <= dataset_len d < 2 ^ 53) by (split; vm_compute; congruence).
  split; [exact Hr | ]. split; [exact Hn | ].
  split; [eexists; vm_compute; reflexivity | ].
  apply (loader_split_contiguous d 4 (round64 (1 # 5)) 4 true Hr Hn). reflexivity.
Defined.

(** C5, as it is written, fails for the ratio 0.3 and 100 samples: the
    float 0.3 lies below three tenths, the exact product lies below 30 and
    the integer below it is 29, but the product of the floats is rounded
    to 30, and the validation split holds 30 samples and the training split
    70.  Read on the decimal ratio it fails as well: for 0.29 and 100
    samples the validation split holds 28 samples, not 29, and the
    training split 72. *)
Lemma split_point_not_floor :
  let d := Unary (MkUnaryScan "A" ∅ (replicate 100 "scan.npy"%string)) in
  Qfloor (round64 (3 # 10) * inject_Z (dataset_len d)) = 29 /\
  (exists tl vl,
     outcome (Loader_split d 4 (round64 (3 # 10)) 4 true true true)
     = inr (MkLoader (Some tl) (Some vl) None) /\
     dl_dataset vl = Subset d (seq 0 30) /\
     dl_dataset tl = Subset d (seq 30 70)) /\
  Qfloor ((29 # 100) * inject_Z (dataset_len d)) = 29 /\
  val_indcs (round64 (29 # 100)) (dataset_len d) = seq 0 28 /\
  train_indcs (round64 (29 # 100)) (dataset_len d) = seq 28 72.
Proof.
  intros d. split; [vm_compute; reflexivity | ].
  split; [ | repeat split; vm_compute; reflexivity].
  eexists _, _. split; [vm_compute; reflexivity | ]. split; reflexivity.
Qed.

(** The construction of the loaders comes down to these tests, in this
    order. *)
Lemma Loader_split_tests (d : dataset) (bs : Z) (r : Q) (w : Z)
    (sh is_train is_training_data : bool) :
  let n := dataset_len d in
  let train := Subset d (train_indcs r n) in
  let val := Subset d (val_indcs r n) in
  let test := if is_training_data then val else Whole d in
  Loader_split d bs r w sh is_train is_training_data =
    if is_train then
      if negb is_training_data then raise AssertionError
      else if split_overflow r n then raise OverflowError
      else if bool_decide (w < 0) then raise ValueError
      else if sh && bool_decide (source_len train <= 0) then raise ValueError
      else if bool_decide (bs <= 0) then raise ValueError
      else if negb (bool_decide (source_len train / bs > 0)) then raise AssertionError
      else if negb (bool_decide ((source_len val + bs - 1) / bs > 0))
           then raise AssertionError
      else ret (MkLoader (Some (MkDataLoader train bs sh w true))
                  (Some (MkDataLoader val bs false w false)) None)
    else
      if is_training_data && split_overflow r n then raise OverflowError
      else if bool_decide (w < 0) then raise ValueError
      else if bool_decide (bs <= 0) then raise ValueError
      else if negb (bool_decide ((source_len test + bs - 1) / bs > 0))
      then raise AssertionError
      else ret (MkLoader None None (Some (MkDataLoader test bs false w false))).
Proof.
  intros n train val test. unfold Loader_split, split_point, DataLoader_init.
  fold n. fold train. fold val.
  destruct is_train.
  - clearbody train val. destruct is_training_data; [ | reflexivity].
    cbn [negb assert].
    destruct (split_overflow r n); [reflexivity | ].
    destruct (bool_decide (w < 0)); [reflexivity | ].
    destruct (sh && bool_decide (source_len train <= 0)); [reflexivity | ].
    destruct (bool_decide (bs <= 0)); [reflexivity | ].
    py_red.
    destruct (bool_decide (source_len train / bs > 0)); [ | reflexivity].
    py_red.
    destruct (bool_decide ((source_len val + bs - 1) / bs > 0)); reflexivity.
  - unfold test. clear test. clearbody val.
    destruct is_training_data; cbn [andb].
    + destruct (split_overflow r n); [reflexivity | ].
      destruct (bool_decide (w < 0)); [reflexivity | ].
      destruct (bool_decide (bs <= 0)); [reflexivity | ].
      py_red.
      destruct (bool_decide ((source_len val + bs - 1) / bs > 0)); reflexivity.
    + destruct (bool_decide (w < 0)); [reflexivity | ].
      destruct (bool_decide (bs <= 0)); [reflexivity | ].
      py_red.
      destruct (bool_decide ((source_len (Whole d) + bs - 1) / bs > 0));
        reflexivity.
Qed.





(** ** The paired dataset *)

(** What the code does: the two sizes are the numbers of entries of the two
    sensor descriptions. *)
Lemma BinaryScan_init_sizes (fs : filesystem) (dirA dirB : string)
    (statsA statsB : gmap string yamlval) (mx : Z) (self : BinaryScan) :
  outcome (BinaryScan_init fs dirA statsA dirB statsB mx) = inr self ->
  sizeA self = Z.of_nat (size statsA) /\ sizeB self = Z.of_nat (size statsB).
Proof.
  unfold BinaryScan_init. intros H.
  apply bind_inr in H as (a & _ & H).
  apply bind_inr in H as (b & _ & H).
  simpl in H. by injection H as <-.
Qed.


(** C1, on the code: for three scans in A and two in B, each with a sensor
    description of one entry, the paired dataset holds datasets of three
    and of two scans, reports the length 1, and reads index 0 of dataset A
    for the index 2. *)
Theorem binary_scan_sizes_from_stats :
  exists self,
    outcome (BinaryScan_init fs_three_two "A" stats_no_rgb "B" stats_no_rgb (-1))
      = inr self /\
    UnaryScan_len (datasetA self) = 3 /\
    UnaryScan_len (datasetB self) = 2 /\
    BinaryScan_len self = 1 /\
    forall rnd, outcome (BinaryScan_indices self 2 rnd) = inr (0, 0).
Proof.
  eexists. split; [vm_compute; reflexivity | ].
  split; [reflexivity | ]. split; [reflexivity | ]. split; [reflexivity | ].
  intros rnd. unfold BinaryScan_indices, randint, pymod. simpl.
  by rewrite !Z.mod_1_r.
Qed.

(** ** Indexed access of the single-domain dataset *)

Lemma mapM_inverse {A B} (f : A -> option B) (g : B -> A) (l : list A)
    (k : list B) :
  (forall x y, f x = Some y -> x = g y) -> mapM f l = Some k -> l = map g k.
Proof.
  intros Hfg H. apply mapM_Some in H.
  induction H as [ | x y l k Hxy _ IH]; [reflexivity | ].
  simpl. by rewrite (Hfg x y Hxy), <- IH.
Qed.

(** A stored array of finite values is loaded as it is. *)
Lemma np_load_arrays (fs : filesystem) (path : string)
    (a : list (list (list Q))) :
  arrays fs !! path = Some a -> np_load fs path = ret (map (map (map Fin)) a).
Proof.
  unfold arrays, np_load. rewrite lookup_omap.
  destruct (files fs !! path) as [t | ]; [ | done].
  simpl. intros H. f_equal. unfold numbers in H.
  apply (mapM_inverse _ (map (map Fin))) in H; [exact H | ].
  intros g c Hg. apply (mapM_inverse _ (map Fin)) in Hg; [exact Hg | ].
  intros row qs Hrow. apply (mapM_inverse _ Fin) in Hrow; [exact Hrow | ].
  intros v q Hv. destruct v; [by injection Hv as -> | done | done].
Qed.

Lemma mask_apply_twice (f1 f2 : fval -> fval) (g : list (list fval))
    (m : list (list bool)) :
  mask_apply f2 (mask_apply f1 g m) m = mask_apply (fun v => f2 (f1 v)) g m.
Proof.
  unfold mask_apply. revert m.
  induction g as [ | row g IH]; intros [ | mrow m]; simpl; try reflexivity.
  rewrite IH. f_equal. clear IH. revert mrow.
  induction row as [ | x row IH]; intros [ | b mrow]; simpl; try reflexivity.
  rewrite IH. by destruct b.
Qed.

(** One turn of the normalisation loop on a channel that has a valid pixel:
    nothing is raised, whatever the minimum and the maximum are. *)
Lemma normalize_channel_ret (bm : list (list bool)) (proj : list (list (list fval)))
    (i : nat) (g : list (list fval)) :
  proj !! i = Some g ->
  mask_get g bm <> [] ->
  exists Min Max,
    amin (mask_get g bm) = ret Min /\
    amax (mask_get g bm) = ret Max /\
    normalize_channel bm proj i
    = ret (<[i := mask_apply (normalized Min Max) g bm]> proj).
Proof.
  intros Hg Hsel. unfold normalize_channel.
  assert (Hget : getitem proj (Z.of_nat i) = ret g).
  { unfold getitem. rewrite norm_index_nat by (by eapply lookup_lt_Some).
    by rewrite Hg. }
  rewrite Hget, bind_ret_l.
  destruct (mask_get g bm) as [ | x sel] eqn:Esel; [done | ].
  exists (foldl fmin2 x sel), (foldl fmax2 x sel).
  split; [reflexivity | ]. split; [reflexivity | ].
  simpl amin. simpl amax. rewrite !bind_ret_l.
  by rewrite mask_apply_twice.
Qed.

(** C7: there is a loadable scan, of shape (6, 1, 2) with two valid pixels,
    whose first channel is 3 at both of them: the minimum and the maximum
    over the valid pixels are both 3, the divisor [Max - Min] of the
    normalisation is zero, the quotient is not a number, and the indexed
    access raises nothing and returns these values at the valid pixels.
    So it is for every value of a constant channel: its normalised value is
    not a number. *)
Theorem constant_channel_divides_by_zero :
  let loaded := map (map (map Fin)) scan_constant in
  let bm := valid_mask [[Fin 1; Fin 1]] in
  (forall q, normalized (Fin q) (Fin q) (Fin q) = NaN) /\
  np_load fs_scans "A/1.npy" = ret loaded /\
  amin (mask_get [[Fin 3; Fin 3]] bm) = ret (Fin 3) /\
  amax (mask_get [[Fin 3; Fin 3]] bm) = ret (Fin 3) /\
  fsame (fsub (Fin 3) (Fin 3)) (Fin 0) /\
  fdiv (fsub (Fin 3) (Fin 3)) (fsub (Fin 3) (Fin 3)) = NaN /\
  normalize_channel bm loaded 0 = ret (<[0%nat := [[NaN; NaN]]]> loaded) /\
  exists s,
    UnaryScan_getitem fs_scans unary_scans 1 = ret s /\
    proj_xyz s !! 0%nat = Some (upsampled [[NaN; NaN]]).
Proof.
  intros loaded bm.
  split.
  { intros q. unfold normalized. cbn [fsub fneg fadd fdiv]. unfold Qzero.
    assert (E : Qeq_bool (q + - q) 0 = true) by (apply Qeq_bool_iff; ring).
    by rewrite E. }
  split; [reflexivity | ]. split; [reflexivity | ]. split; [reflexivity | ].
  split; [reflexivity | ]. split; [reflexivity | ]. split; [reflexivity | ].
  eexists. split; [vm_compute; reflexivity | reflexivity].
Qed.

Lemma getitem_nat {A} (l : list A) (i : nat) (x : A) :
  l !! i = Some x -> getitem l (Z.of_nat i) = ret x.
Proof.
  intros H. unfold getitem. rewrite norm_index_nat by (by eapply lookup_lt_Some).
  by rewrite H.
Qed.

Lemma take3_rescaled {A B} (h : A -> A) (f : A -> B) (l : list A) :
  take 3 (map f (map h (take 3 l) ++ drop 3 l)) = map f (map h (take 3 l)).
Proof. by destruct l as [ | a [ | b [ | c l]]]. Qed.

Lemma normalize_loop (bm : list (list bool))
    (g0 g1 g2 g3 g4 : list (list fval)) (rest : list (list (list fval))) :
  mask_get g0 bm <> [] -> mask_get g1 bm <> [] -> mask_get g2 bm <> [] ->
  mask_get g3 bm <> [] -> mask_get g4 bm <> [] ->
  exists N0 N1 N2 N3 N4,
    norm_of bm g0 N0 /\ norm_of bm g1 N1 /\ norm_of bm g2 N2 /\
    norm_of bm g3 N3 /\ norm_of bm g4 N4 /\
    for_ (range 5) (normalize_channel bm) (g0 :: g1 :: g2 :: g3 :: g4 :: rest)
    = ret (N0 :: N1 :: N2 :: N3 :: N4 :: rest).
Proof.
  intros H0 H1 H2 H3 H4. cbn [range seq for_].
  destruct (normalize_channel_ret bm (g0 :: g1 :: g2 :: g3 :: g4 :: rest)
              0 g0 eq_refl H0) as (m0 & x0 & Hm0 & Hx0 & Hn0).
  set (N0 := mask_apply (normalized m0 x0) g0 bm) in *.
  destruct (normalize_channel_ret bm (N0 :: g1 :: g2 :: g3 :: g4 :: rest)
              1 g1 eq_refl H1) as (m1 & x1 & Hm1 & Hx1 & Hn1).
  set (N1 := mask_apply (normalized m1 x1) g1 bm) in *.
  destruct (normalize_channel_ret bm (N0 :: N1 :: g2 :: g3 :: g4 :: rest)
              2 g2 eq_refl H2) as (m2 & x2 & Hm2 & Hx2 & Hn2).
  set (N2 := mask_apply (normalized m2 x2) g2 bm) in *.
  destruct (normalize_channel_ret bm (N0 :: N1 :: N2 :: g3 :: g4 :: rest)
              3 g3 eq_refl H3) as (m3 & x3 & Hm3 & Hx3 & Hn3).
  set (N3 := mask_apply (normalized m3 x3) g3 bm) in *.
  destruct (normalize_channel_ret bm (N0 :: N1 :: N2 :: N3 :: g4 :: rest)
              4 g4 eq_refl H4) as (m4 & x4 & Hm4 & Hx4 & Hn4).
  set (N4 := mask_apply (normalized m4 x4) g4 bm) in *.
  exists N0, N1, N2, N3, N4.
  repeat (split; [unfold norm_of; eauto | ]).
  rewrite Hn0, bind_ret_l. cbn [insert list_insert].
  rewrite Hn1, bind_ret_l. cbn [insert list_insert].
  rewrite Hn2, bind_ret_l. cbn [insert list_insert].
  rewrite Hn3, bind_ret_l. cbn [insert list_insert].
  rewrite Hn4, bind_ret_l. reflexivity.
Qed.

Lemma getitem_explicit (fs : filesystem) (self : UnaryScan) (index : Z)
    (path : string) (hv : yamlval)
    (g0 g1 g2 g3 g4 g5 : list (list fval)) (grest : list (list (list fval))) :
  getitem (scan_file_names self) index = ret path ->
  np_load fs path = ret (g0 :: g1 :: g2 :: g3 :: g4 :: g5 :: grest) ->
  data_stats self !! "have_rgb"%string = Some hv ->
  let bm := valid_mask g5 in
  let M := upsampled g5 in
  mask_get g0 bm <> [] -> mask_get g1 bm <> [] -> mask_get g2 bm <> [] ->
  mask_get g3 bm <> [] -> mask_get g4 bm <> [] ->
  exists N0 N1 N2 N3 N4,
    norm_of bm g0 N0 /\ norm_of bm g1 N1 /\ norm_of bm g2 N2 /\
    norm_of bm g3 N3 /\ norm_of bm g4 N4 /\
    UnaryScan_getitem fs self index
    = ret (Sample
             [masked (upsampled N0) M; masked (upsampled N1) M;
              masked (upsampled N2) M]
             [masked (upsampled N3) M] [masked (upsampled N4) M] [M]
             (if truthy hv
              then Some (map (fun g => masked (upsampled (rescaled g)) M)
                           (take 3 grest))
              else None)).
Proof.
  intros Hidx Hload Hrgb bm M H0 H1 H2 H3 H4.
  destruct (normalize_loop bm g0 g1 g2 g3 g4 (g5 :: grest) H0 H1 H2 H3 H4)
    as (N0 & N1 & N2 & N3 & N4 & Hn0 & Hn1 & Hn2 & Hn3 & Hn4 & Hloop).
  exists N0, N1, N2, N3, N4. repeat (split; [assumption | ]).
  unfold UnaryScan_getitem.
  rewrite Hidx, bind_ret_l, Hload, bind_ret_l.
  change 5 with (Z.of_nat 5).
  rewrite (getitem_nat _ 5 g5) by reflexivity. rewrite bind_ret_l.
  fold (valid_mask g5). fold bm.
  rewrite Hloop, bind_ret_l.
  unfold lookup_key. rewrite Hrgb, bind_ret_l.
  destruct (truthy hv).
  - cbn [slice_apply slice take drop repeat_axis1 map app mul_mask].
    rewrite !take_0, !drop_0. cbn [app].
    rewrite !bind_ret_l. rewrite take3_rescaled.
    unfold ret. do 3 f_equal. by rewrite !map_map.
  - cbn [slice_apply slice take drop repeat_axis1 map app mul_mask].
    rewrite !take_0, ?drop_0.
    rewrite !bind_ret_l. reflexivity.
Qed.

(** *** Rows and pixels *)

Lemma lookup_upsampled {A} (g : list (list A)) (r : nat) :
  upsampled g !! r = g !! (r / 4)%nat.
Proof.
  unfold upsampled. revert r. induction g as [ | row g IH]; intros r.
  - by rewrite !lookup_nil.
  - cbn [flat_map]. destruct (decide (r < 4)%nat) as [Hlt | Hge].
    + rewrite lookup_app_l by (rewrite length_replicate; lia).
      rewrite Nat.div_small by lia. by rewrite lookup_replicate_2.
    + rewrite lookup_app_r by (rewrite length_replicate; lia).
      rewrite length_replicate, IH.
      replace (r / 4)%nat with (S ((r - 4) / 4)).
      * reflexivity.
      * replace r with ((r - 4) + 1 * 4)%nat at 2 by lia.
        rewrite Nat.div_add by lia. lia.
Qed.

Lemma at2_upsampled {A} (g : list (list A)) (r c : nat) :
  at2 (upsampled g) r c = at2 g (r / 4)%nat c.
Proof. unfold at2. by rewrite lookup_upsampled. Qed.

Lemma at2_map {A B} (f : A -> B) (g : list (list A)) (r c : nat) :
  at2 (map (map f) g) r c = f <$> at2 g r c.
Proof.
  unfold at2. rewrite list_lookup_fmap.
  destruct (g !! r) as [row | ]; simpl; [ | done].
  by rewrite list_lookup_fmap.
Qed.

Lemma at2_zip_with {A B C} (f : A -> B -> C) (g : list (list A))
    (m : list (list B)) (r c : nat) (v : C) :
  at2 (zip_with (zip_with f) g m) r c = Some v ->
  exists x y, at2 g r c = Some x /\ at2 m r c = Some y /\ v = f x y.
Proof.
  unfold at2. rewrite lookup_zip_with.
  destruct (g !! r) as [rg | ]; simpl; [ | done].
  destruct (m !! r) as [rm | ]; simpl; [ | done].
  rewrite lookup_zip_with.
  destruct (rg !! c) as [x | ]; simpl; [ | done].
  destruct (rm !! c) as [y | ]; simpl; [ | done].
  intros [= <-]. eauto.
Qed.

Lemma at2_zip_with_Some {A B C} (f : A -> B -> C) (g : list (list A))
    (m : list (list B)) (r c : nat) (x : A) (y : B) :
  at2 g r c = Some x -> at2 m r c = Some y ->
  at2 (zip_with (zip_with f) g m) r c = Some (f x y).
Proof.
  unfold at2. rewrite lookup_zip_with.
  destruct (g !! r) as [rg | ]; simpl; [ | done].
  destruct (m !! r) as [rm | ]; simpl; [ | done].
  rewrite lookup_zip_with. intros -> ->. done.
Qed.

Lemma at2_row_block {A B C} (f : A -> B -> C) (g : list (list A))
    (m : list (list B)) (r c : nat) :
  at2 (zip_with (zip_with f) (upsampled g) (upsampled m)) r c
  = at2 (zip_with (zip_with f) (upsampled g) (upsampled m)) (4 * (r / 4)) c.
Proof.
  unfold at2. rewrite !lookup_zip_with, !lookup_upsampled.
  replace (4 * (r / 4) / 4)%nat with (r / 4)%nat; [done | ].
  rewrite Nat.mul_comm, Nat.div_mul by lia. done.
Qed.

(** A valid pixel is among the pixels that the mask selects. *)
Lemma row_get_elem (row : list fval) (m : list bool) (c : nat) (v : fval) :
  row !! c = Some v -> m !! c = Some true -> v ∈ row_get row m.
Proof.
  revert m c. induction row as [ | x row IH]; intros [ | b m] c Hv Hm;
    try done.
  destruct c as [ | c]; simpl in *.
  - injection Hv as ->. injection Hm as ->. set_solver.
  - destruct b; [apply elem_of_cons; right | ]; by eapply IH.
Qed.

Lemma mask_get_elem (g : list (list fval)) (m : list (list bool))
    (r c : nat) (v : fval) :
  at2 g r c = Some v -> at2 m r c = Some true -> v ∈ mask_get g m.
Proof.
  unfold at2. revert m r. induction g as [ | row g IH]; intros [ | mrow m] r Hv Hm;
    try done.
  destruct r as [ | r]; simpl in *; apply elem_of_app.
  - left. by eapply row_get_elem.
  - right. by eapply IH.
Qed.

(** *** Shapes *)

Lemma grid_shape_map {A B} (f : A -> B) (g : list (list A)) (H W : nat) :
  grid_shape g H W -> grid_shape (map (map f) g) H W.
Proof.
  intros [Hlen Hrows]. split; [by rewrite length_map | ].
  apply Forall_fmap. eapply Forall_impl; [exact Hrows | ].
  intros row Hrow. simpl. by rewrite length_map.
Qed.

Lemma grid_shape_zip_with {A B C} (f : A -> B -> C) (g : list (list A))
    (m : list (list B)) (H W : nat) :
  grid_shape g H W -> grid_shape m H W ->
  grid_shape (zip_with (zip_with f) g m) H W.
Proof.
  intros [Hg Hgr] [Hm Hmr]. split.
  - rewrite length_zip_with. lia.
  - apply Forall_forall. intros row Hin.
    apply elem_of_lookup_zip_with in Hin as (i & rg & rm & -> & H1 & H2).
    rewrite Forall_forall in Hgr. rewrite Forall_forall in Hmr.
    rewrite length_zip_with.
    rewrite (Hgr rg), (Hmr rm); [lia | | ]; by eapply list_elem_of_lookup_2.
Qed.

Lemma grid_shape_upsampled {A} (g : list (list A)) (H W : nat) :
  grid_shape g H W -> grid_shape (upsampled g) (4 * H) W.
Proof.
  intros [Hlen Hrows]. subst H. unfold upsampled.
  induction Hrows as [ | row g Hrow Hrows [IH1 IH2]]; [by split | ].
  cbn [flat_map]. split.
  - rewrite length_app, length_replicate, IH1. simpl. lia.
  - apply Forall_app. split; [ | exact IH2].
    apply Forall_forall. intros x Hx. by apply elem_of_replicate in Hx as [-> _].
Qed.

(** *** Minimum and maximum of finite values *)

Lemma foldl_fmin2_fin (l : list fval) (a0 : Q) :
  Forall (fun v => exists q, v = Fin q) l ->
  exists a, foldl fmin2 (Fin a0) l = Fin a /\ (a <= a0)%Q /\
    forall q, Fin q ∈ l -> (a <= q)%Q.
Proof.
  intros Hfin. revert a0.
  induction Hfin as [ | x l [q0 ->] Hl IH]; intros a0.
  - exists a0. split; [done | ]. split; [apply Qle_refl | ].
    intros q Hq. by apply elem_of_nil in Hq.
  - cbn [foldl fmin2 fleb].
    destruct (Qle_bool a0 q0) eqn:E.
    + apply Qle_bool_iff in E.
      destruct (IH a0) as (a & Heq & Ha & Hall).
      exists a. split; [done | ]. split; [done | ].
      intros q Hq. apply elem_of_cons in Hq as [[= ->] | Hq]; [ | by apply Hall].
      by apply Qle_trans with a0.
    + assert (Hlt : (q0 < a0)%Q).
      { apply Qnot_le_lt. intros H. apply Qle_bool_iff in H. congruence. }
      destruct (IH q0) as (a & Heq & Ha & Hall).
      exists a. split; [done | ]. split.
      * apply Qle_trans with q0; [done | by apply Qlt_le_weak].
      * intros q Hq. apply elem_of_cons in Hq as [[= ->] | Hq]; [done | by apply Hall].
Qed.

Lemma foldl_fmax2_fin (l : list fval) (b0 : Q) :
  Forall (fun v => exists q, v = Fin q) l ->
  exists b, foldl fmax2 (Fin b0) l = Fin b /\ (b0 <= b)%Q /\
    forall q, Fin q ∈ l -> (q <= b)%Q.
Proof.
  intros Hfin. revert b0.
  induction Hfin as [ | x l [q0 ->] Hl IH]; intros b0.
  - exists b0. split; [done | ]. split; [apply Qle_refl | ].
    intros q Hq. by apply elem_of_nil in Hq.
  - cbn [foldl fmax2 fleb].
    destruct (Qle_bool b0 q0) eqn:E.
    + apply Qle_bool_iff in E.
      destruct (IH q0) as (b & Heq & Hb & Hall).
      exists b. split; [done | ]. split; [by apply Qle_trans with q0 | ].
      intros q Hq. apply elem_of_cons in Hq as [[= ->] | Hq]; [done | by apply Hall].
    + assert (Hlt : (q0 < b0)%Q).
      { apply Qnot_le_lt. intros H. apply Qle_bool_iff in H. congruence. }
      destruct (IH b0) as (b & Heq & Hb & Hall).
      exists b. split; [done | ]. split; [done | ].
      intros q Hq. apply elem_of_cons in Hq as [[= ->] | Hq]; [ | by apply Hall].
      apply Qle_trans with b0; [by apply Qlt_le_weak | done].
Qed.

Lemma amin_amax_fin (l : list fval) (Min Max : fval) :
  Forall (fun v => exists q, v = Fin q) l ->
  amin l = ret Min -> amax l = ret Max ->
  exists a b, Min = Fin a /\ Max = Fin b /\
    forall q, Fin q ∈ l -> (a <= q <= b)%Q.
Proof.
  intros Hfin Hmin Hmax. destruct l as [ | x l]; [done | ].
  apply Forall_cons in Hfin as [[q0 ->] Hfin].
  destruct (foldl_fmin2_fin l q0 Hfin) as (a & Ha & Ha0 & Hamin).
  destruct (foldl_fmax2_fin l q0 Hfin) as (b & Hb & Hb0 & Hbmax).
  simpl in Hmin, Hmax. rewrite Ha in Hmin. rewrite Hb in Hmax.
  injection Hmin as <-. injection Hmax as <-.
  exists a, b. split; [done | ]. split; [done | ].
  intros q Hq. apply elem_of_cons in Hq as [[= ->] | Hq]; [done | ].
  split; [by apply Hamin | by apply Hbmax].
Qed.

Lemma row_get_fin (row : list Q) (m : list bool) :
  Forall (fun v => exists q, v = Fin q) (row_get (map Fin row) m).
Proof.
  revert m. induction row as [ | x row IH]; intros [ | b m]; simpl; try done.
  destruct b; [constructor; eauto | apply IH].
Qed.

Lemma mask_get_fin (c : list (list Q)) (m : list (list bool)) :
  Forall (fun v => exists q, v = Fin q) (mask_get (map (map Fin) c) m).
Proof.
  revert m. induction c as [ | row c IH]; intros [ | mrow m]; simpl; try done.
  apply Forall_app. split; [apply row_get_fin | apply IH].
Qed.

(** The normalised value of a pixel between the minimum and the maximum of
    a channel that is not constant lies between -1 and 1. *)
Lemma normalized_bound (a b q : Q) :
  (a <= q <= b)%Q -> (a < b)%Q ->
  exists q', normalized (Fin a) (Fin b) (Fin q) = Fin q' /\ (-1 <= q' <= 1)%Q.
Proof.
  intros [Haq Hqb] Hab. unfold normalized. cbn [fsub fneg fadd fdiv].
  assert (Hpos : (0 < b + - a)%Q) by lra.
  unfold Qzero.
  destruct (Qeq_bool (b + - a) 0) eqn:E.
  { apply Qeq_bool_eq in E. lra. }
  change (Qeq_bool (1 # 2) 0) with false. cbv iota.
  eexists. split; [reflexivity | ].
  assert (H0 : (0 <= (q + - a) / (b + - a))%Q).
  { apply Qle_shift_div_l; [done | lra]. }
  assert (H1 : ((q + - a) / (b + - a) <= 1)%Q).
  { apply Qle_shift_div_r; [done | lra]. }
  set (t := ((q + - a) / (b + - a))%Q) in *.
  assert (Heq : ((t + - (1 # 2)) / (1 # 2) == 2 * t - 1)%Q) by field.
  rewrite Heq. split; lra.
Qed.

Lemma valid_pixel_selected (ci c5 : list (list Q)) (r c : nat) (q mq : Q) :
  at2 ci r c = Some q -> at2 c5 r c = Some mq -> (mq == 1)%Q ->
  Fin q ∈ mask_get (map (map Fin) ci) (valid_mask (map (map Fin) c5)).
Proof.
  intros Hq Hmq H1. apply (mask_get_elem _ _ r c).
  - by rewrite at2_map, Hq.
  - unfold valid_mask. rewrite !at2_map, Hmq. simpl.
    f_equal. by apply Qeq_bool_iff.
Qed.

(** A pixel of a normalised channel, upsampled and multiplied by the
    upsampled mask. *)
Lemma output_pixel (ci c5 : list (list Q)) (N : list (list fval))
    (r c : nat) (v : fval) :
  let g5 := map (map Fin) c5 in
  norm_of (valid_mask g5) (map (map Fin) ci) N ->
  (forall r c m, at2 c5 r c = Some m -> (m == 0)%Q \/ (m == 1)%Q) ->
  (exists r1 c1 r2 c2 m1 m2 x y,
     at2 c5 r1 c1 = Some m1 /\ (m1 == 1)%Q /\
     at2 c5 r2 c2 = Some m2 /\ (m2 == 1)%Q /\
     at2 ci r1 c1 = Some x /\ at2 ci r2 c2 = Some y /\ ~ (x == y)%Q) ->
  at2 (masked (upsampled N) (upsampled g5)) r c = Some v ->
  pixel_ok v (at2 (upsampled g5) r c).
Proof.
  intros g5 (Min & Max & Hmin & Hmax & ->) Hbin Hdist Hv.
  set (bm := valid_mask g5) in *. set (gi := map (map Fin) ci) in *.
  destruct (amin_amax_fin _ Min Max (mask_get_fin ci bm) Hmin Hmax)
    as (a & b & -> & -> & Hbounds).
  assert (Hsel : forall r c q mq, at2 ci r c = Some q -> at2 c5 r c = Some mq ->
            (mq == 1)%Q -> Fin q ∈ mask_get gi bm)
    by apply valid_pixel_selected.
  assert (Hab : (a < b)%Q).
  { destruct Hdist as (r1 & c1 & r2 & c2 & m1 & m2 & x & y &
                        Hm1 & H1 & Hm2 & H2 & Hx & Hy & Hne).
    pose proof (Hbounds x (Hsel _ _ _ _ Hx Hm1 H1)) as [Hax Hxb].
    pose proof (Hbounds y (Hsel _ _ _ _ Hy Hm2 H2)) as [Hay Hyb].
    apply Qnot_le_lt. intros Hba. apply Hne. lra. }
  apply at2_zip_with in Hv as (x' & y' & Hx' & Hy' & ->).
  rewrite Hy'. rewrite at2_upsampled in Hx', Hy'.
  unfold g5 in Hy'. rewrite at2_map in Hy'.
  destruct (at2 c5 (r / 4) c) as [mq | ] eqn:Hmq; [ | done].
  injection Hy' as <-.
  apply at2_zip_with in Hx' as (x0 & bb & Hx0 & Hbb & ->).
  unfold gi in Hx0. rewrite at2_map in Hx0.
  destruct (at2 ci (r / 4) c) as [q0 | ] eqn:Hq0; [ | done].
  injection Hx0 as <-.
  unfold bm, valid_mask, g5 in Hbb. rewrite !at2_map, Hmq in Hbb.
  injection Hbb as <-. cbn [feqb].
  destruct (Hbin _ _ _ Hmq) as [H0 | H1].
  - assert (E : Qeq_bool mq 1 = false).
    { destruct (Qeq_bool mq 1) eqn:E; [ | done].
      apply Qeq_bool_iff in E. rewrite H0 in E. discriminate E. }
    rewrite E. cbn [fmul]. exists (q0 * mq)%Q, mq.
    split; [done | ]. split; [done | ]. right. split; [done | ].
    rewrite H0. ring.
  - assert (E : Qeq_bool mq 1 = true) by (by apply Qeq_bool_iff).
    rewrite E.
    destruct (normalized_bound a b q0) as (q' & Hq' & Hrange);
      [apply Hbounds; by eapply Hsel | done | ].
    rewrite Hq'. cbn [fmul]. exists (q' * mq)%Q, mq.
    split; [done | ]. split; [done | ]. left. split; [done | ].
    assert (Heq : (q' * mq == q')%Q) by (rewrite H1; ring).
    rewrite Heq. done.
Qed.

(** Every pixel of the scan has its four pixels in the output, and the
    mask that is returned holds the mask of the scan there. *)
Lemma output_pixel_exists (ci c5 : list (list Q)) (N : list (list fval))
    (r c k : nat) (x m : Q) :
  let g5 := map (map Fin) c5 in
  norm_of (valid_mask g5) (map (map Fin) ci) N ->
  at2 ci r c = Some x -> at2 c5 r c = Some m -> (k < 4)%nat ->
  is_Some (at2 (masked (upsampled N) (upsampled g5)) (4 * r + k) c) /\
  at2 (upsampled g5) (4 * r + k) c = Some (Fin m).
Proof.
  intros g5 (Min & Max & _ & _ & ->) Hx Hm Hk.
  assert (Hrow : ((4 * r + k) / 4 = r)%nat).
  { rewrite (Nat.mul_comm 4 r), Nat.div_add_l by lia.
    rewrite Nat.div_small by lia. lia. }
  assert (H5 : at2 (upsampled g5) (4 * r + k) c = Some (Fin m)).
  { rewrite at2_upsampled, Hrow. unfold g5. by rewrite at2_map, Hm. }
  split; [ | exact H5].
  eexists. apply at2_zip_with_Some; [ | exact H5].
  rewrite at2_upsampled, Hrow. unfold mask_apply.
  apply at2_zip_with_Some.
  - by rewrite at2_map, Hx.
  - unfold valid_mask, g5. by rewrite !at2_map, Hm.
Qed.

Lemma two_values_channel (ci c5 : list (list Q)) (a : list (list (list Q))) (i : nat) :
  a !! i = Some ci -> a !! 5%nat = Some c5 -> two_valid_values a i ->
  exists r1 c1 r2 c2 m1 m2 x y,
    at2 c5 r1 c1 = Some m1 /\ (m1 == 1)%Q /\
    at2 c5 r2 c2 = Some m2 /\ (m2 == 1)%Q /\
    at2 ci r1 c1 = Some x /\ at2 ci r2 c2 = Some y /\ ~ (x == y)%Q.
Proof.
  intros Hi H5 (r1 & c1 & r2 & c2 & x & y & (m1 & Hm1 & H1) & (m2 & Hm2 & H2)
                & Hx & Hy & Hne).
  unfold pixel in *. rewrite H5 in Hm1, Hm2. rewrite Hi in Hx, Hy.
  exists r1, c1, r2, c2, m1, m2, x, y. done.
Qed.

Lemma two_values_nonempty (ci c5 : list (list Q)) :
  (exists r1 c1 r2 c2 m1 m2 x y,
     at2 c5 r1 c1 = Some m1 /\ (m1 == 1)%Q /\
     at2 c5 r2 c2 = Some m2 /\ (m2 == 1)%Q /\
     at2 ci r1 c1 = Some x /\ at2 ci r2 c2 = Some y /\ ~ (x == y)%Q) ->
  mask_get (map (map Fin) ci) (valid_mask (map (map Fin) c5)) <> [].
Proof.
  intros (r1 & c1 & r2 & c2 & m1 & m2 & x & y & Hm1 & H1 & _ & _ & Hx & _).
  pose proof (valid_pixel_selected ci c5 r1 c1 x m1 Hx Hm1 H1) as Hin.
  intros E. rewrite E in Hin. by apply elem_of_nil in Hin.
Qed.

Lemma scan_six_channels (a : list (list (list Q))) (c5 : list (list Q)) :
  a !! 5%nat = Some c5 ->
  exists c0 c1 c2 c3 c4 rest, a = c0 :: c1 :: c2 :: c3 :: c4 :: c5 :: rest.
Proof.
  intros H. destruct a as [ | c0 [ | c1 [ | c2 [ | c3 [ | c4 [ | c5' rest]]]]]];
    try done.
  injection H as ->. eauto 10.
Qed.

(** C2, as the code has it: for a stored scan of finite values whose
    channel 5 is a binary mask and whose channels 0 to 4 each take two
    values over the valid pixels, the indexed access returns a sample of
    three xyz channels, one range channel, one remission channel and one
    mask channel; every pixel of channels 0 to 4 of the scan has its four
    pixels in them, where the returned mask holds the mask of the scan;
    and in the xyz, range and remission tensors every pixel is finite,
    lies between -1 and 1 where the returned mask is 1, and is zero where
    the returned mask is 0. *)
Theorem normalized_in_range_and_masked_zero (fs : filesystem) (self : UnaryScan)
    (index : Z) (path : string) (a : list (list (list Q))) (hv : yamlval)
    (Hidx : getitem (scan_file_names self) index = ret path)
    (Hfile : arrays fs !! path = Some a)
    (Hrgb : data_stats self !! "have_rgb"%string = Some hv)
    (Hbin : binary_mask a)
    (Hval : forall i, (i < 5)%nat -> two_valid_values a i) :
  exists s, UnaryScan_getitem fs self index = ret s /\
    length (proj_xyz s) = 3%nat /\ length (proj_range s) = 1%nat /\
    length (proj_remission s) = 1%nat /\ length (proj_mask s) = 1%nat /\
    (forall i r c x m k, (i < 5)%nat -> (k < 4)%nat ->
       pixel a i r c = Some x -> pixel a 5 r c = Some m ->
       is_Some (pixel (proj_xyz s ++ proj_range s ++ proj_remission s)
                  i (4 * r + k) c) /\
       pixel (proj_mask s) 0 (4 * r + k) c = Some (Fin m)) /\
    (forall t, t ∈ [proj_xyz s; proj_range s; proj_remission s] ->
     forall ch r c v, pixel t ch r c = Some v ->
       pixel_ok v (pixel (proj_mask s) 0 r c)).
Proof.
  assert (H5 : exists c5, a !! 5%nat = Some c5).
  { destruct (Hval 0%nat) as (r1 & c1 & _ & _ & _ & _ & (m & Hm & _) & _); [lia | ].
    unfold pixel in Hm. destruct (a !! 5%nat) as [c5 | ]; [eauto | done]. }
  destruct H5 as [c5 H5].
  destruct (scan_six_channels a c5 H5) as (c0 & c1 & c2 & c3 & c4 & rest & ->).
  pose proof (two_values_channel c0 c5 (c0 :: c1 :: c2 :: c3 :: c4 :: c5 :: rest) 0
                eq_refl H5 (Hval 0%nat ltac:(lia))) as D0.
  pose proof (two_values_channel c1 c5 (c0 :: c1 :: c2 :: c3 :: c4 :: c5 :: rest) 1
                eq_refl H5 (Hval 1%nat ltac:(lia))) as D1.
  pose proof (two_values_channel c2 c5 (c0 :: c1 :: c2 :: c3 :: c4 :: c5 :: rest) 2
                eq_refl H5 (Hval 2%nat ltac:(lia))) as D2.
  pose proof (two_values_channel c3 c5 (c0 :: c1 :: c2 :: c3 :: c4 :: c5 :: rest) 3
                eq_refl H5 (Hval 3%nat ltac:(lia))) as D3.
  pose proof (two_values_channel c4 c5 (c0 :: c1 :: c2 :: c3 :: c4 :: c5 :: rest) 4
                eq_refl H5 (Hval 4%nat ltac:(lia))) as D4.
  assert (Hbin5 : forall r c m, at2 c5 r c = Some m -> (m == 0)%Q \/ (m == 1)%Q).
  { intros r c m Hm. apply (Hbin r c m). unfold pixel. by rewrite H5. }
  assert (Hload : np_load fs path
                  = ret (map (map Fin) c0 :: map (map Fin) c1 :: map (map Fin) c2
                         :: map (map Fin) c3 :: map (map Fin) c4
                         :: map (map Fin) c5 :: map (map (map Fin)) rest)).
  { exact (np_load_arrays _ _ _ Hfile). }
  destruct (getitem_explicit fs self index path hv _ _ _ _ _ _ _ Hidx Hload Hrgb
              (two_values_nonempty _ _ D0) (two_values_nonempty _ _ D1)
              (two_values_nonempty _ _ D2) (two_values_nonempty _ _ D3)
              (two_values_nonempty _ _ D4))
    as (N0 & N1 & N2 & N3 & N4 & Hn0 & Hn1 & Hn2 & Hn3 & Hn4 & Heq).
  eexists. split; [exact Heq | ]. cbn [proj_xyz proj_range proj_remission proj_mask].
  do 4 (split; [reflexivity | ]).
  change (pixel [upsampled (map (map Fin) c5)] 0)
    with (at2 (upsampled (map (map Fin) c5))).
  split.
  - intros i r c x m k Hi Hk Hx Hm. cbn [app].
    unfold pixel in Hx, Hm. cbn [lookup list_lookup] in Hm.
    destruct i as [ | [ | [ | [ | [ | i]]]]]; [ | | | | | lia];
      cbn [lookup list_lookup] in Hx; unfold pixel; cbn [lookup list_lookup].
    + by apply (output_pixel_exists c0 c5 N0 r c k x m).
    + by apply (output_pixel_exists c1 c5 N1 r c k x m).
    + by apply (output_pixel_exists c2 c5 N2 r c k x m).
    + by apply (output_pixel_exists c3 c5 N3 r c k x m).
    + by apply (output_pixel_exists c4 c5 N4 r c k x m).
  - intros t Ht ch r c v Hv.
    unfold pixel in Hv.
    repeat (apply elem_of_cons in Ht as [-> | Ht]);
      [ | | | by apply elem_of_nil in Ht].
    + destruct ch as [ | [ | [ | ch]]]; simpl in Hv; [ | | | done].
      * by apply (output_pixel c0 c5 N0).
      * by apply (output_pixel c1 c5 N1).
      * by apply (output_pixel c2 c5 N2).
    + destruct ch as [ | ch]; simpl in Hv; [ | done].
      by apply (output_pixel c3 c5 N3).
    + destruct ch as [ | ch]; simpl in Hv; [ | done].
      by apply (output_pixel c4 c5 N4).
Qed.

Lemma normalized_in_range_and_masked_zero_witness :
  binary_mask scan_1x2 /\
  (forall i, (i < 5)%nat -> two_valid_values scan_1x2 i) /\
  exists s, UnaryScan_getitem fs_scans unary_scans 0 = ret s /\
    length (proj_xyz s) = 3%nat /\
    is_Some (pixel (proj_xyz s) 2 3 1) /\
    forall t, t ∈ [proj_xyz s; proj_range s; proj_remission s] ->
    forall ch r c v, pixel t ch r c = Some v ->
      pixel_ok v (pixel (proj_mask s) 0 r c).
Proof.
  assert (Hbin : binary_mask scan_1x2).
  { intros r c m H. unfold pixel in H. simpl in H.
    destruct r as [ | r]; [ | done].
    destruct c as [ | [ | c]]; simpl in H; [ | | done];
      injection H as <-; by right. }
  assert (Hval : forall i, (i < 5)%nat -> two_valid_values scan_1x2 i).
  { intros i Hi.
    destruct i as [ | [ | [ | [ | [ | i]]]]]; [ | | | | | lia];
      (eexists 0%nat, 0%nat, 0%nat, 1%nat, _, _;
       split; [eexists; split; [reflexivity | reflexivity] | ];
       split; [eexists; split; [reflexivity | reflexivity] | ];
       split; [reflexivity | ]; split; [reflexivity | ];
       intros E; vm_compute in E; discriminate E). }
  split; [exact Hbin | ]. split; [exact Hval | ].
  destruct (normalized_in_range_and_masked_zero fs_scans unary_scans 0
              "A/0.npy" scan_1x2 (YBool false))
    as (s & Hs & Hxyz & Hr & Hi & Hm & Hex & Hok);
    [reflexivity | reflexivity | reflexivity | exact Hbin | exact Hval | ].
  exists s. split; [exact Hs | ]. split; [exact Hxyz | ]. split; [ | exact Hok].
  destruct (Hex 2%nat 0%nat 1%nat 1%Q 1%Q 3%nat) as [Hsome _];
    [lia | lia | reflexivity | reflexivity | ].
  destruct (proj_xyz s) as [ | g0 [ | g1 [ | g2 [ | g3 xyz]]]];
    try discriminate Hxyz. exact Hsome.
Defined.

(** C2, as it is written, fails for a scan that holds no number at a
    pixel that is not valid: of the three pixels of the scan the first two
    are valid and the third is not, every channel takes two values over
    the valid pixels, and the first channel is not a number at the third
    pixel.  The minimum and the maximum are taken over the valid pixels,
    the third pixel is left as it is, and its product with the mask, which
    is zero there, is not a number and not zero. *)
Lemma unmasked_pixel_not_zero :
  exists s, UnaryScan_getitem fs_gap unary_gap 0 = ret s /\
    proj_mask s = [upsampled [[Fin 1; Fin 1; Fin 0]]] /\
    pixel (proj_mask s) 0 0 2 = Some (Fin 0) /\
    pixel (proj_xyz s) 0 0 2 = Some NaN /\
    fmul NaN (Fin 0) = NaN /\ fmul (Inf false) (Fin 0) = NaN.
Proof.
  eexists. split; [vm_compute; reflexivity | ]. repeat split.
Qed.

Lemma grid_shape_at2 {A} (g : list (list A)) (H W r c : nat) :
  grid_shape g H W -> (is_Some (at2 g r c) <-> (r < H)%nat /\ (c < W)%nat).
Proof.
  intros [Hlen Hrows]. unfold at2. split.
  - destruct (g !! r) as [row | ] eqn:Hr; [ | by intros [? ?]].
    intros Hc. apply lookup_lt_is_Some in Hc.
    rewrite Forall_forall in Hrows.
    rewrite (Hrows row) in Hc by (by eapply list_elem_of_lookup_2).
    split; [ | done]. rewrite <- Hlen. by eapply lookup_lt_Some.
  - intros [Hr Hc]. rewrite <- Hlen in Hr.
    apply lookup_lt_is_Some in Hr as [row Hrow]. rewrite Hrow.
    apply lookup_lt_is_Some. rewrite Forall_forall in Hrows.
    rewrite (Hrows row); [done | by eapply list_elem_of_lookup_2].
Qed.

Lemma valid_nonempty (ci c5 : list (list Q)) (H W r c : nat) (m : Q) :
  grid_shape ci H W -> grid_shape c5 H W ->
  at2 c5 r c = Some m -> (m == 1)%Q ->
  mask_get (map (map Fin) ci) (valid_mask (map (map Fin) c5)) <> [].
Proof.
  intros Hci Hc5 Hm H1.
  assert (Hin : is_Some (at2 ci r c)).
  { apply (grid_shape_at2 ci H W); [done | ].
    apply (grid_shape_at2 c5 H W); [done | eauto]. }
  destruct Hin as [x Hx].
  pose proof (valid_pixel_selected ci c5 r c x m Hx Hm H1) as Hin.
  intros E. rewrite E in Hin. by apply elem_of_nil in Hin.
Qed.

Lemma norm_of_shape (ci c5 : list (list Q)) (N : list (list fval)) (H W : nat) :
  grid_shape ci H W -> grid_shape c5 H W ->
  norm_of (valid_mask (map (map Fin) c5)) (map (map Fin) ci) N ->
  grid_shape (masked (upsampled N) (upsampled (map (map Fin) c5))) (4 * H) W.
Proof.
  intros Hci Hc5 (Min & Max & _ & _ & ->).
  apply grid_shape_zip_with; apply grid_shape_upsampled.
  - apply grid_shape_zip_with; [by apply grid_shape_map | ].
    unfold valid_mask. by do 2 apply grid_shape_map.
  - by apply grid_shape_map.
Qed.

Lemma at2_upsampled_block {A} (g : list (list A)) (r c : nat) :
  at2 (upsampled g) r c = at2 (upsampled g) (4 * (r / 4)) c.
Proof.
  rewrite !at2_upsampled.
  replace (4 * (r / 4) / 4)%nat with (r / 4)%nat; [done | ].
  rewrite Nat.mul_comm, Nat.div_mul by lia. done.
Qed.

(** C4, as the code has it: the indexed access repeats along axis 1 of the
    loaded (channels, H, W) array, the axis of the rows: for a scan of shape
    (C, H, W) with a valid pixel the returned tensors have 4*H rows of W
    pixels, row [r] of the returned mask is row [r / 4] of channel 5, and in
    every returned tensor the rows come in blocks of four equal rows. *)
Theorem indexed_access_repeats_rows (fs : filesystem) (self : UnaryScan)
    (index : Z) (path : string) (a : list (list (list Q))) (hv : yamlval)
    (C H W : nat)
    (Hidx : getitem (scan_file_names self) index = ret path)
    (Hfile : arrays fs !! path = Some a)
    (Hrgb : data_stats self !! "have_rgb"%string = Some hv)
    (Hshape : has_shape a C H W)
    (Hvalid : exists r c, valid_at a r c) :
  exists s, UnaryScan_getitem fs self index = ret s /\
    has_shape (proj_xyz s) 3 (4 * H) W /\
    has_shape (proj_range s) 1 (4 * H) W /\
    has_shape (proj_remission s) 1 (4 * H) W /\
    has_shape (proj_mask s) 1 (4 * H) W /\
    (forall rgb, proj_rgb s = Some rgb ->
       has_shape rgb (Nat.min 3 (C - 6)) (4 * H) W) /\
    (forall r c, pixel (proj_mask s) 0 r c = Fin <$> pixel a 5 (r / 4) c) /\
    (forall t, t ∈ [proj_xyz s; proj_range s; proj_remission s; proj_mask s] ->
     forall ch r c, pixel t ch r c = pixel t ch (4 * (r / 4)) c).
Proof.
  destruct Hvalid as (r0 & c0' & m0 & Hm0 & Hm1).
  assert (H5 : exists c5, a !! 5%nat = Some c5).
  { unfold pixel in Hm0. destruct (a !! 5%nat) as [c5 | ]; [eauto | done]. }
  destruct H5 as [c5 H5].
  destruct (scan_six_channels a c5 H5) as (c0 & c1 & c2 & c3 & c4 & rest & ->).
  destruct Hshape as [HC Hsh].
  apply Forall_cons in Hsh as [S0 Hsh]. apply Forall_cons in Hsh as [S1 Hsh].
  apply Forall_cons in Hsh as [S2 Hsh]. apply Forall_cons in Hsh as [S3 Hsh].
  apply Forall_cons in Hsh as [S4 Hsh]. apply Forall_cons in Hsh as [S5 Srest].
  unfold pixel in Hm0. simpl in Hm0.
  assert (Hload : np_load fs path
                  = ret (map (map Fin) c0 :: map (map Fin) c1 :: map (map Fin) c2
                         :: map (map Fin) c3 :: map (map Fin) c4
                         :: map (map Fin) c5 :: map (map (map Fin)) rest)).
  { exact (np_load_arrays _ _ _ Hfile). }
  destruct (getitem_explicit fs self index path hv _ _ _ _ _ _ _ Hidx Hload Hrgb
              (valid_nonempty c0 c5 H W _ _ _ S0 S5 Hm0 Hm1)
              (valid_nonempty c1 c5 H W _ _ _ S1 S5 Hm0 Hm1)
              (valid_nonempty c2 c5 H W _ _ _ S2 S5 Hm0 Hm1)
              (valid_nonempty c3 c5 H W _ _ _ S3 S5 Hm0 Hm1)
              (valid_nonempty c4 c5 H W _ _ _ S4 S5 Hm0 Hm1))
    as (N0 & N1 & N2 & N3 & N4 & Hn0 & Hn1 & Hn2 & Hn3 & Hn4 & Heq).
  eexists. split; [exact Heq | ].
  cbn [proj_xyz proj_range proj_remission proj_mask proj_rgb].
  pose proof (norm_of_shape c0 c5 N0 H W S0 S5 Hn0) as X0.
  pose proof (norm_of_shape c1 c5 N1 H W S1 S5 Hn1) as X1.
  pose proof (norm_of_shape c2 c5 N2 H W S2 S5 Hn2) as X2.
  pose proof (norm_of_shape c3 c5 N3 H W S3 S5 Hn3) as X3.
  pose proof (norm_of_shape c4 c5 N4 H W S4 S5 Hn4) as X4.
  assert (XM : grid_shape (upsampled (map (map Fin) c5)) (4 * H) W)
    by (apply grid_shape_upsampled; by apply grid_shape_map).
  split; [split; [reflexivity | shape_list] | ].
  split; [split; [reflexivity | shape_list] | ].
  split; [split; [reflexivity | shape_list] | ].
  split; [split; [reflexivity | shape_list] | ].
  split; [ | split].
  - intros rgb Hrgb'. destruct (truthy hv); [ | done].
    injection Hrgb' as <-. split.
    + rewrite length_map, length_take, length_map.
      simpl in HC. lia.
    + apply Forall_fmap. apply Forall_take. apply Forall_fmap.
      eapply Forall_impl; [exact Srest | ]. intros g Hg. simpl.
      apply grid_shape_zip_with; [ | done].
      apply grid_shape_upsampled. unfold rescaled.
      by do 2 apply grid_shape_map.
  - intros r c. unfold pixel. simpl.
    by rewrite at2_upsampled, at2_map.
  - intros t Ht ch r c. unfold pixel.
    repeat (apply elem_of_cons in Ht as [-> | Ht]);
      [ | | | | by apply elem_of_nil in Ht].
    + destruct ch as [ | [ | [ | ch]]]; simpl; try done; apply at2_row_block.
    + destruct ch as [ | ch]; simpl; try done; apply at2_row_block.
    + destruct ch as [ | ch]; simpl; try done; apply at2_row_block.
    + destruct ch as [ | ch]; simpl; try done; apply at2_upsampled_block.
Qed.

Lemma indexed_access_repeats_rows_witness :
  has_shape scan_1x2 6 1 2 /\ (exists r c, valid_at scan_1x2 r c) /\
  exists s, UnaryScan_getitem fs_scans unary_scans 0 = ret s /\
    has_shape (proj_mask s) 1 4 2 /\ has_shape (proj_xyz s) 3 4 2.
Proof.
  assert (Hshape : has_shape scan_1x2 6 1 2).
  { split; [reflexivity | ]. repeat constructor. }
  assert (Hvalid : exists r c, valid_at scan_1x2 r c).
  { exists 0%nat, 0%nat. eexists. split; reflexivity. }
  split; [exact Hshape | ]. split; [exact Hvalid | ].
  destruct (indexed_access_repeats_rows fs_scans unary_scans 0 "A/0.npy"
              scan_1x2 (YBool false) 6 1 2)
    as (s & Hs & Hxyz & _ & _ & Hmask & _);
    [reflexivity | reflexivity | reflexivity | exact Hshape | exact Hvalid | ].
  exists s. split; [exact Hs | ]. split; [exact Hmask | exact Hxyz].
Defined.

(** C4, as it is written, fails on a scan of shape (6, 1, 2): the returned
    mask has shape (1, 4, 2), four rows of two pixels, not one row of
    eight. *)
Lemma mask_rows_upsampled_not_columns :
  exists s, UnaryScan_getitem fs_scans unary_scans 0 = ret s /\
    has_shape scan_1x2 6 1 2 /\
    has_shape (proj_mask s) 1 4 2 /\
    ~ has_shape (proj_mask s) 1 1 8.
Proof.
  eexists. split; [vm_compute; reflexivity | ].
  split; [split; [reflexivity | repeat constructor] | ].
  split; [split; [reflexivity | repeat constructor] | ].
  intros [_ H]. apply Forall_cons in H as [[H _] _]. simpl in H. lia.
Qed.

(** * Further properties of the data handling *)

Import Outcomes Scans.

Lemma name_le_total : Total name_le.
Proof. intros a b. apply String.leb_total. Qed.

Lemma Sorted_app_l {A} (R : relation A) (l1 l2 : list A) :
  Sorted R (l1 ++ l2) -> Sorted R l1.
Proof.
  induction l1 as [ | x l1 IH]; intros H; [constructor | ].
  simpl in H. apply Sorted_inv in H as [Hs Hhd].
  constructor; [by apply IH | ].
  destruct l1; [constructor | ]. simpl in Hhd. apply HdRel_inv in Hhd. by constructor.
Qed.

Lemma slice_to_prefix {A} (l : list A) (k : Z) : slice_to l k `prefix_of` l.
Proof. apply prefix_take. Qed.

Lemma slice_to_length {A} (l : list A) (k : Z) :
  k <> -1 -> Z.of_nat (length (slice_to l k)) = listing_length (length l) k.
Proof.
  intros Hk. unfold slice_to, slice_bound, listing_length.
  rewrite length_take. rewrite (bool_decide_eq_false_2 (k = -1)) by done.
  repeat case_bool_decide; lia.
Qed.

(** X1: the listing of a dataset.  When the directory exists, the
    construction of the dataset prints one line, keeps the directory and
    the sensor description as given, and lists the files of the directory
    sorted by name: all of them for [max_dataset_size = -1], and otherwise
    the first ones of the sorted list, as many as the slice
    [[:max_dataset_size]] keeps (for a negative size other than -1, all but
    the last ones).  [len] of the dataset is the number of files listed. *)
Theorem unary_init_listing (fs : filesystem) (d : string)
    (st : gmap string yamlval) (k : Z) (found : list string)
    (Hdir : dirs fs !! d = Some found) :
  exists self,
    UnaryScan_init fs d st k
      = Run [Text ("Sequences folder exists! Using sequences from " +:+ d)] (inr self) /\
    data_dir self = d /\ data_stats self = st /\
    Sorted name_le (scan_file_names self) /\
    scan_file_names self `prefix_of` sort_names found /\
    sort_names found ≡ₚ found /\
    (k = -1 -> scan_file_names self ≡ₚ found) /\
    UnaryScan_len self = listing_length (length found) k.
Proof.
  unfold UnaryScan_init, isdir, glob. rewrite Hdir. simpl.
  assert (Hperm : sort_names found ≡ₚ found) by apply merge_sort_Permutation.
  assert (Hsorted : Sorted name_le (sort_names found))
    by apply (@Sorted_merge_sort _ name_le _ name_le_total).
  assert (Hlen : length (sort_names found) = length found) by (by rewrite Hperm).
  eexists. split; [reflexivity | ]. simpl.
  split; [done | ]. split; [done | ].
  case_bool_decide as Hk.
  - split.
    { destruct (slice_to_prefix (sort_names found) k) as [rest Hrest].
      apply (Sorted_app_l _ _ rest). by rewrite <- Hrest. }
    split; [apply slice_to_prefix | ]. split; [done | ]. split; [done | ].
    unfold UnaryScan_len. simpl. rewrite slice_to_length by done. by rewrite Hlen.
  - assert (k = -1) as -> by (destruct (decide (k = -1)); [done | by destruct Hk]).
    split; [done | ]. split; [done | ]. split; [done | ]. split; [done | ].
    unfold UnaryScan_len. simpl. by rewrite Hlen.
Qed.

Lemma UnaryScan_init_found (fs : filesystem) (d : string)
    (st : gmap string yamlval) (k : Z) (found : list string) :
  dirs fs !! d = Some found ->
  exists self,
    UnaryScan_init fs d st k
    = Run [Text ("Sequences folder exists! Using sequences from " +:+ d)] (inr self).
Proof.
  intros H. unfold UnaryScan_init, isdir, glob. rewrite H. simpl.
  eexists. reflexivity.
Qed.

Lemma UnaryScan_init_missing (fs : filesystem) (d : string)
    (st : gmap string yamlval) (k : Z) :
  dirs fs !! d = None -> UnaryScan_init fs d st k = raise ValueError.
Proof.
  intros H. unfold UnaryScan_init, isdir. rewrite H. reflexivity.
Qed.

(** X2: a directory that does not exist ends the construction with a
    [ValueError].  A single dataset is built exactly when its directory
    exists; a paired dataset checks the directory of A before that of B
    (the line about A is printed before B fails) and is built exactly when
    both exist; and the loader on a single missing directory fails with the
    same error, whatever its other arguments. *)
Theorem missing_directory_fatal (fs : filesystem) (dA dB : string)
    (stA stB : gmap string yamlval) (k : Z) :
  (dirs fs !! dA = None -> UnaryScan_init fs dA stA k = raise ValueError) /\
  (is_Some (dirs fs !! dA) <->
     exists self, outcome (UnaryScan_init fs dA stA k) = inr self) /\
  (dirs fs !! dA = None ->
     BinaryScan_init fs dA stA dB stB k = raise ValueError) /\
  (is_Some (dirs fs !! dA) -> dirs fs !! dB = None ->
     BinaryScan_init fs dA stA dB stB k
     = Run [Text ("Sequences folder exists! Using sequences from " +:+ dA)]
           (inl ValueError)) /\
  (is_Some (dirs fs !! dA) /\ is_Some (dirs fs !! dB) <->
     exists self, outcome (BinaryScan_init fs dA stA dB stB k) = inr self) /\
  (forall (dd : gmap string dataset_cfg) bs r w gt sh it itd,
     dd !! "dataset_A"%string = Some (DatasetCfg dA stA) ->
     size dd <> 2%nat -> dirs fs !! dA = None ->
     Loader_init fs dd bs r w gt sh k it itd = raise ValueError).
Proof.
  assert (HA : dirs fs !! dA = None -> UnaryScan_init fs dA stA k = raise ValueError)
    by apply UnaryScan_init_missing.
  assert (HU : forall d st, is_Some (dirs fs !! d) <->
            exists self, outcome (UnaryScan_init fs d st k) = inr self).
  { intros d st. split.
    - intros [found Hf]. destruct (UnaryScan_init_found fs d st k found Hf)
        as (self & Heq). exists self. by rewrite Heq.
    - intros [self Hs]. destruct (dirs fs !! d) eqn:E; [eauto | ].
      by rewrite UnaryScan_init_missing in Hs. }
  split; [exact HA | ]. split; [apply HU | ].
  split; [ | split; [ | split]].
  - intros H. unfold BinaryScan_init. by rewrite HA.
  - intros [found Hf] HB. unfold BinaryScan_init.
    destruct (UnaryScan_init_found fs dA stA k found Hf) as (self & Heq).
    rewrite Heq. by rewrite UnaryScan_init_missing.
  - split.
    + intros [[fa Hfa] [fb Hfb]]. unfold BinaryScan_init.
      destruct (UnaryScan_init_found fs dA stA k fa Hfa) as (a & Ha).
      destruct (UnaryScan_init_found fs dB stB k fb Hfb) as (b & Hb).
      rewrite Ha, Hb. eexists. reflexivity.
    + intros [self Hs]. unfold BinaryScan_init in Hs.
      apply bind_inr in Hs as (a & Ha & Hs).
      apply bind_inr in Hs as (b & Hb & Hs).
      split; [apply (HU dA stA) | apply (HU dB stB)]; eauto.
  - intros dd bs r w gt sh it itd Hdd Hsz Hmiss.
    unfold Loader_init, Loader_dataset.
    rewrite bool_decide_eq_false_2 by done.
    unfold lookup_key. rewrite Hdd. simpl. by rewrite HA.
Qed.

Lemma missing_directory_fatal_witness :
  dirs fs_ten !! "B"%string = None /\
  is_Some (dirs fs_ten !! "A"%string) /\
  BinaryScan_init fs_ten "B" stats_no_rgb "A" stats_no_rgb (-1) = raise ValueError /\
  outcome (BinaryScan_init fs_ten "A" stats_no_rgb "B" stats_no_rgb (-1))
    = inl ValueError.
Proof.
  assert (HB : dirs fs_ten !! "B"%string = None) by reflexivity.
  assert (HA : is_Some (dirs fs_ten !! "A"%string)) by (eexists; reflexivity).
  destruct (missing_directory_fatal fs_ten "B" "A" stats_no_rgb stats_no_rgb (-1))
    as (_ & _ & H1 & _).
  destruct (missing_directory_fatal fs_ten "A" "B" stats_no_rgb stats_no_rgb (-1))
    as (_ & _ & _ & H2 & _).
  split; [exact HB | ]. split; [exact HA | ]. split; [exact (H1 HB) | ].
  by rewrite (H2 HA HB).
Defined.

(** *** Indexed access: the index *)

Lemma getitem_out_of_range {A} (l : list A) (i : Z) :
  i < - Z.of_nat (length l) \/ Z.of_nat (length l) <= i ->
  getitem l i = raise IndexError.
Proof.
  intros H. unfold getitem, norm_index.
  rewrite !bool_decide_eq_false_2 by lia. done.
Qed.

Lemma getitem_negative {A} (l : list A) (i : Z) :
  - Z.of_nat (length l) <= i < 0 -> getitem l i = getitem l (i + Z.of_nat (length l)).
Proof.
  intros H. unfold getitem, norm_index.
  rewrite (bool_decide_eq_false_2 (0 <= i < _)) by lia.
  rewrite (bool_decide_eq_true_2 (- _ <= i < 0)) by lia.
  rewrite (bool_decide_eq_true_2 (0 <= i + _ < _)) by lia. done.
Qed.

(** X3: the index of a sample.  An index outside of [-n, n), for a dataset
    of [n] files, is an [IndexError]; a negative index inside counts from
    the end, and reads what the index plus [n] reads. *)
Theorem unary_getitem_index (fs : filesystem) (self : UnaryScan) (index : Z) :
  let n := UnaryScan_len self in
  (index < - n \/ n <= index -> UnaryScan_getitem fs self index = raise IndexError) /\
  (- n <= index < 0 ->
     UnaryScan_getitem fs self index = UnaryScan_getitem fs self (index + n)).
Proof.
  intros n. unfold n, UnaryScan_len, UnaryScan_getitem. split; intros H.
  - by rewrite getitem_out_of_range.
  - by rewrite getitem_negative.
Qed.

Lemma unary_getitem_index_witness :
  (2 <= 2) /\ (- 2 <= -1 < 0) /\
  UnaryScan_getitem fs_scans unary_scans 2 = raise IndexError /\
  UnaryScan_getitem fs_scans unary_scans (-1) = UnaryScan_getitem fs_scans unary_scans 1.
Proof.
  destruct (unary_getitem_index fs_scans unary_scans 2) as [H1 _].
  destruct (unary_getitem_index fs_scans unary_scans (-1)) as [_ H2].
  split; [lia | ]. split; [lia | ].
  split; [apply H1; right | apply H2]; unfold UnaryScan_len, unary_scans; simpl; lia.
Defined.

(** *** Indexed access: scans that cannot be read *)

Lemma row_get_none (row : list fval) (m : list bool) :
  (forall c b, m !! c = Some b -> b = false) -> row_get row m = [].
Proof.
  revert m. induction row as [ | x row IH]; intros [ | b m] H; try done.
  simpl. rewrite (H 0%nat b eq_refl). apply IH.
  intros c b' Hc. by apply (H (S c)).
Qed.

Lemma mask_get_none (g : list (list fval)) (m : list (list bool)) :
  (forall r c b, at2 m r c = Some b -> b = false) -> mask_get g m = [].
Proof.
  revert m. induction g as [ | row g IH]; intros [ | mrow m] H; try done.
  simpl. rewrite row_get_none.
  - apply IH. intros r c b Hb. by apply (H (S r) c).
  - intros c b Hb. by apply (H 0%nat c).
Qed.

Lemma scan_channels_lt_6 {A} (a : list A) :
  (length a < 6)%nat -> getitem a 5 = raise IndexError.
Proof. intros H. apply getitem_out_of_range. lia. Qed.

Lemma normalize_channel_empty (bm : list (list bool))
    (proj : list (list (list fval))) (i : nat) (g : list (list fval)) :
  proj !! i = Some g -> mask_get g bm = [] ->
  normalize_channel bm proj i = raise ValueError.
Proof.
  intros Hg Hsel. unfold normalize_channel.
  rewrite (getitem_nat _ i g Hg), bind_ret_l, Hsel. reflexivity.
Qed.

(** X4: the scans that cannot be read as a sample.  For a file that is
    found and loaded: an array of less than six channels is an
    [IndexError] (the mask is channel 5); an array whose mask selects no
    pixel is a [ValueError] (the minimum of no values); and for a scan with
    a valid pixel, a sensor description without the key [have_rgb] is a
    [KeyError]. *)
Theorem unary_getitem_failures (fs : filesystem) (self : UnaryScan)
    (index : Z) (path : string) (a : list (list (list Q)))
    (Hidx : getitem (scan_file_names self) index = ret path)
    (Hfile : arrays fs !! path = Some a) :
  ((length a < 6)%nat -> UnaryScan_getitem fs self index = raise IndexError) /\
  ((6 <= length a)%nat ->
   (forall r c m, pixel a 5 r c = Some m -> ~ (m == 1)%Q) ->
   UnaryScan_getitem fs self index = raise ValueError) /\
  (forall C H W,
     has_shape a C H W -> (exists r c, valid_at a r c) ->
     data_stats self !! "have_rgb"%string = None ->
     UnaryScan_getitem fs self index = raise KeyError).
Proof.
  assert (Hload : np_load fs path = ret (map (map (map Fin)) a))
    by exact (np_load_arrays _ _ _ Hfile).
  split; [ | split].
  - intros Hlen. unfold UnaryScan_getitem.
    rewrite Hidx, bind_ret_l, Hload, bind_ret_l.
    rewrite scan_channels_lt_6 by (by rewrite length_map). done.
  - intros Hlen Hnone.
    destruct a as [ | c0 [ | c1 [ | c2 [ | c3 [ | c4 [ | c5 rest]]]]]];
      simpl in Hlen; try lia.
    unfold UnaryScan_getitem.
    rewrite Hidx, bind_ret_l, Hload, bind_ret_l.
    cbn [map]. change 5 with (Z.of_nat 5).
    rewrite (getitem_nat _ 5 (map (map Fin) c5)) by reflexivity.
    rewrite bind_ret_l. fold (valid_mask (map (map Fin) c5)).
    cbn [range seq for_].
    rewrite (normalize_channel_empty _ _ 0 (map (map Fin) c0)); [reflexivity | done | ].
    apply mask_get_none.
    intros r c b Hb. unfold valid_mask in Hb. rewrite !at2_map in Hb.
    destruct (at2 c5 r c) as [m | ] eqn:Hm; [ | done].
    injection Hb as <-. simpl.
    destruct (Qeq_bool m 1) eqn:E; [ | done].
    apply Qeq_bool_iff in E. by destruct (Hnone r c m).
  - intros C H W Hshape (r0 & c0' & m0 & Hm0 & Hm1) Hrgb.
    assert (H5 : exists c5, a !! 5%nat = Some c5).
    { unfold pixel in Hm0. destruct (a !! 5%nat) as [c5 | ]; [eauto | done]. }
    destruct H5 as [c5 H5].
    destruct (scan_six_channels a c5 H5) as (c0 & c1 & c2 & c3 & c4 & rest & ->).
    destruct Hshape as [HC Hsh].
    apply Forall_cons in Hsh as [S0 Hsh]. apply Forall_cons in Hsh as [S1 Hsh].
    apply Forall_cons in Hsh as [S2 Hsh]. apply Forall_cons in Hsh as [S3 Hsh].
    apply Forall_cons in Hsh as [S4 Hsh]. apply Forall_cons in Hsh as [S5 Srest].
    unfold pixel in Hm0. simpl in Hm0.
    destruct (normalize_loop (valid_mask (map (map Fin) c5))
                (map (map Fin) c0) (map (map Fin) c1) (map (map Fin) c2)
                (map (map Fin) c3) (map (map Fin) c4)
                (map (map Fin) c5 :: map (map (map Fin)) rest)
                (valid_nonempty c0 c5 H W _ _ _ S0 S5 Hm0 Hm1)
                (valid_nonempty c1 c5 H W _ _ _ S1 S5 Hm0 Hm1)
                (valid_nonempty c2 c5 H W _ _ _ S2 S5 Hm0 Hm1)
                (valid_nonempty c3 c5 H W _ _ _ S3 S5 Hm0 Hm1)
                (valid_nonempty c4 c5 H W _ _ _ S4 S5 Hm0 Hm1))
      as (N0 & N1 & N2 & N3 & N4 & _ & _ & _ & _ & _ & Hloop).
    unfold UnaryScan_getitem.
    rewrite Hidx, bind_ret_l, Hload, bind_ret_l.
    cbn [map]. change 5 with (Z.of_nat 5).
    rewrite (getitem_nat _ 5 (map (map Fin) c5)) by reflexivity.
    rewrite bind_ret_l. fold (valid_mask (map (map Fin) c5)).
    rewrite Hloop, bind_ret_l.
    unfold lookup_key. rewrite Hrgb. reflexivity.
Qed.

(** *** Indexed access: the colour channels *)

Lemma rescaled_bound (x : Q) :
  (0 <= x <= 255)%Q ->
  fsub (fdiv (Fin x) (Fin (255 # 2))) (Fin 1) = Fin (x / (255 # 2) + - (1)) /\
  (-1 <= x / (255 # 2) + - (1) <= 1)%Q.
Proof.
  intros [H0 H1]. split; [reflexivity | ].
  assert (Heq : (x / (255 # 2) + - (1) == x * (2 # 255) - 1)%Q) by field.
  rewrite Heq. split; lra.
Qed.

(** X5: the colour channels of a sample.  For a scan of shape (C, H, W)
    with a valid pixel and a mask of zeros and ones: when [have_rgb] is
    false, no colours are returned; when it is true, the channels 6 to 8
    that the scan has are returned, and for raw colours from 0 to 255
    every pixel of them lies between -1 and 1 where the mask is one, and
    is zero where the mask is zero. *)
Theorem rgb_rescaled_and_masked (fs : filesystem) (self : UnaryScan)
    (index : Z) (path : string) (a : list (list (list Q))) (hv : yamlval)
    (C H W : nat)
    (Hidx : getitem (scan_file_names self) index = ret path)
    (Hfile : arrays fs !! path = Some a)
    (Hrgb : data_stats self !! "have_rgb"%string = Some hv)
    (Hshape : has_shape a C H W)
    (Hvalid : exists r c, valid_at a r c)
    (Hbin : binary_mask a)
    (Hraw : forall ch r c v, (6 <= ch < 9)%nat -> pixel a ch r c = Some v ->
              (0 <= v <= 255)%Q) :
  exists s, UnaryScan_getitem fs self index = ret s /\
    (truthy hv = false -> proj_rgb s = None) /\
    (truthy hv = true ->
     exists rgb, proj_rgb s = Some rgb /\
       length rgb = Nat.min 3 (C - 6) /\
       forall ch r c v, pixel rgb ch r c = Some v ->
         pixel_ok v (pixel (proj_mask s) 0 r c)).
Proof.
  destruct Hvalid as (r0 & c0' & m0 & Hm0 & Hm1).
  assert (H5 : exists c5, a !! 5%nat = Some c5).
  { unfold pixel in Hm0. destruct (a !! 5%nat) as [c5 | ]; [eauto | done]. }
  destruct H5 as [c5 H5].
  destruct (scan_six_channels a c5 H5) as (c0 & c1 & c2 & c3 & c4 & rest & ->).
  destruct Hshape as [HC Hsh].
  apply Forall_cons in Hsh as [S0 Hsh]. apply Forall_cons in Hsh as [S1 Hsh].
  apply Forall_cons in Hsh as [S2 Hsh]. apply Forall_cons in Hsh as [S3 Hsh].
  apply Forall_cons in Hsh as [S4 Hsh]. apply Forall_cons in Hsh as [S5 Srest].
  unfold pixel in Hm0. simpl in Hm0.
  assert (Hload : np_load fs path
                  = ret (map (map Fin) c0 :: map (map Fin) c1 :: map (map Fin) c2
                         :: map (map Fin) c3 :: map (map Fin) c4
                         :: map (map Fin) c5 :: map (map (map Fin)) rest)).
  { exact (np_load_arrays _ _ _ Hfile). }
  destruct (getitem_explicit fs self index path hv _ _ _ _ _ _ _ Hidx Hload Hrgb
              (valid_nonempty c0 c5 H W _ _ _ S0 S5 Hm0 Hm1)
              (valid_nonempty c1 c5 H W _ _ _ S1 S5 Hm0 Hm1)
              (valid_nonempty c2 c5 H W _ _ _ S2 S5 Hm0 Hm1)
              (valid_nonempty c3 c5 H W _ _ _ S3 S5 Hm0 Hm1)
              (valid_nonempty c4 c5 H W _ _ _ S4 S5 Hm0 Hm1))
    as (N0 & N1 & N2 & N3 & N4 & _ & _ & _ & _ & _ & Heq).
  eexists. split; [exact Heq | ]. cbn [proj_rgb proj_mask].
  split; [by intros -> | ]. intros ->.
  eexists. split; [reflexivity | ]. split.
  { rewrite length_map, length_take, length_map. simpl in HC. lia. }
  intros ch r c v Hv.
  change (pixel [upsampled (map (map Fin) c5)] 0 r c)
    with (at2 (upsampled (map (map Fin) c5)) r c).
  unfold pixel in Hv. rewrite list_lookup_fmap in Hv.
  destruct (decide (ch < 3)%nat) as [Hch | Hch].
  2:{ rewrite lookup_take_ge in Hv by lia. done. }
  rewrite lookup_take_lt in Hv by done.
  rewrite list_lookup_fmap in Hv.
  destruct (rest !! ch) as [craw | ] eqn:Hcraw; [ | done]. simpl in Hv.
  apply at2_zip_with in Hv as (x' & y' & Hx' & Hy' & ->).
  rewrite Hy'. rewrite at2_upsampled in Hx', Hy'.
  unfold rescaled in Hx'. rewrite !at2_map in Hx'. rewrite at2_map in Hy'.
  destruct (at2 c5 (r / 4) c) as [mq | ] eqn:Hmq; [ | done].
  destruct (at2 craw (r / 4) c) as [x0 | ] eqn:Hx0; [ | done].
  injection Hy' as <-. injection Hx' as <-.
  destruct (rescaled_bound x0) as (_ & Hrange).
  { apply (Hraw (6 + ch)%nat (r / 4)%nat c); [lia | ].
    unfold pixel. change ((c0 :: c1 :: c2 :: c3 :: c4 :: c5 :: rest) !! (6 + ch)%nat)
      with (rest !! ch). by rewrite Hcraw. }
  set (q := (x0 / (255 # 2) + - (1))%Q) in *.
  cbn [fmul]. exists (q * mq)%Q, mq.
  split; [done | ]. split; [done | ].
  destruct (Hbin (r / 4)%nat c mq) as [E | E].
  { unfold pixel. simpl. exact Hmq. }
  - right. split; [done | ]. rewrite E. ring.
  - left. split; [done | ].
    assert (Heq' : (q * mq == q)%Q) by (rewrite E; ring).
    by rewrite Heq'.
Qed.

(** *** Indexed access: the extremes of the normalisation *)

Lemma fmin2_either (a b : fval) : fmin2 a b = a \/ fmin2 a b = b.
Proof.
  destruct a, b; simpl; auto;
    match goal with |- context [if ?c then _ else _] => destruct c end; auto.
Qed.

Lemma fmax2_either (a b : fval) : fmax2 a b = a \/ fmax2 a b = b.
Proof.
  destruct a, b; simpl; auto;
    match goal with |- context [if ?c then _ else _] => destruct c end; auto.
Qed.

Lemma foldl_either (f : fval -> fval -> fval) (l : list fval) (x : fval) :
  (forall a b, f a b = a \/ f a b = b) -> foldl f x l ∈ x :: l.
Proof.
  intros Hf. revert x. induction l as [ | y l IH]; intros x; [set_solver | ].
  simpl. specialize (IH (f x y)). apply elem_of_cons in IH as [IH | IH].
  - rewrite IH. destruct (Hf x y) as [-> | ->].
    + apply elem_of_cons. by left.
    + apply elem_of_cons. right. apply elem_of_cons. by left.
  - apply elem_of_cons. right. apply elem_of_cons. by right.
Qed.

Lemma amin_amax_elem (l : list fval) (Min Max : fval) :
  amin l = ret Min -> amax l = ret Max -> Min ∈ l /\ Max ∈ l.
Proof.
  destruct l as [ | x l]; [done | ]. simpl. intros [= <-] [= <-].
  split; apply foldl_either; [apply fmin2_either | apply fmax2_either].
Qed.

Lemma row_get_position (row : list fval) (m : list bool) (v : fval) :
  v ∈ row_get row m -> exists c, row !! c = Some v /\ m !! c = Some true.
Proof.
  revert m. induction row as [ | x row IH]; intros [ | b m] Hin;
    try (by apply elem_of_nil in Hin).
  simpl in Hin. destruct b.
  - apply elem_of_cons in Hin as [-> | Hin]; [by exists 0%nat | ].
    destruct (IH m Hin) as (c & Hc & Hm). by exists (S c).
  - destruct (IH m Hin) as (c & Hc & Hm). by exists (S c).
Qed.

Lemma mask_get_position (g : list (list fval)) (m : list (list bool)) (v : fval) :
  v ∈ mask_get g m -> exists r c, at2 g r c = Some v /\ at2 m r c = Some true.
Proof.
  revert m. induction g as [ | row g IH]; intros [ | mrow m] Hin;
    try (by apply elem_of_nil in Hin).
  simpl in Hin. apply elem_of_app in Hin as [Hin | Hin].
  - destruct (row_get_position row mrow v Hin) as (c & Hc & Hm).
    by exists 0%nat, c.
  - destruct (IH m Hin) as (r & c & Hc & Hm). by exists (S r), c.
Qed.

Lemma normalized_extremes (a b : Q) :
  (a < b)%Q ->
  (exists lo, normalized (Fin a) (Fin b) (Fin a) = Fin lo /\ (lo == -1)%Q) /\
  (exists hi, normalized (Fin a) (Fin b) (Fin b) = Fin hi /\ (hi == 1)%Q).
Proof.
  intros Hab. unfold normalized. cbn [fsub fneg fadd fdiv]. unfold Qzero.
  destruct (Qeq_bool (b + - a) 0) eqn:E.
  { apply Qeq_bool_eq in E. lra. }
  apply Qeq_bool_neq in E.
  change (Qeq_bool (1 # 2) 0) with false. cbv iota.
  split; eexists; (split; [reflexivity | ]); field; lra.
Qed.

Lemma valid_mask_position (c5 : list (list Q)) (r c : nat) :
  at2 (valid_mask (map (map Fin) c5)) r c = Some true ->
  exists mq, at2 c5 r c = Some mq /\ (mq == 1)%Q.
Proof.
  unfold valid_mask. rewrite !at2_map.
  destruct (at2 c5 r c) as [mq | ]; [ | done]. simpl. intros [= E].
  exists mq. split; [done | ]. by apply Qeq_bool_iff.
Qed.

Lemma at2_upsampled_first {A} (g : list (list A)) (r c : nat) :
  at2 (upsampled g) (4 * r) c = at2 g r c.
Proof.
  rewrite at2_upsampled. by rewrite Nat.mul_comm, Nat.div_mul by lia.
Qed.

(** In a normalised channel that takes two values over the valid pixels,
    a valid pixel holds -1 and a valid pixel holds 1. *)
Lemma channel_extremes (ci c5 : list (list Q)) (N : list (list fval)) :
  let g5 := map (map Fin) c5 in
  norm_of (valid_mask g5) (map (map Fin) ci) N ->
  (exists r1 c1 r2 c2 m1 m2 x y,
     at2 c5 r1 c1 = Some m1 /\ (m1 == 1)%Q /\
     at2 c5 r2 c2 = Some m2 /\ (m2 == 1)%Q /\
     at2 ci r1 c1 = Some x /\ at2 ci r2 c2 = Some y /\ ~ (x == y)%Q) ->
  exists rlo clo rhi chi lo hi mlo mhi,
    at2 (masked (upsampled N) (upsampled g5)) (4 * rlo) clo = Some (Fin lo) /\
    (lo == -1)%Q /\
    at2 (masked (upsampled N) (upsampled g5)) (4 * rhi) chi = Some (Fin hi) /\
    (hi == 1)%Q /\
    at2 c5 rlo clo = Some mlo /\ (mlo == 1)%Q /\
    at2 c5 rhi chi = Some mhi /\ (mhi == 1)%Q.
Proof.
  intros g5 (Min & Max & Hmin & Hmax & ->) Hdist.
  set (bm := valid_mask g5) in *. set (gi := map (map Fin) ci) in *.
  destruct (amin_amax_elem _ _ _ Hmin Hmax) as [Hinmin Hinmax].
  destruct (amin_amax_fin _ Min Max (mask_get_fin ci bm) Hmin Hmax)
    as (a & b & -> & -> & Hbounds).
  assert (Hab : (a < b)%Q).
  { destruct Hdist as (r1 & c1 & r2 & c2 & m1 & m2 & x & y &
                        Hm1 & H1 & Hm2 & H2 & Hx & Hy & Hne).
    pose proof (Hbounds x (valid_pixel_selected _ _ _ _ _ _ Hx Hm1 H1)) as [Hax Hxb].
    pose proof (Hbounds y (valid_pixel_selected _ _ _ _ _ _ Hy Hm2 H2)) as [Hay Hyb].
    apply Qnot_le_lt. intros Hba. apply Hne. lra. }
  destruct (normalized_extremes a b Hab) as [(lo & Hlo & Elo) (hi & Hhi & Ehi)].
  destruct (mask_get_position _ _ _ Hinmin) as (rlo & clo & Hglo & Hblo).
  destruct (mask_get_position _ _ _ Hinmax) as (rhi & chi & Hghi & Hbhi).
  destruct (valid_mask_position c5 rlo clo Hblo) as (mlo & Hmlo & E1lo).
  destruct (valid_mask_position c5 rhi chi Hbhi) as (mhi & Hmhi & E1hi).
  assert (Hout : forall r c v m q, at2 gi r c = Some v -> at2 bm r c = Some true ->
            at2 c5 r c = Some m ->
            normalized (Fin a) (Fin b) v = Fin q ->
            at2 (masked (upsampled (mask_apply (normalized (Fin a) (Fin b)) gi bm))
                   (upsampled g5)) (4 * r) c = Some (Fin (q * m))).
  { intros r c v m q Hv Hb Hm Hq.
    assert (H1 : at2 (mask_apply (normalized (Fin a) (Fin b)) gi bm) r c
                 = Some (Fin q)).
    { unfold mask_apply. rewrite (at2_zip_with_Some _ _ _ _ _ v true Hv Hb).
      cbn beta iota. by rewrite Hq. }
    unfold masked.
    rewrite (at2_zip_with_Some fmul _ _ _ _ (Fin q) (Fin m)); [reflexivity | | ].
    - by rewrite at2_upsampled_first.
    - rewrite at2_upsampled_first. unfold g5. by rewrite at2_map, Hm. }
  exists rlo, clo, rhi, chi, (lo * mlo)%Q, (hi * mhi)%Q, mlo, mhi.
  split; [by eapply Hout | ].
  split; [rewrite E1lo, Elo; reflexivity | ].
  split; [by eapply Hout | ].
  split; [rewrite E1hi, Ehi; reflexivity | ]. done.
Qed.

(** X6: the normalisation reaches both ends of its range.  For a stored
    scan of finite values in which each of the first five channels takes
    two different values over the valid pixels, every returned channel
    [i < 5] holds -1 at a valid pixel and 1 at a valid pixel (in the first
    of the four rows that stand for the row of the pixel): the minimum
    over the valid pixels is sent to -1 and the maximum to 1. *)
Theorem normalization_reaches_extremes (fs : filesystem) (self : UnaryScan)
    (index : Z) (path : string) (a : list (list (list Q))) (hv : yamlval)
    (i : nat)
    (Hidx : getitem (scan_file_names self) index = ret path)
    (Hfile : arrays fs !! path = Some a)
    (Hrgb : data_stats self !! "have_rgb"%string = Some hv)
    (Hval : forall i, (i < 5)%nat -> two_valid_values a i)
    (Hi : (i < 5)%nat) :
  exists s g, UnaryScan_getitem fs self index = ret s /\
    returned_channel s i = Some g /\
    exists rlo clo rhi chi lo hi,
      valid_at a rlo clo /\ valid_at a rhi chi /\
      at2 g (4 * rlo) clo = Some (Fin lo) /\ (lo == -1)%Q /\
      at2 g (4 * rhi) chi = Some (Fin hi) /\ (hi == 1)%Q.
Proof.
  assert (H5 : exists c5, a !! 5%nat = Some c5).
  { destruct (Hval 0%nat) as (r1 & c1 & _ & _ & _ & _ & (m & Hm & _) & _); [lia | ].
    unfold pixel in Hm. destruct (a !! 5%nat) as [c5 | ]; [eauto | done]. }
  destruct H5 as [c5 H5].
  destruct (scan_six_channels a c5 H5) as (c0 & c1 & c2 & c3 & c4 & rest & ->).
  pose proof (two_values_channel c0 c5 (c0 :: c1 :: c2 :: c3 :: c4 :: c5 :: rest) 0
                eq_refl H5 (Hval 0%nat ltac:(lia))) as D0.
  pose proof (two_values_channel c1 c5 (c0 :: c1 :: c2 :: c3 :: c4 :: c5 :: rest) 1
                eq_refl H5 (Hval 1%nat ltac:(lia))) as D1.
  pose proof (two_values_channel c2 c5 (c0 :: c1 :: c2 :: c3 :: c4 :: c5 :: rest) 2
                eq_refl H5 (Hval 2%nat ltac:(lia))) as D2.
  pose proof (two_values_channel c3 c5 (c0 :: c1 :: c2 :: c3 :: c4 :: c5 :: rest) 3
                eq_refl H5 (Hval 3%nat ltac:(lia))) as D3.
  pose proof (two_values_channel c4 c5 (c0 :: c1 :: c2 :: c3 :: c4 :: c5 :: rest) 4
                eq_refl H5 (Hval 4%nat ltac:(lia))) as D4.
  assert (Hload : np_load fs path
                  = ret (map (map Fin) c0 :: map (map Fin) c1 :: map (map Fin) c2
                         :: map (map Fin) c3 :: map (map Fin) c4
                         :: map (map Fin) c5 :: map (map (map Fin)) rest)).
  { exact (np_load_arrays _ _ _ Hfile). }
  destruct (getitem_explicit fs self index path hv _ _ _ _ _ _ _ Hidx Hload Hrgb
              (two_values_nonempty _ _ D0) (two_values_nonempty _ _ D1)
              (two_values_nonempty _ _ D2) (two_values_nonempty _ _ D3)
              (two_values_nonempty _ _ D4))
    as (N0 & N1 & N2 & N3 & N4 & Hn0 & Hn1 & Hn2 & Hn3 & Hn4 & Heq).
  assert (Hone : forall ci N,
            norm_of (valid_mask (map (map Fin) c5)) (map (map Fin) ci) N ->
            (exists r1 c1 r2 c2 m1 m2 x y,
               at2 c5 r1 c1 = Some m1 /\ (m1 == 1)%Q /\
               at2 c5 r2 c2 = Some m2 /\ (m2 == 1)%Q /\
               at2 ci r1 c1 = Some x /\ at2 ci r2 c2 = Some y /\ ~ (x == y)%Q) ->
            exists rlo clo rhi chi lo hi,
              valid_at (c0 :: c1 :: c2 :: c3 :: c4 :: c5 :: rest) rlo clo /\
              valid_at (c0 :: c1 :: c2 :: c3 :: c4 :: c5 :: rest) rhi chi /\
              at2 (masked (upsampled N) (upsampled (map (map Fin) c5)))
                (4 * rlo) clo = Some (Fin lo) /\ (lo == -1)%Q /\
              at2 (masked (upsampled N) (upsampled (map (map Fin) c5)))
                (4 * rhi) chi = Some (Fin hi) /\ (hi == 1)%Q).
  { intros ci N HN HD.
    destruct (channel_extremes ci c5 N HN HD)
      as (rlo & clo & rhi & chi & lo & hi & mlo & mhi &
          Hlo & Elo & Hhi & Ehi & Hmlo & E1 & Hmhi & E2).
    exists rlo, clo, rhi, chi, lo, hi.
    split; [by exists mlo | ]. split; [by exists mhi | ]. done. }
  destruct i as [ | [ | [ | [ | [ | i]]]]]; [ | | | | | lia];
    eexists; eexists; (split; [exact Heq | ]); (split; [reflexivity | ]).
  - by apply (Hone c0 N0).
  - by apply (Hone c1 N1).
  - by apply (Hone c2 N2).
  - by apply (Hone c3 N3).
  - by apply (Hone c4 N4).
Qed.

Lemma normalization_reaches_extremes_witness :
  (forall i, (i < 5)%nat -> two_valid_values scan_1x2 i) /\ (3 < 5)%nat /\
  exists s g, UnaryScan_getitem fs_scans unary_scans 0 = ret s /\
    returned_channel s 3 = Some g /\
    exists rlo clo rhi chi lo hi,
      valid_at scan_1x2 rlo clo /\ valid_at scan_1x2 rhi chi /\
      at2 g (4 * rlo) clo = Some (Fin lo) /\ (lo == -1)%Q /\
      at2 g (4 * rhi) chi = Some (Fin hi) /\ (hi == 1)%Q.
Proof.
  assert (Hval : forall i, (i < 5)%nat -> two_valid_values scan_1x2 i).
  { intros i Hi.
    destruct i as [ | [ | [ | [ | [ | i]]]]]; [ | | | | | lia];
      (eexists 0%nat, 0%nat, 0%nat, 1%nat, _, _;
       split; [eexists; split; [reflexivity | reflexivity] | ];
       split; [eexists; split; [reflexivity | reflexivity] | ];
       split; [reflexivity | ]; split; [reflexivity | ];
       intros E; vm_compute in E; discriminate E). }
  split; [exact Hval | ]. split; [lia | ].
  apply (normalization_reaches_extremes fs_scans unary_scans 0 "A/0.npy"
           scan_1x2 (YBool false) 3);
    [reflexivity | reflexivity | reflexivity | exact Hval | lia].
Defined.

(** *** The paired dataset: the two indices *)

(** X7: the two indices that the paired dataset reads.  With [sizeA = 0]
    the access is a [ZeroDivisionError]; with [sizeB <= 0] (and [sizeA]
    not zero) it is a [ValueError] of the random index.  With both sizes
    positive, the index into A is the given index modulo [sizeA], which
    lies in [0, sizeA), is the index itself when that lies there, and is
    the same for all indices that differ by a multiple of [sizeA]; the
    index into B lies in [0, sizeB). *)
Theorem binary_scan_indices_in_range (self : BinaryScan) (index rnd : Z) :
  (sizeA self = 0 -> BinaryScan_indices self index rnd = raise ZeroDivisionError) /\
  (sizeA self <> 0 -> sizeB self <= 0 ->
     BinaryScan_indices self index rnd = raise ValueError) /\
  (0 < sizeA self -> 0 < sizeB self ->
   exists iA iB,
     BinaryScan_indices self index rnd = ret (iA, iB) /\
     iA = index mod sizeA self /\
     0 <= iA < sizeA self /\ 0 <= iB < sizeB self /\
     (0 <= index < sizeA self -> iA = index) /\
     forall k, exists iB',
       BinaryScan_indices self (index + k * sizeA self) rnd = ret (iA, iB')).
Proof.
  unfold BinaryScan_indices, pymod, randint.
  split; [ | split].
  - intros ->. reflexivity.
  - intros HA HB. rewrite (bool_decide_eq_false_2 (sizeA self = 0)) by done.
    rewrite bind_ret_l. by rewrite (bool_decide_eq_true_2 (sizeB self <= 0)).
  - intros HA HB.
    rewrite (bool_decide_eq_false_2 (sizeA self = 0)) by lia.
    rewrite (bool_decide_eq_false_2 (sizeB self <= 0)) by lia.
    exists (index mod sizeA self), (rnd mod sizeB self).
    split; [reflexivity | ]. split; [reflexivity | ].
    split; [apply Z.mod_pos_bound; lia | ].
    split; [apply Z.mod_pos_bound; lia | ].
    split; [intros H; by apply Z.mod_small | ].
    intros k. exists (rnd mod sizeB self).
    rewrite !bind_ret_l. by rewrite Z.mod_add by lia.
Qed.

Lemma binary_scan_indices_in_range_witness :
  let self := MkBinaryScan unary_scans unary_scans 3 2 in
  0 < sizeA self /\ 0 < sizeB self /\
  exists iA iB, BinaryScan_indices self (-1) 7 = ret (iA, iB) /\
    0 <= iA < 3 /\ 0 <= iB < 2.
Proof.
  intros self.
  destruct (binary_scan_indices_in_range self (-1) 7) as (_ & _ & H).
  destruct H as (iA & iB & Heq & _ & HA & HB & _); [simpl; lia | simpl; lia | ].
  split; [simpl; lia | ]. split; [simpl; lia | ].
  exists iA, iB. done.
Defined.

(** *** The paired dataset: the files that are read *)

Lemma UnaryScan_getitem_beyond (fs : filesystem) (self : UnaryScan) (i : Z) :
  UnaryScan_len self <= i -> UnaryScan_getitem fs self i = raise IndexError.
Proof.
  intros Hi. unfold UnaryScan_getitem.
  rewrite getitem_out_of_range; [reflexivity | ]. right. exact Hi.
Qed.

(** X27: the files that the paired dataset reads are chosen by the sizes
    of the two sensor descriptions.  For a paired dataset that was built
    with descriptions of [nA] and [nB] entries, both not empty: its length
    is the larger of [nA] and [nB]; an access reads dataset A at the index
    modulo [nA] and dataset B at a random index below [nB], so that files
    at later positions are never read; and an access whose index modulo
    [nA] is not below the number of files of A is an [IndexError].  With
    fewer files in A than entries in its description, the index that is
    the number of files lies below the length of the dataset and raises
    this error. *)
Theorem binary_scan_reads_by_stats (fs : filesystem) (dA dB : string)
    (stA stB : gmap string yamlval) (k : Z) (self : BinaryScan) (index rnd : Z)
    (Hinit : outcome (BinaryScan_init fs dA stA dB stB k) = inr self)
    (HA : (0 < size stA)%nat) (HB : (0 < size stB)%nat) :
  let nA := Z.of_nat (size stA) in
  let nB := Z.of_nat (size stB) in
  BinaryScan_len self = Z.max nA nB /\
  BinaryScan_getitem fs self index rnd
  = (a ← UnaryScan_getitem fs (datasetA self) (index mod nA);
     b ← UnaryScan_getitem fs (datasetB self) (rnd mod nB);
     ret (a, b)) /\
  (UnaryScan_len (datasetA self) <= index mod nA ->
   BinaryScan_getitem fs self index rnd = raise IndexError) /\
  (UnaryScan_len (datasetA self) < nA ->
   0 <= UnaryScan_len (datasetA self) < BinaryScan_len self /\
   BinaryScan_getitem fs self (UnaryScan_len (datasetA self)) rnd = raise IndexError).
Proof.
  intros nA nB.
  destruct (BinaryScan_init_sizes _ _ _ _ _ _ _ Hinit) as [HsA HsB].
  assert (Hget : forall i,
            BinaryScan_getitem fs self i rnd
            = (a ← UnaryScan_getitem fs (datasetA self) (i mod nA);
               b ← UnaryScan_getitem fs (datasetB self) (rnd mod nB);
               ret (a, b))).
  { intros i. unfold BinaryScan_getitem, BinaryScan_indices, pymod, randint.
    rewrite HsA, HsB. fold nA nB.
    rewrite (bool_decide_eq_false_2 (nA = 0)) by (unfold nA; lia).
    rewrite (bool_decide_eq_false_2 (nB <= 0)) by (unfold nB; lia).
    by rewrite !bind_ret_l. }
  assert (Hbeyond : forall i, UnaryScan_len (datasetA self) <= i mod nA ->
            BinaryScan_getitem fs self i rnd = raise IndexError).
  { intros i Hi. rewrite Hget.
    by rewrite (UnaryScan_getitem_beyond fs (datasetA self) _ Hi). }
  assert (Hlen : BinaryScan_len self = Z.max nA nB)
    by (unfold BinaryScan_len; by rewrite HsA, HsB).
  split; [exact Hlen | ]. split; [apply Hget | ]. split; [apply Hbeyond | ].
  intros Hfew. assert (H0 : 0 <= UnaryScan_len (datasetA self))
    by (unfold UnaryScan_len; lia).
  split; [lia | ]. apply Hbeyond. rewrite Z.mod_small by lia. lia.
Qed.

Lemma binary_scan_reads_by_stats_witness :
  (0 < size stats_four)%nat /\
  exists self,
    outcome (BinaryScan_init fs_three_two "A" stats_four "B" stats_four (-1)) = inr self /\
    UnaryScan_len (datasetA self) = 3 /\ BinaryScan_len self = 4 /\
    BinaryScan_getitem fs_three_two self 3 0 = raise IndexError.
Proof.
  assert (Hsize : (0 < size stats_four)%nat) by (vm_compute; lia).
  assert (Hinit : exists self,
            outcome (BinaryScan_init fs_three_two "A" stats_four "B" stats_four (-1))
            = inr self) by (eexists; vm_compute; reflexivity).
  destruct Hinit as [self Hinit].
  destruct (binary_scan_reads_by_stats fs_three_two "A" "B" stats_four stats_four (-1)
              self 3 0 Hinit Hsize Hsize) as (Hlen & _ & _ & Hfew).
  assert (HlenA : UnaryScan_len (datasetA self) = 3).
  { vm_compute in Hinit. injection Hinit as <-. reflexivity. }
  split; [exact Hsize | ]. exists self. split; [exact Hinit | ].
  split; [exact HlenA | ]. split; [rewrite Hlen; vm_compute; reflexivity | ].
  rewrite HlenA in Hfew. apply Hfew. vm_compute. reflexivity.
Defined.

(** *** The loader: the two splits, the dataset and the modes *)

(** X8: for every ratio and every number of samples, the validation
    indices followed by the training indices are the indices
    0, ..., n - 1 in order: no index is in both splits, none is left out,
    and the two sizes add up to n. *)
Theorem split_is_partition (r : Q) (n : Z) :
  val_indcs r n ++ train_indcs r n = seq 0 (Z.to_nat n) /\
  NoDup (val_indcs r n ++ train_indcs r n) /\
  (length (val_indcs r n) + length (train_indcs r n) = Z.to_nat n)%nat /\
  forall i, (i < Z.to_nat n)%nat ->
    ((i ∈ val_indcs r n) /\ (i ∉ train_indcs r n)) \/
    ((i ∉ val_indcs r n) /\ (i ∈ train_indcs r n)).
Proof.
  assert (Happ : val_indcs r n ++ train_indcs r n = seq 0 (Z.to_nat n)).
  { unfold val_indcs, train_indcs, slice_to, slice_from, range. apply take_drop. }
  assert (Hnd : NoDup (val_indcs r n ++ train_indcs r n)).
  { rewrite Happ. apply NoDup_seq. }
  split; [done | ]. split; [done | ]. split.
  { rewrite <- length_app, Happ. apply length_seq. }
  intros i Hi.
  assert (Hin : i ∈ val_indcs r n ++ train_indcs r n).
  { rewrite Happ. apply elem_of_seq. lia. }
  apply NoDup_app in Hnd as (_ & Hdisj & _).
  apply elem_of_app in Hin as [Hin | Hin].
  - left. split; [done | by apply Hdisj].
  - right. split; [ | done]. intros Hv. by apply (Hdisj i).
Qed.

Lemma split_is_partition_witness :
  (3 < Z.to_nat 10)%nat /\
  val_indcs (-(1 # 2)) 10 ++ train_indcs (-(1 # 2)) 10 = seq 0 10 /\
  (((3%nat ∈ val_indcs (-(1 # 2)) 10) /\ (3%nat ∉ train_indcs (-(1 # 2)) 10)) \/
   ((3%nat ∉ val_indcs (-(1 # 2)) 10) /\ (3%nat ∈ train_indcs (-(1 # 2)) 10))).
Proof.
  destruct (split_is_partition (-(1 # 2)) 10) as (Happ & _ & _ & Hin).
  assert (H3 : (3 < Z.to_nat 10)%nat) by (simpl; lia).
  split; [exact H3 | ]. split; [exact Happ | exact (Hin 3%nat H3)].
Defined.

(** X9: the dataset that the loader builds.  The configuration must hold
    [dataset_A], and with exactly two entries also [dataset_B]
    ([KeyError]).  With a number of entries other than two the dataset is
    the single one of [dataset_A], and the other entries are not looked
    at; with two entries it is the paired one of [dataset_A] and
    [dataset_B].  Which kind is built depends on the number of entries
    only. *)
Theorem loader_dataset_choice (fs : filesystem) (dd : gmap string dataset_cfg)
    (k : Z) :
  (dd !! "dataset_A"%string = None -> Loader_dataset fs dd k = raise KeyError) /\
  (size dd = 2%nat -> dd !! "dataset_B"%string = None ->
     Loader_dataset fs dd k = raise KeyError) /\
  (forall A, size dd <> 2%nat -> dd !! "dataset_A"%string = Some A ->
     Loader_dataset fs dd k
     = (d ← UnaryScan_init fs (cfg_data_dir A) (cfg_sensor A) k; ret (Unary d)) /\
     Loader_dataset fs dd k = Loader_dataset fs {[ "dataset_A"%string := A ]} k) /\
  (forall A B, size dd = 2%nat -> dd !! "dataset_A"%string = Some A ->
     dd !! "dataset_B"%string = Some B ->
     Loader_dataset fs dd k
     = (d ← BinaryScan_init fs (cfg_data_dir A) (cfg_sensor A)
              (cfg_data_dir B) (cfg_sensor B) k; ret (Binary d))) /\
  (forall d, outcome (Loader_dataset fs dd k) = inr d ->
     match d with
     | Binary _ => size dd = 2%nat
     | Unary _ => size dd <> 2%nat
     end).
Proof.
  unfold Loader_dataset, lookup_key.
  split; [ | split; [ | split; [ | split]]].
  - intros ->. by case_bool_decide.
  - intros Hsz HB. rewrite bool_decide_eq_true_2 by done. rewrite HB.
    by destruct (dd !! "dataset_A"%string).
  - intros A Hsz HA. rewrite bool_decide_eq_false_2 by done. rewrite HA.
    rewrite bind_ret_l. split; [reflexivity | ].
    rewrite bool_decide_eq_false_2 by (by rewrite map_size_singleton).
    rewrite lookup_singleton_eq. by rewrite bind_ret_l.
  - intros A B Hsz HA HB. rewrite bool_decide_eq_true_2 by done.
    rewrite HA, HB. by rewrite !bind_ret_l.
  - intros d Hd. case_bool_decide as Hsz.
    + apply bind_inr in Hd as (A & _ & Hd). apply bind_inr in Hd as (B & _ & Hd).
      apply bind_inr in Hd as (b & _ & Hd). simpl in Hd. by injection Hd as <-.
    + apply bind_inr in Hd as (A & _ & Hd).
      apply bind_inr in Hd as (u & _ & Hd). simpl in Hd. by injection Hd as <-.
Qed.

(** X10: the loaders of the two modes.  In training mode the training
    loader reads the training split with the given batch size, the given
    shuffling and [drop_last], the validation loader reads the validation
    split in order and keeps the last batch, and no test loader is set.
    In test mode only the test loader is set: on training data it is the
    validation loader of the training mode, otherwise it reads the whole
    dataset; and the shuffling flag has no effect in test mode. *)
Theorem loader_modes (d : dataset) (batch_size : Z) (r : Q) (workers : Z)
    (shuffle_train : bool)
    (Hbs : 0 < batch_size) (Hw : 0 <= workers) :
  (forall ld, outcome (Loader_split d batch_size r workers shuffle_train true true)
              = inr ld ->
     trainloader ld
       = Some (MkDataLoader (Subset d (train_indcs r (dataset_len d)))
                 batch_size shuffle_train workers true) /\
     validloader ld
       = Some (MkDataLoader (Subset d (val_indcs r (dataset_len d)))
                 batch_size false workers false) /\
     testloader ld = None /\
     Loader_split d batch_size r workers shuffle_train false true
     = ret (MkLoader None None (validloader ld))) /\
  (forall itd ld, outcome (Loader_split d batch_size r workers shuffle_train false itd)
                  = inr ld ->
     trainloader ld = None /\ validloader ld = None /\
     testloader ld
       = Some (MkDataLoader
                 (if itd then Subset d (val_indcs r (dataset_len d)) else Whole d)
                 batch_size false workers false)) /\
  (forall itd, Loader_split d batch_size r workers shuffle_train false itd
               = Loader_split d batch_size r workers (negb shuffle_train) false itd).
Proof.
  pose proof (fun sh it itd => Loader_split_tests d batch_size r workers sh it itd)
    as Heq. cbv zeta in Heq.
  assert (Ew : bool_decide (workers < 0) = false)
    by (apply bool_decide_eq_false_2; lia).
  assert (Eb : bool_decide (batch_size <= 0) = false)
    by (apply bool_decide_eq_false_2; lia).
  split; [ | split].
  - intros ld Hld. rewrite (Heq shuffle_train true true) in Hld.
    rewrite (Heq shuffle_train false true). rewrite Ew, Eb in Hld.
    rewrite Ew, Eb. cbn [negb andb] in Hld. cbn [andb].
    repeat match type of Hld with
           | context [if ?c then _ else _] =>
               destruct c; cbn [outcome raise ret] in Hld; try discriminate Hld
           end.
    by injection Hld as <-.
  - intros itd ld Hld. rewrite (Heq shuffle_train false itd) in Hld.
    rewrite Ew, Eb in Hld.
    repeat match type of Hld with
           | context [if ?c then raise _ else _] =>
               destruct c; cbn [outcome raise ret] in Hld; try discriminate Hld
           end.
    by injection Hld as <-.
  - intros itd. by rewrite !Heq.
Qed.

(** *** The label lookup table: what is stored and what is read *)

Lemma setitem_spec (lut : ndarray) (key : Z) (data : mapval) :
  match norm_index (alen lut) key with
  | None => setitem lut key data = raise IndexError
  | Some k =>
      (fits lut data /\
       exists lut', setitem lut key data = ret lut' /\
         alen lut' = alen lut /\
         cell_at lut' k = Some (stored_cell lut data) /\
         (forall d, fits lut' d <-> fits lut d) /\
         (forall d, stored_cell lut' d = stored_cell lut d)) \/
      (~ fits lut data /\ setitem lut key data = raise ValueError)
  end.
Proof.
  unfold setitem. destruct (norm_index (alen lut) key) as [k | ] eqn:Hk; [ | done].
  assert (Hlt : (k < alen lut)%nat).
  { unfold norm_index in Hk. repeat case_bool_decide; simplify_eq; lia. }
  destruct lut as [cells | nel rows], data as [v | l]; simpl in *.
  - left. split; [done | ]. eexists. split; [done | ]. simpl.
    rewrite length_insert, list_lookup_insert_eq by done. done.
  - right. split; [tauto | done].
  - left. split; [done | ]. eexists. split; [done | ]. simpl.
    rewrite length_insert, list_lookup_insert_eq by done. done.
  - case_bool_decide as Hl.
    + left. split; [by left | ]. eexists. split; [done | ]. simpl.
      rewrite length_insert, list_lookup_insert_eq by done. done.
    + destruct l as [ | v [ | w l]].
      * right. split; [ | done]. simpl. intros [? | ?]; [done | lia].
      * left. split; [by right | ]. eexists. split; [done | ]. simpl.
        rewrite length_insert, list_lookup_insert_eq by done. done.
      * right. split; [ | done]. simpl in *. intros [? | ?]; [done | lia].
Qed.

Lemma fill_lut_outcome (m : mapdict) (lut : ndarray) :
  ((exists lut', outcome (fill_lut lut m) = inr lut') <->
     Forall (fits_or_skipped lut) m) /\
  (forall e, outcome (fill_lut lut m) = inl e -> e = ValueError).
Proof.
  revert lut. induction m as [ | [key data] m IH]; intros lut.
  { split; [split; [constructor | by exists lut] | done]. }
  pose proof (setitem_spec lut key data) as Hs.
  destruct (norm_index (alen lut) key) as [k | ] eqn:Hk.
  - destruct Hs as [(Hfit & lut1 & Hset & Hlen & _ & Hfits & _) | [Hnfit Hset]].
    + rewrite (fill_lut_stored _ _ _ _ _ Hset).
      destruct (IH lut1) as [Hiff Herr]. split; [ | exact Herr].
      rewrite Hiff, Forall_cons. unfold fits_or_skipped at 2. simpl.
      assert (Hall : Forall (fits_or_skipped lut1) m <-> Forall (fits_or_skipped lut) m).
      { apply Forall_iff. intros [k' d']. unfold fits_or_skipped. simpl.
        by rewrite Hfits, Hlen. }
      rewrite Hall. tauto.
    + rewrite (fill_lut_value_error _ _ _ _ Hset). simpl. split.
      * split; [by intros [? ?] | ].
        intros Hall. apply Forall_cons in Hall as [[Hf | Hn] _]; [done | ].
        simpl in Hn. congruence.
      * by intros e [= <-].
  - rewrite (fill_lut_skipped _ _ _ _ Hk).
    destruct (IH lut) as [Hiff Herr].
    assert (Hout : outcome (print (WrongKey key);; fill_lut lut m)
                   = outcome (fill_lut lut m)).
    { unfold mbind, py_bind, bind. simpl. by destruct (outcome (fill_lut lut m)). }
    rewrite Hout. split; [ | exact Herr].
    rewrite Hiff, Forall_cons. unfold fits_or_skipped at 2. simpl. tauto.
Qed.

(** X11: when the label table can be built.  An empty mapping is an
    [UnboundLocalError].  Otherwise the table is allocated from the last
    entry of the mapping (rows of its length, cells for a scalar or a list
    of one), and for a mapping whose numbers are numbers of 32 bits the
    construction succeeds exactly when every entry fits the table or has
    its key outside of it; a failure is the one of storing a value that
    does not fit, and never the [IndexError] that the [try] catches.  So
    a mapping that ends with a scalar and holds a list under a key inside
    the table cannot be turned into a table. *)
Theorem lut_construction_outcome (m : mapdict) (kd : Z * mapval)
    (Hlast : last m = Some kd)
    (Hint : Forall (fun e => int32_value (snd e)) m) :
  _map_lut [] = raise UnboundLocalError /\
  exists lut0,
    alloc_lut m = ret lut0 /\
    alen lut0 = Z.to_nat (keys_max m 0 + 100) /\
    entry_len lut0 = Nat.max 1 (entry_nel (snd kd)) /\
    ((exists lut, outcome (_map_lut m) = inr lut) <->
       Forall (fits_or_skipped lut0) m) /\
    (forall e, outcome (_map_lut m) = inl e ->
       e <> IndexError /\ Exists (fun e => ~ fits lut0 (snd e)) m) /\
    ((entry_nel (snd kd) <= 1)%nat ->
       forall key l, (key, Vector l) ∈ m ->
         is_Some (norm_index (alen lut0) key) ->
         exists e, outcome (_map_lut m) = inl e).
Proof.
  split; [reflexivity | ].
  pose proof (alloc_lut_last m kd Hlast) as Halloc.
  eexists. split; [exact Halloc | ].
  set (lut0 := if bool_decide (1 < entry_nel (snd kd))%nat
               then zeros2 (keys_max m 0 + 100) (entry_nel (snd kd))
               else zeros1 (keys_max m 0 + 100)) in *.
  assert (Hlen : alen lut0 = Z.to_nat (keys_max m 0 + 100)).
  { unfold lut0. case_bool_decide; [apply alen_zeros2 | apply alen_zeros1]. }
  assert (Hel : entry_len lut0 = Nat.max 1 (entry_nel (snd kd))).
  { unfold lut0. case_bool_decide; simpl; lia. }
  assert (Hrun : _map_lut m = fill_lut lut0 m).
  { unfold _map_lut. by rewrite Halloc, bind_ret_l. }
  destruct (fill_lut_outcome m lut0) as [Hiff Herr].
  split; [exact Hlen | ]. split; [exact Hel | ].
  rewrite Hrun. split; [exact Hiff | ]. split.
  - intros e He. split; [by rewrite (Herr e He) | ].
    apply not_Forall_Exists; [intros x; apply fits_dec | ].
    intros Hall.
    assert (Hfs : Forall (fits_or_skipped lut0) m)
      by (eapply Forall_impl; [exact Hall | intros x Hx; by left]).
    apply Hiff in Hfs as [lut Hlut]. rewrite He in Hlut. discriminate Hlut.
  - intros Hnel key l Hin Hrange.
    destruct (outcome (fill_lut lut0 m)) as [e | lut] eqn:Hout; [eauto | ].
    assert (Hall : Forall (fits_or_skipped lut0) m) by (apply Hiff; eauto).
    rewrite Forall_forall in Hall. destruct (Hall _ Hin) as [Hf | Hn].
    + exfalso. unfold lut0 in Hf.
      rewrite bool_decide_eq_false_2 in Hf by lia. exact Hf.
    + simpl in Hn. rewrite Hn in Hrange. by destruct Hrange.
Qed.

Lemma lut_construction_outcome_witness :
  let m := [(0, Vector [7])] in
  last m = Some (0, Vector [7]) /\
  Forall (fun e => int32_value (snd e)) m /\
  (entry_nel (Vector [7%Z]) <= 1)%nat /\
  (0, Vector [7]) ∈ m /\
  exists e, outcome (_map_lut m) = inl e.
Proof.
  intros m.
  assert (Hlast : last m = Some (0, Vector [7])) by reflexivity.
  assert (Hint : Forall (fun e => int32_value (snd e)) m).
  { repeat constructor; simpl; lia. }
  assert (Hnel : (entry_nel (Vector [7%Z]) <= 1)%nat) by (simpl; lia).
  assert (Hin : (0, Vector [7]) ∈ m) by (apply elem_of_cons; by left).
  destruct (lut_construction_outcome m _ Hlast Hint)
    as (_ & lut0 & Halloc & _ & _ & _ & _ & Hvec).
  split; [exact Hlast | ]. split; [exact Hint | ]. split; [exact Hnel | ].
  split; [exact Hin | ].
  apply (Hvec Hnel 0 [7] Hin).
  injection Halloc as <-. by eexists.
Defined.

(** What was stored at a key is read at that key. *)
Lemma fill_lut_lookup (m : mapdict) (lut lut' : ndarray) :
  outcome (fill_lut lut m) = inr lut' ->
  NoDup (m.*1) ->
  Forall (fun e => 0 <= fst e < Z.of_nat (alen lut)) m ->
  forall key data, (key, data) ∈ m ->
    cell_at lut' (Z.to_nat key) = Some (stored_cell lut data).
Proof.
  revert lut. induction m as [ | [k d] m IH]; intros lut Hout Hnd Hrange key data Hin.
  { by apply elem_of_nil in Hin. }
  apply Forall_cons in Hrange as [Hk Hrange]. simpl in Hk.
  rewrite fmap_cons in Hnd. apply NoDup_cons in Hnd as [Hnotin Hnd]. simpl in Hnotin.
  assert (Hnorm : forall k', 0 <= k' < Z.of_nat (alen lut) ->
            norm_index (alen lut) k' = Some (Z.to_nat k')).
  { intros k' Hk'. unfold norm_index. by rewrite bool_decide_eq_true_2. }
  pose proof (setitem_spec lut k d) as Hs. rewrite (Hnorm k Hk) in Hs.
  destruct Hs as [(_ & lut1 & Hset & Hlen & Hcell & _ & Hstored) | [_ Hset]].
  2:{ by rewrite (fill_lut_value_error _ _ _ _ Hset) in Hout. }
  rewrite (fill_lut_stored _ _ _ _ _ Hset) in Hout.
  apply elem_of_cons in Hin as [[= -> ->] | Hin].
  - rewrite (fill_lut_untouched m lut1 lut' (Z.to_nat k) Hout); [exact Hcell | ].
    apply Forall_forall. intros [k' d'] Hin'. simpl.
    rewrite Forall_forall in Hrange. specialize (Hrange _ Hin'). simpl in Hrange.
    rewrite Hlen, (Hnorm k' Hrange). intros [= E].
    apply Hnotin. apply list_elem_of_fmap. exists (k', d'). split; [simpl; lia | done].
  - rewrite <- Hstored. apply (IH lut1); try done. by rewrite Hlen.
Qed.

Lemma stored_cell_kind (a b : ndarray) (d : mapval) :
  zero_cell a = zero_cell b -> stored_cell a d = stored_cell b d.
Proof.
  destruct a as [ca | na ra], b as [cb | nb rb]; simpl; intros H; try done.
  injection H as H. apply (f_equal length) in H.
  rewrite !length_replicate in H. by subst.
Qed.

(** X12: what is stored is read back.  For a mapping with nonnegative keys
    that are all different, and the table built from it: the lookup of a
    key of the mapping, by [lut[key]], by [_map] and by [BinaryScan.map]
    on an array that holds this one label, gives the value of the key as
    the table stores it: the number itself, or the list itself, when it
    has the length of the rows and its numbers fit into 32 bits. *)
Theorem lut_lookup_returns_stored (m : mapdict) (lut : ndarray)
    (key : Z) (data : mapval) (sh : list nat)
    (Hout : outcome (_map_lut m) = inr lut)
    (Hnd : NoDup (m.*1))
    (Hkeys : Forall (fun e => 0 <= fst e) m)
    (Hin : (key, data) ∈ m) :
  item lut key = ret (stored_cell lut data) /\
  outcome (_map (NpLabels (IArray sh [key])) m)
    = inr (false, Mapped sh [stored_cell lut data]) /\
  outcome (BinaryScan_map (IArray sh [key]) m)
    = inr (Mapped sh [stored_cell lut data]) /\
  (forall v, data = Scalar v -> entry_len lut = 1%nat ->
     - 2 ^ 31 <= v < 2 ^ 31 -> stored_cell lut data = Sc v) /\
  (forall l, data = Vector l -> entry_len lut = length l ->
     Forall (fun v => - 2 ^ 31 <= v < 2 ^ 31) l -> stored_cell lut data = Row l).
Proof.
  assert (Hm : m <> []) by (intros ->; by apply elem_of_nil in Hin).
  destruct (alloc_lut_nonempty m Hm) as (nel & Halloc).
  set (lut0 := if bool_decide (1 < nel)%nat then zeros2 (keys_max m 0 + 100) nel
               else zeros1 (keys_max m 0 + 100)) in *.
  assert (Hlen0 : alen lut0 = Z.to_nat (keys_max m 0 + 100)).
  { unfold lut0. case_bool_decide; [apply alen_zeros2 | apply alen_zeros1]. }
  assert (Hfill : outcome (fill_lut lut0 m) = inr lut).
  { unfold _map_lut in Hout. by rewrite Halloc, bind_ret_l in Hout. }
  pose proof (keys_max_ge_base m 0) as Hge.
  assert (Hrange : Forall (fun e => 0 <= fst e < Z.of_nat (alen lut0)) m).
  { apply Forall_forall. intros e He. rewrite Forall_forall in Hkeys.
    pose proof (Hkeys e He). pose proof (keys_max_ge_key m 0 e He). lia. }
  pose proof (fill_lut_lookup m lut0 lut Hfill Hnd Hrange key data Hin) as Hcell.
  destruct (fill_lut_entries m lut0 lut Hfill) as [Hel Hzero].
  assert (Hst : stored_cell lut data = stored_cell lut0 data)
    by (by apply stored_cell_kind).
  rewrite <- Hst in Hcell.
  assert (Hkey : 0 <= key) by (rewrite Forall_forall in Hkeys; apply (Hkeys _ Hin)).
  assert (Hitem : item lut key = ret (stored_cell lut data)).
  { rewrite <- (Z2Nat.id key) by done. by apply item_cell_at. }
  split; [exact Hitem | ].
  split.
  { unfold _map. unfold mbind, py_bind, bind at 1. rewrite Hout. simpl.
    unfold take_. simpl. rewrite Hitem. reflexivity. }
  split.
  { unfold BinaryScan_map. unfold mbind, py_bind, bind at 1.
    change (BinaryScan_map_lut m) with (_map_lut m). rewrite Hout. simpl.
    unfold take_. simpl. rewrite Hitem. reflexivity. }
  assert (Hwrap : forall v, - 2 ^ 31 <= v < 2 ^ 31 -> wrap32 v = v).
  { intros v Hv. unfold wrap32. rewrite Z.mod_small; lia. }
  split.
  - intros v -> Hlen Hv. destruct lut as [cells | n rows];
      cbn [stored_cell entry_len] in *.
    + by rewrite Hwrap.
    + exfalso. clear -Hzero Hel Hlen. unfold lut0 in *.
      case_bool_decide; [cbn [zeros2 entry_len] in Hel; lia | discriminate Hzero].
  - intros l -> Hlen Hl. destruct lut as [cells | n rows];
      cbn [stored_cell entry_len] in *.
    + exfalso.
      destruct (fill_lut_outcome m lut0) as [Hiff _].
      assert (Hall : Forall (fits_or_skipped lut0) m) by (apply Hiff; eauto).
      rewrite Forall_forall in Hall. destruct (Hall _ Hin) as [Hf | Hn].
      * assert (Hz : zero_cell lut0 = Sc 0) by (by rewrite <- Hzero).
        destruct lut0; [exact Hf | discriminate Hz].
      * cbn [fst] in Hn. rewrite Forall_forall in Hrange.
        pose proof (Hrange _ Hin) as Hr. cbn [fst] in Hr.
        unfold norm_index in Hn. rewrite bool_decide_eq_true_2 in Hn by done. done.
    + rewrite bool_decide_eq_true_2 by done. f_equal.
      clear -Hl Hwrap.
      induction Hl as [ | v l Hv Hl IH]; [done | ]. cbn [map]. rewrite Hwrap by done.
      f_equal. apply IH.
Qed.

(** *** The label lookup table: the labels that can be mapped *)

Lemma item_outcome (lut : ndarray) (i : Z) :
  (- Z.of_nat (alen lut) <= i < Z.of_nat (alen lut) ->
     exists c, item lut i = ret c) /\
  (i < - Z.of_nat (alen lut) \/ Z.of_nat (alen lut) <= i ->
     item lut i = raise IndexError).
Proof.
  split.
  - intros Hi.
    assert (Hn : exists k, norm_index (alen lut) i = Some k /\ (k < alen lut)%nat).
    { unfold norm_index. destruct (decide (0 <= i)) as [H0 | H0].
      - exists (Z.to_nat i). rewrite bool_decide_eq_true_2 by lia. split; [done | lia].
      - exists (Z.to_nat (i + Z.of_nat (alen lut))).
        rewrite bool_decide_eq_false_2 by lia.
        rewrite bool_decide_eq_true_2 by lia. split; [done | lia]. }
    destruct Hn as (k & Hk & Hlt).
    destruct lut as [cells | nel rows]; simpl in *; unfold getitem; rewrite Hk;
      apply lookup_lt_is_Some in Hlt as [x Hx]; rewrite Hx; rewrite bind_ret_l; eauto.
  - intros Hi. destruct lut as [cells | nel rows]; simpl in *;
      by rewrite getitem_out_of_range.
Qed.

Lemma items_outcome (lut : ndarray) (idx : list Z) :
  (Forall (fun i => - Z.of_nat (alen lut) <= i < Z.of_nat (alen lut)) idx ->
     exists cs, items lut idx = ret cs /\ length cs = length idx) /\
  (~ Forall (fun i => - Z.of_nat (alen lut) <= i < Z.of_nat (alen lut)) idx ->
     items lut idx = raise IndexError).
Proof.
  induction idx as [ | i idx [IHok IHerr]].
  { split; [by exists [] | intros H; destruct H; constructor]. }
  destruct (item_outcome lut i) as [Hok Herr].
  split.
  - intros Hall. apply Forall_cons in Hall as [Hi Hall].
    destruct (Hok Hi) as [c Hc]. destruct (IHok Hall) as (cs & Hcs & Hlen).
    exists (c :: cs). simpl. rewrite Hc, bind_ret_l, Hcs, bind_ret_l.
    split; [done | by rewrite Hlen].
  - intros Hnot. simpl.
    destruct (decide (- Z.of_nat (alen lut) <= i < Z.of_nat (alen lut))) as [Hi | Hi].
    + destruct (Hok Hi) as [c Hc]. rewrite Hc, bind_ret_l.
      rewrite IHerr; [done | ]. intros Hall. apply Hnot. by constructor.
    + rewrite Herr by lia. done.
Qed.

(** X13: the labels that can be mapped.  The table built from a mapping
    has [max(0, max key) + 100] entries, and [_map] returns exactly when
    every label lies in [-n, n) for this number [n], one cell or row for
    every label in the shape of the labels; a single label outside is an
    [IndexError]. *)
Theorem lut_lookup_bounds (m : mapdict) (lut : ndarray) (label : labels)
    (Hout : outcome (_map_lut m) = inr lut) :
  let n := keys_max m 0 + 100 in
  let inside := Forall (fun i => - n <= i < n) (idata (label_array label)) in
  Z.of_nat (alen lut) = n /\
  (inside ->
     exists cs, outcome (_map label m)
                = inr (is_tensor label, Mapped (ishape (label_array label)) cs) /\
       length cs = length (idata (label_array label))) /\
  (~ inside -> outcome (_map label m) = inl IndexError).
Proof.
  intros n inside.
  assert (Hm : m <> []) by (intros ->; done).
  assert (Hlen : Z.of_nat (alen lut) = n).
  { destruct (alloc_lut_nonempty m Hm) as (nel & Halloc).
    unfold _map_lut in Hout. rewrite Halloc, bind_ret_l in Hout.
    rewrite (fill_lut_alen _ _ _ Hout).
    pose proof (keys_max_ge_base m 0).
    case_bool_decide; [rewrite alen_zeros2 | rewrite alen_zeros1]; unfold n; lia. }
  split; [exact Hlen | ].
  destruct (items_outcome lut (idata (label_array label))) as [Hok Herr].
  rewrite Hlen in Hok, Herr. fold n in Hok, Herr.
  unfold _map. unfold mbind, py_bind, bind at 1 3. rewrite Hout. cbn [outcome stdout].
  unfold take_. split.
  - intros Hin. destruct (Hok Hin) as (cs & Hcs & Hl). exists cs.
    rewrite Hcs. split; [reflexivity | done].
  - intros Hnot. rewrite (Herr Hnot). reflexivity.
Qed.

Lemma lut_lookup_bounds_witness :
  let m := [(0, Scalar 5); (3, Scalar 9)] in
  exists lut, outcome (_map_lut m) = inr lut /\
    Forall (fun i => - (keys_max m 0 + 100) <= i < keys_max m 0 + 100) [102; -103] /\
    ~ Forall (fun i => - (keys_max m 0 + 100) <= i < keys_max m 0 + 100) [3; 103] /\
    (exists cs, outcome (_map (NpLabels (IArray [2%nat] [102; -103])) m)
                = inr (false, Mapped [2%nat] cs)) /\
    outcome (_map (TorchLabels (IArray [2%nat] [3; 103])) m) = inl IndexError.
Proof.
  intros m.
  assert (Hout : exists lut, outcome (_map_lut m) = inr lut) by (eexists; reflexivity).
  destruct Hout as [lut Hout]. exists lut. split; [exact Hout | ].
  assert (Hin : Forall (fun i => - (keys_max m 0 + 100) <= i < keys_max m 0 + 100)
                  [102; -103]) by (repeat constructor; simpl; lia).
  assert (Hnot : ~ Forall (fun i => - (keys_max m 0 + 100) <= i < keys_max m 0 + 100)
                  [3; 103]).
  { intros H. apply Forall_cons in H as [_ H]. apply Forall_cons in H as [H _].
    simpl in H. lia. }
  split; [exact Hin | ]. split; [exact Hnot | ].
  destruct (lut_lookup_bounds m lut (NpLabels (IArray [2%nat] [102; -103])) Hout)
    as (_ & H1 & _).
  destruct (lut_lookup_bounds m lut (TorchLabels (IArray [2%nat] [3; 103])) Hout)
    as (_ & _ & H2).
  split; [ | exact (H2 Hnot)].
  destruct (H1 Hin) as (cs & Hcs & _). by exists cs.
Defined.

(** *** The range conversions: the two ranges *)

(** X14: the ranges of the two conversions.  [sigmoid_to_tanh] takes a
    tensor of numbers in [0, 1] to a tensor of the same shape of numbers
    in [-1, 1], and [tanh_to_sigmoid] takes a tensor of numbers in [-1, 1]
    to one of the same shape of numbers in [0, 1]. *)
Theorem range_conversions_ranges (x : tensor) :
  (Forall (fun v => exists q, v = Fin q /\ (0 <= q <= 1)%Q) (data x) ->
   shape (sigmoid_to_tanh x) = shape x /\
   Forall (fun v => exists q, v = Fin q /\ (-1 <= q <= 1)%Q)
     (data (sigmoid_to_tanh x))) /\
  (Forall (fun v => exists q, v = Fin q /\ (-1 <= q <= 1)%Q) (data x) ->
   shape (tanh_to_sigmoid x) = shape x /\
   Forall (fun v => exists q, v = Fin q /\ (0 <= q <= 1)%Q)
     (data (tanh_to_sigmoid x))).
Proof.
  split; intros H; (split; [reflexivity | ]);
    unfold sigmoid_to_tanh, tanh_to_sigmoid, pointwise; simpl;
    apply Forall_fmap; (eapply Forall_impl; [exact H | ]);
    intros v (q & -> & Hq); simpl.
  - eexists. split; [reflexivity | ]. lra.
  - eexists. split; [reflexivity | ].
    assert (E : ((q + 1) / 2 == (q + 1) * (1 # 2))%Q) by field.
    rewrite E. lra.
Qed.

(** *** Witnesses *)

Lemma unary_init_listing_witness :
  dirs fs_ten !! "A"%string = Some ten_names /\
  exists self, outcome (UnaryScan_init fs_ten "A" stats_no_rgb 3) = inr self /\
    UnaryScan_len self = 3 /\ Sorted name_le (scan_file_names self).
Proof.
  assert (Hdir : dirs fs_ten !! "A"%string = Some ten_names) by reflexivity.
  destruct (unary_init_listing fs_ten "A" stats_no_rgb 3 ten_names Hdir)
    as (self & Heq & _ & _ & Hsorted & _ & _ & _ & Hlen).
  split; [exact Hdir | ]. exists self.
  split; [by rewrite Heq | ]. split; [exact Hlen | exact Hsorted].
Defined.

Lemma unary_getitem_failures_witness :
  (length scan_short < 6)%nat /\
  (6 <= length scan_dark)%nat /\
  (forall r c m, pixel scan_dark 5 r c = Some m -> ~ (m == 1)%Q) /\
  has_shape scan_1x2 6 1 2 /\ (exists r c, valid_at scan_1x2 r c) /\
  UnaryScan_getitem fs_more unary_more 2 = raise IndexError /\
  UnaryScan_getitem fs_more unary_more 0 = raise ValueError /\
  UnaryScan_getitem fs_scans unary_no_key 0 = raise KeyError.
Proof.
  assert (H1 : (length scan_short < 6)%nat) by (simpl; lia).
  assert (H2 : (6 <= length scan_dark)%nat) by (simpl; lia).
  assert (H3 : forall r c m, pixel scan_dark 5 r c = Some m -> ~ (m == 1)%Q).
  { intros r c m H. unfold pixel in H. simpl in H.
    destruct r as [ | r]; [ | done].
    destruct c as [ | [ | c]]; simpl in H; [ | | done];
      injection H as <-; intros E; vm_compute in E; discriminate E. }
  assert (H4 : has_shape scan_1x2 6 1 2).
  { split; [reflexivity | ]. repeat constructor. }
  assert (H5 : exists r c, valid_at scan_1x2 r c).
  { exists 0%nat, 0%nat. eexists. split; reflexivity. }
  destruct (unary_getitem_failures fs_more unary_more 2 "M/short.npy" scan_short)
    as (Ha & _ & _); [reflexivity | reflexivity | ].
  destruct (unary_getitem_failures fs_more unary_more 0 "M/dark.npy" scan_dark)
    as (_ & Hb & _); [reflexivity | reflexivity | ].
  destruct (unary_getitem_failures fs_scans unary_no_key 0 "A/0.npy" scan_1x2)
    as (_ & _ & Hc); [reflexivity | reflexivity | ].
  repeat (split; [assumption | ]).
  split; [exact (Ha H1) | ]. split; [exact (Hb H2 H3) | ].
  exact (Hc 6%nat 1%nat 2%nat H4 H5 eq_refl).
Defined.

Lemma rgb_rescaled_and_masked_witness :
  has_shape scan_rgb 9 1 2 /\ (exists r c, valid_at scan_rgb r c) /\
  binary_mask scan_rgb /\
  (forall ch r c v, (6 <= ch < 9)%nat -> pixel scan_rgb ch r c = Some v ->
     (0 <= v <= 255)%Q) /\
  truthy (YBool true) = true /\
  exists s rgb, UnaryScan_getitem fs_more unary_more 1 = ret s /\
    proj_rgb s = Some rgb /\ length rgb = 3%nat.
Proof.
  assert (H1 : has_shape scan_rgb 9 1 2).
  { split; [reflexivity | ]. repeat constructor. }
  assert (H2 : exists r c, valid_at scan_rgb r c).
  { exists 0%nat, 0%nat. eexists. split; reflexivity. }
  assert (H3 : binary_mask scan_rgb).
  { intros r c m H. unfold pixel in H. simpl in H.
    destruct r as [ | r]; [ | done].
    destruct c as [ | [ | c]]; simpl in H; [ | | done];
      injection H as <-; [by right | by left]. }
  assert (H4 : forall ch r c v, (6 <= ch < 9)%nat -> pixel scan_rgb ch r c = Some v ->
                 (0 <= v <= 255)%Q).
  { intros ch r c v Hch H.
    do 6 (destruct ch as [ | ch]; [lia | ]).
    destruct ch as [ | [ | [ | ch]]]; [ | | | lia];
      unfold pixel in H; simpl in H;
      (destruct r as [ | r]; [ | done]);
      (destruct c as [ | [ | c]]; simpl in H; [ | | done]);
      injection H as <-; split; unfold Qle; simpl; lia. }
  destruct (rgb_rescaled_and_masked fs_more unary_more 1 "M/rgb.npy" scan_rgb
              (YBool true) 9 1 2) as (s & Hs & _ & Hsome);
    [reflexivity | reflexivity | reflexivity | exact H1 | exact H2 | exact H3
     | exact H4 | ].
  destruct (Hsome eq_refl) as (rgb & Hrgb & Hlen & _).
  repeat (split; [assumption | ]). split; [reflexivity | ].
  exists s, rgb. split; [exact Hs | ]. split; [exact Hrgb | exact Hlen].
Defined.

Lemma loader_dataset_choice_witness :
  (∅ : gmap string dataset_cfg) !! "dataset_A"%string = None /\
  size dict_ten <> 2%nat /\
  dict_ten !! "dataset_A"%string = Some (DatasetCfg "A" stats_no_rgb) /\
  Loader_dataset fs_ten ∅ (-1) = raise KeyError /\
  exists d, outcome (Loader_dataset fs_ten dict_ten (-1)) = inr (Unary d).
Proof.
  assert (H1 : (∅ : gmap string dataset_cfg) !! "dataset_A"%string = None) by reflexivity.
  assert (H2 : size dict_ten <> 2%nat) by (vm_compute; lia).
  assert (H3 : dict_ten !! "dataset_A"%string = Some (DatasetCfg "A" stats_no_rgb))
    by reflexivity.
  destruct (loader_dataset_choice fs_ten ∅ (-1)) as (Ha & _).
  destruct (loader_dataset_choice fs_ten dict_ten (-1)) as (_ & _ & Hb & _).
  destruct (Hb _ H2 H3) as [Heq _].
  repeat (split; [assumption | ]). split; [exact (Ha H1) | ].
  rewrite Heq. eexists. vm_compute. reflexivity.
Defined.

Lemma loader_modes_witness :
  let d := Unary (MkUnaryScan "A" ∅ (replicate 10 "scan.npy"%string)) in
  0 < 2 /\ 0 <= 4 /\
  exists ld, outcome (Loader_split d 2 (1 # 2) 4 true true true) = inr ld /\
    Loader_split d 2 (1 # 2) 4 true false true
    = ret (MkLoader None None (validloader ld)).
Proof.
  intros d.
  assert (Hbs : 0 < 2) by lia. assert (Hw : 0 <= 4) by lia.
  destruct (loader_modes d 2 (1 # 2) 4 true Hbs Hw) as (Htrain & _).
  assert (Hld : exists ld, outcome (Loader_split d 2 (1 # 2) 4 true true true) = inr ld)
    by (eexists; vm_compute; reflexivity).
  destruct Hld as [ld Hld]. destruct (Htrain ld Hld) as (_ & _ & _ & Htest).
  split; [exact Hbs | ]. split; [exact Hw | ]. exists ld. split; [exact Hld | exact Htest].
Defined.

Lemma lut_lookup_returns_stored_witness :
  let m := [(0, Scalar 5); (3, Scalar 9)] in
  exists lut, outcome (_map_lut m) = inr lut /\
    NoDup (m.*1) /\ Forall (fun e : Z * mapval => 0 <= fst e) m /\
    (3, Scalar 9) ∈ m /\
    outcome (_map (NpLabels (IArray [] [3])) m) = inr (false, Mapped [] [Sc 9]).
Proof.
  intros m.
  assert (Hout : exists lut, outcome (_map_lut m) = inr lut) by (eexists; reflexivity).
  destruct Hout as [lut Hout].
  assert (Hnd : NoDup (m.*1)).
  { simpl. apply NoDup_cons. split; [ | apply NoDup_singleton].
    intros H. apply list_elem_of_singleton in H. discriminate H. }
  assert (Hkeys : Forall (fun e : Z * mapval => 0 <= fst e) m)
    by (repeat constructor; simpl; lia).
  assert (Hin : (3, Scalar 9) ∈ m).
  { apply elem_of_cons. right. apply elem_of_cons. by left. }
  destruct (lut_lookup_returns_stored m lut 3 (Scalar 9) [] Hout Hnd Hkeys Hin)
    as (_ & Hmap & _ & Hsc & _).
  exists lut. split; [exact Hout | ]. split; [exact Hnd | ].
  split; [exact Hkeys | ]. split; [exact Hin | ].
  rewrite Hmap. rewrite (Hsc 9 eq_refl); [reflexivity | | lia].
  injection Hout as <-. reflexivity.
Defined.

Lemma range_conversions_ranges_witness :
  let x := Tensor [2%nat] [Fin 0; Fin (1 # 3)] in
  Forall (fun v => exists q, v = Fin q /\ (0 <= q <= 1)%Q) (data x) /\
  Forall (fun v => exists q, v = Fin q /\ (-1 <= q <= 1)%Q) (data (sigmoid_to_tanh x)).
Proof.
  intros x.
  assert (H : Forall (fun v => exists q, v = Fin q /\ (0 <= q <= 1)%Q) (data x)).
  { repeat constructor; eexists; (split; [reflexivity | ]); split; unfold Qle; simpl; lia. }
  split; [exact H | ].
  by destruct (range_conversions_ranges x) as [[_ H1] _].
Defined.

(** * Properties of the helper functions *)

Import Helpers HelperProps HelperExamples.

(** *** Lists built block by block *)

Lemma bind_blocks_length {A B} (g : A -> list B) (l : list A) (m : nat) :
  Forall (fun x => length (g x) = m) l -> length (l ≫= g) = (length l * m)%nat.
Proof.
  induction 1 as [ | x l Hx _ IH]; [reflexivity | ].
  rewrite bind_cons, length_app, IH, Hx. simpl. lia.
Qed.

Lemma bind_blocks_lookup {A B} (g : A -> list B) (l : list A) (m i j : nat) :
  Forall (fun x => length (g x) = m) l -> (j < m)%nat ->
  (l ≫= g) !! (i * m + j)%nat = (l !! i) ≫= (fun x => g x !! j).
Proof.
  intros Hl Hj. revert i. induction Hl as [ | x l Hx _ IH]; intros i.
  - by rewrite !lookup_nil.
  - rewrite bind_cons. destruct i as [ | i].
    + simpl. rewrite lookup_app_l by lia. reflexivity.
    + rewrite lookup_app_r by (simpl; lia).
      replace (S i * m + j - length (g x))%nat with (i * m + j)%nat
        by (rewrite Hx; simpl; lia).
      rewrite IH. reflexivity.
Qed.

Lemma bind_blocks_chunk {A B} (g : A -> list B) (l : list A) (m i : nat) (x : A) :
  Forall (fun x => length (g x) = m) l -> l !! i = Some x ->
  chunk m i (l ≫= g) = g x.
Proof.
  intros Hl. revert i. unfold chunk.
  induction Hl as [ | y l Hy _ IH]; intros i Hi; [by rewrite lookup_nil in Hi | ].
  rewrite bind_cons. destruct i as [ | i].
  - injection Hi as ->. simpl. rewrite drop_0.
    rewrite take_app_le by lia. rewrite take_ge by lia. reflexivity.
  - simpl in Hi. replace (S i * m)%nat with (length (g y) + i * m)%nat
      by (rewrite Hy; simpl; lia).
    rewrite drop_app_add'; [ | reflexivity]. by apply IH.
Qed.

Lemma seq_all {A} (g : nat -> list A) (n m : nat) :
  (forall i, (i < n)%nat -> length (g i) = m) ->
  Forall (fun x => length (g x) = m) (seq 0 n).
Proof.
  intros H. apply Forall_forall. intros i Hi. apply H.
  apply elem_of_seq in Hi. lia.
Qed.

(** *** cycle *)

Lemma cycle_take_from {A} (l : list A) (k i : nat) :
  l <> [] -> (i <= length l)%nat ->
  exists out, cycle_take 1 l (drop i l) k = Some out /\ length out = k /\
    forall j, (j < k)%nat -> out !! j = l !! ((i + j) mod length l)%nat.
Proof.
  intros Hl. revert i. induction k as [ | k IH]; intros i Hi.
  - exists []. split; [reflexivity | ]. split; [reflexivity | ]. intros j Hj. lia.
  - assert (Hn : (0 < length l)%nat) by (destruct l; [done | simpl; lia]).
    assert (Hstep : exists i', (i' < length l)%nat /\ (i' = i mod length l)%nat /\
              exists x, l !! i' = Some x /\
                next_ 1 l (drop i l) = Some (x, drop (S i') l)).
    { destruct (decide (i < length l)%nat) as [Hlt | Hge].
      - exists i. split; [exact Hlt | ]. split; [by rewrite Nat.mod_small | ].
        destruct (lookup_lt_is_Some_2 l i Hlt) as [x Hx]. exists x.
        split; [exact Hx | ]. rewrite (drop_S _ _ _ Hx). reflexivity.
      - exists 0%nat. split; [exact Hn | ].
        assert (i = length l) as -> by lia.
        split; [by rewrite Nat.Div0.mod_same | ].
        destruct l as [ | x l']; [done | ]. exists x. split; [reflexivity | ].
        rewrite drop_all. simpl. by rewrite drop_0. }
    destruct Hstep as (i' & Hi' & Hmod & x & Hx & Hnext).
    destruct (IH (S i')) as (out & Hout & Hlen & Hval); [lia | ].
    exists (x :: out). split; [ | split].
    + cbn [cycle_take]. rewrite Hnext. simpl. rewrite Hout. reflexivity.
    + simpl. by rewrite Hlen.
    + intros j Hj. destruct j as [ | j].
      * simpl. rewrite Nat.add_0_r, <- Hmod. by rewrite Hx.
      * simpl. rewrite Hval by lia.
        f_equal. rewrite Hmod.
        replace (i + S j)%nat with (S j + i)%nat by lia.
        replace (S (i mod length l) + j)%nat with (S j + i mod length l)%nat by lia.
        rewrite (Nat.Div0.add_mod (S j) i), (Nat.Div0.add_mod (S j) (i mod _)).
        by rewrite Nat.Div0.mod_mod.
Qed.

(** X15: the generator of [cycle] over a sequence that is not empty never
    ends and gives the elements in order, over and over: each of the first
    [k] calls of [next] returns, starting the loop over the sequence at most
    once, and call [j] gives the element at position [j] modulo the length.
    Over an empty sequence, a call of [next] starts the loop again and
    again and never returns. *)
Theorem cycle_repeats_sequence {A} (l : list A) (k : nat) :
  (l = [] -> forall fuel, next_ fuel l [] = None) /\
  (l <> [] ->
   exists out, cycle_take 1 l [] k = Some out /\ length out = k /\
     forall j, (j < k)%nat -> out !! j = l !! (j mod length l)%nat).
Proof.
  split.
  - intros -> fuel. induction fuel as [ | fuel IH]; [reflexivity | exact IH].
  - intros Hl.
    destruct (cycle_take_from l k (length l) Hl) as (out & Hout & Hlen & Hval);
      [lia | ].
    rewrite drop_all in Hout. exists out. split; [exact Hout | ].
    split; [exact Hlen | ]. intros j Hj. rewrite (Hval j Hj). f_equal.
    replace (length l + j)%nat with (j + 1 * length l)%nat by lia.
    by rewrite Nat.Div0.mod_add.
Qed.

Lemma cycle_repeats_sequence_witness :
  [1; 2; 3] <> [] /\
  exists out, cycle_take 1 [1; 2; 3] [] 7 = Some out /\ out !! 4%nat = Some 2.
Proof.
  assert (H : [1; 2; 3] <> []) by discriminate.
  destruct (cycle_repeats_sequence [1; 2; 3] 7) as [_ Hc].
  destruct (Hc H) as (out & Hout & _ & Hval).
  split; [exact H | ]. exists out. split; [exact Hout | ].
  rewrite (Hval 4%nat) by lia. reflexivity.
Defined.

(** *** colorize *)


Lemma linspace_length : length linspace_0_1_256 = 256%nat.
Proof. unfold linspace_0_1_256. by rewrite length_fmap, length_seq. Qed.


Lemma clamp01_idemp (v : fval) : clamp01 (clamp01 v) = clamp01 v.
Proof.
  destruct v as [q | [ | ] | ]; try reflexivity. simpl.
  destruct (Qle_bool q 0) eqn:E0; [reflexivity | ].
  destruct (Qle_bool 1 q) eqn:E1; [reflexivity | ].
  simpl. by rewrite E0, E1.
Qed.

Lemma clamp01_range (v : fval) :
  v <> NaN -> exists c, clamp01 v = Fin c /\ (0 <= c <= 1)%Q.
Proof.
  destruct v as [q | [ | ] | ]; intros Hv; try done; simpl.
  - destruct (Qle_bool q 0) eqn:E0; [exists 0%Q; split; [done | lra] | ].
    destruct (Qle_bool 1 q) eqn:E1; [exists 1%Q; split; [done | lra] | ].
    exists q. split; [done | ].
    assert (~ (q <= 0)%Q) by (rewrite <- Qle_bool_iff; congruence).
    assert (~ (1 <= q)%Q) by (rewrite <- Qle_bool_iff; congruence). lra.
  - exists 0%Q. split; [done | lra].
  - exists 1%Q. split; [done | lra].
Qed.

(** Rounding gives an integer at distance one half at most. *)
Lemma round_half_even_near (q : Q) :
  (inject_Z (round_half_even q) - (1 # 2) <= q
   <= inject_Z (round_half_even q) + (1 # 2))%Q.
Proof.
  unfold round_half_even.
  pose proof (Qfloor_le q) as Hlo. pose proof (Qlt_floor q) as Hhi.
  rewrite inject_Z_plus in Hhi. change (inject_Z 1) with 1%Q in Hhi.
  set (f := Qfloor q) in *. clearbody f.
  destruct (Qcompare_spec (q - inject_Z f) (1 # 2)) as [E | E | E].
  - destruct (Z.even f); [lra | ].
    rewrite inject_Z_plus. change (inject_Z 1) with 1%Q. lra.
  - lra.
  - rewrite inject_Z_plus. change (inject_Z 1) with 1%Q. lra.
Qed.



Lemma round_half_even_Z (z : Z) : round_half_even (inject_Z z) = z.
Proof.
  pose proof (round_half_even_near (inject_Z z)) as [H1 H2].
  assert (H : z <= round_half_even (inject_Z z) <= z); [ | lia].
  split.
  - assert (Hle : (inject_Z z - (1 # 2) <= inject_Z (round_half_even (inject_Z z)))%Q)
      by lra.
    revert Hle. unfold Qle, Qplus, Qminus, Qopp, inject_Z. simpl. lia.
  - assert (Hle : (inject_Z (round_half_even (inject_Z z)) <= inject_Z z + (1 # 2))%Q)
      by lra.
    revert Hle. unfold Qle, Qplus, Qminus, Qopp, inject_Z. simpl. lia.
Qed.


Lemma seq_blocks_length {A} (g : nat -> list A) (n m : nat) :
  (forall i, (i < n)%nat -> length (g i) = m) ->
  length (seq 0 n ≫= g) = (n * m)%nat.
Proof.
  intros H. rewrite (bind_blocks_length g (seq 0 n) m) by by apply seq_all.
  by rewrite length_seq.
Qed.

Lemma seq_blocks_lookup {A} (g : nat -> list A) (n m i j : nat) :
  (forall i, (i < n)%nat -> length (g i) = m) -> (i < n)%nat -> (j < m)%nat ->
  (seq 0 n ≫= g) !! (i * m + j)%nat = g i !! j.
Proof.
  intros H Hi Hj. rewrite (bind_blocks_lookup g (seq 0 n) m) by (by apply seq_all || done).
  rewrite lookup_seq_lt by exact Hi. reflexivity.
Qed.

Lemma option_list_length {A} (o : option A) :
  is_Some o -> length (option_list o) = 1%nat.
Proof. by intros [x ->]. Qed.

(** A list of three nested loops over elements that all exist. *)
Lemma nest3_length {A} (g : nat -> nat -> nat -> option A) (B E P : nat) :
  (forall b k p, (b < B)%nat -> (k < E)%nat -> (p < P)%nat -> is_Some (g b k p)) ->
  length (b ← seq 0 B; k ← seq 0 E; p ← seq 0 P; option_list (g b k p))
  = (B * (E * P))%nat.
Proof.
  intros Hg. apply seq_blocks_length. intros b Hb.
  apply seq_blocks_length. intros k Hk.
  rewrite (seq_blocks_length _ P 1); [lia | ].
  intros p Hp. apply option_list_length. by apply Hg.
Qed.

Lemma nest3_lookup {A} (g : nat -> nat -> nat -> option A) (B E P b k p : nat) :
  (forall b k p, (b < B)%nat -> (k < E)%nat -> (p < P)%nat -> is_Some (g b k p)) ->
  (b < B)%nat -> (k < E)%nat -> (p < P)%nat ->
  (b ← seq 0 B; k ← seq 0 E; p ← seq 0 P; option_list (g b k p))
    !! ((b * E + k) * P + p)%nat = g b k p.
Proof.
  intros Hg Hb Hk Hp.
  assert (Hin : forall b k, (b < B)%nat -> (k < E)%nat ->
            length (p ← seq 0 P; option_list (g b k p)) = P).
  { intros b' k' Hb' Hk'. rewrite (seq_blocks_length _ P 1); [lia | ].
    intros p' Hp'. apply option_list_length. by apply Hg. }
  replace ((b * E + k) * P + p)%nat with (b * (E * P) + (k * P + p))%nat by lia.
  rewrite (seq_blocks_lookup _ B (E * P)); [ | | exact Hb | nia].
  2:{ intros b' Hb'. apply seq_blocks_length. intros k' Hk'. by apply Hin. }
  rewrite (seq_blocks_lookup _ E P); [ | | exact Hk | exact Hp].
  2:{ intros k' Hk'. by apply Hin. }
  replace p with (p * 1 + 0)%nat at 1 by lia.
  rewrite (seq_blocks_lookup _ P 1); [ | | exact Hp | lia].
  2:{ intros p' Hp'. apply option_list_length. by apply Hg. }
  destruct (Hg b k p Hb Hk Hp) as [x ->]. reflexivity.
Qed.


Lemma embedding_rows_outside (index : list Z) (N E : nat) (w : list fval) :
  ~ Forall (fun i => 0 <= i < Z.of_nat N) index ->
  exists e, embedding_rows index N E w = inl e.
Proof.
  induction index as [ | i index IH]; intros Hnot.
  - exfalso. apply Hnot. constructor.
  - cbn [embedding_rows].
    destruct (decide (0 <= i < Z.of_nat N)) as [Hi | Hi].
    + rewrite bool_decide_eq_true_2 by exact Hi.
      destruct IH as [e He]; [intros H; apply Hnot; by constructor | ].
      rewrite He. by eexists.
    + rewrite bool_decide_eq_false_2 by exact Hi. by eexists.
Qed.



Lemma colorize_run (attrs : gmap string colormap) (undef : fval -> Z)
    (t : tensor) (cmap : string) (f : colormap) (B H W : nat) :
  attrs !! cmap = Some f ->
  shape t = [B; H; W] \/ shape t = [B; 1%nat; H; W] ->
  colorize (Some attrs) undef t cmap
  = Colorized (Tensor (shape t) (clamp01 <$> data t))
      (e ← embedding [B; H; W]
             ((fun v => long undef (fround v)) <$>
                ((fun v => fmul v (Fin 255)) <$> (clamp01 <$> data t)))
             (colors f);
       permute_0312 e).
Proof.
  intros Hf [Hs | Hs]; unfold colorize, eval_cm; rewrite Hs, Hf; reflexivity.
Qed.



(** X17: as the module is written, [colorize] never returns a picture for
    a colormap given by its name.  The name [cm] that it evaluates is bound
    nowhere in the module, so for a [cmap] that is a name of Python a call
    ends with a [NameError] when the tensor has shape (B, H, W) or
    (B, 1, H, W), and with the [AssertionError] of the two checks before
    for every other shape.  With [cm] bound, the checks still come first,
    and a colormap that [cm] does not have is an [AttributeError].  In all
    these cases the argument is left as it was. *)
Theorem colorize_fails_before_clamp (cm : namespace) (undef : fval -> Z)
    (t : tensor) (cmap : string) (Hname : identifier cmap = true) :
  let shaped :=
    length (shape t) = 3%nat \/ exists B H W, shape t = [B; 1%nat; H; W] in
  (forall out, returned (colorize module_namespace undef t cmap) <> inr out) /\
  (shaped -> colorize module_namespace undef t cmap = Colorized t (inl NameError)) /\
  (~ shaped -> colorize cm undef t cmap = Colorized t (inl (Raised AssertionError))) /\
  (shaped -> forall attrs, cm = Some attrs -> attrs !! cmap = None ->
     colorize cm undef t cmap = Colorized t (inl AttributeError)).
Proof.
  intros shaped.
  assert (Hcases : (shaped /\ forall cm',
              colorize cm' undef t cmap
              = match eval_cm cm' cmap with
                | inl e => Colorized t (inl e)
                | inr f => colorize cm' undef t cmap
                end)
            \/ (~ shaped /\ forall cm',
              colorize cm' undef t cmap = Colorized t (inl (Raised AssertionError)))).
  { unfold shaped, colorize.
    destruct (shape t) as [ | B [ | C [ | H [ | W [ | X rest]]]]] eqn:Hs.
    - right. split; [ | reflexivity].
      intros [H | (B & H & W & E)]; [simpl in H; lia | discriminate E].
    - right. split; [ | reflexivity].
      intros [H | (B' & H & W & E)]; [simpl in H; lia | discriminate E].
    - right. split; [ | reflexivity].
      intros [H | (B' & H & W & E)]; [simpl in H; lia | discriminate E].
    - left. split; [by left | ]. intros cm'. simpl.
      destruct (eval_cm cm' cmap); reflexivity.
    - destruct (decide (C = 1%nat)) as [-> | HC].
      + left. split; [right; by exists B, H, W | ]. intros cm'. simpl.
        destruct (eval_cm cm' cmap); reflexivity.
      + right. split.
        * intros [E | (B' & H' & W' & E)]; [simpl in E; lia | ].
          injection E as _ E _ _. by apply HC.
        * intros cm'. simpl. rewrite bool_decide_eq_false_2 by exact HC. reflexivity.
    - right. split; [ | reflexivity].
      intros [H' | (B' & H' & W' & E)]; [simpl in H'; lia | discriminate E]. }
  destruct Hcases as [[Hyes Hrun] | [Hno Hrun]].
  - split; [ | split; [ | split]].
    + intros out. rewrite (Hrun module_namespace). simpl. discriminate.
    + intros _. rewrite (Hrun module_namespace). reflexivity.
    + intros Hnot. by destruct Hnot.
    + intros _ attrs -> Hnone. rewrite (Hrun (Some attrs)). simpl.
      rewrite Hnone. reflexivity.
  - split; [ | split; [ | split]].
    + intros out. rewrite (Hrun module_namespace). simpl. discriminate.
    + intros Hyes. by destruct Hno.
    + intros _. apply Hrun.
    + intros Hyes. by destruct Hno.
Qed.

Lemma colorize_fails_before_clamp_witness :
  identifier "turbo" = true /\
  (length (shape image_1x2) = 3%nat \/
   exists B H W, shape image_1x2 = [B; 1%nat; H; W]) /\
  colorize module_namespace (fun _ => 0) image_1x2 "turbo"
  = Colorized image_1x2 (inl NameError).
Proof.
  assert (Hs : length (shape image_1x2) = 3%nat \/
               exists B H W, shape image_1x2 = [B; 1%nat; H; W])
    by (right; by exists 1%nat, 1%nat, 2%nat).
  assert (Hid : identifier "turbo" = true) by reflexivity.
  destruct (colorize_fails_before_clamp module_namespace (fun _ => 0) image_1x2
              "turbo" Hid) as (_ & Hname & _).
  split; [exact Hid | ]. split; [exact Hs | exact (Hname Hs)].
Defined.

(** X18: [colorize] changes its argument.  Once the two checks have passed
    and the colormap is found, the tensor that was passed in holds the
    clamped values, in the shape it had, whether or not a picture is
    returned then: every element that is a number lies in [0, 1].  A second
    call on it returns what the first call did and changes nothing more. *)
Theorem colorize_clamps_argument (attrs : gmap string colormap)
    (undef : fval -> Z) (t : tensor) (cmap : string) (f : colormap) (B H W : nat)
    (Hf : attrs !! cmap = Some f)
    (Hshape : shape t = [B; H; W] \/ shape t = [B; 1%nat; H; W]) :
  let r := colorize (Some attrs) undef t cmap in
  argument r = Tensor (shape t) (clamp01 <$> data t) /\
  Forall (fun v => v = NaN \/ exists c, v = Fin c /\ (0 <= c <= 1)%Q)
    (data (argument r)) /\
  (forall n, data t !! n = Some NaN -> data (argument r) !! n = Some NaN) /\
  colorize (Some attrs) undef (argument r) cmap = r.
Proof.
  intros r. unfold r.
  rewrite (colorize_run attrs undef t cmap f B H W Hf Hshape). cbn [argument].
  split; [reflexivity | ]. cbn [data]. split; [ | split].
  - rewrite Forall_fmap. apply Forall_forall. intros v _. simpl.
    assert (Hv : v = NaN \/ v <> NaN) by (destruct v; (by left) || by right).
    destruct Hv as [-> | Hv]; [by left | ].
    right. destruct (clamp01_range v Hv) as (c & Hc & Hr). by exists c.
  - intros n Hn. by rewrite list_lookup_fmap, Hn.
  - rewrite (colorize_run attrs undef (Tensor (shape t) (clamp01 <$> data t))
               cmap f B H W Hf Hshape). cbn [shape data].
    assert (Hid : clamp01 <$> (clamp01 <$> data t) = clamp01 <$> data t).
    { rewrite <- list_fmap_compose. apply list_fmap_ext. intros i v _.
      simpl. apply clamp01_idemp. }
    rewrite Hid. reflexivity.
Qed.

Lemma colorize_clamps_argument_witness :
  cm_gray !! "gray"%string = Some gray /\
  argument (colorize (Some cm_gray) (fun _ => 0) image_1x2 "gray")
  = Tensor [1; 1; 1; 2]%nat [Fin (1 # 3); Fin 1].
Proof.
  assert (Hf : cm_gray !! "gray"%string = Some gray) by reflexivity.
  destruct (colorize_clamps_argument cm_gray (fun _ => 0) image_1x2 "gray" gray
              1 1 2 Hf (or_intror eq_refl)) as (Harg & _).
  split; [exact Hf | ]. rewrite Harg. reflexivity.
Defined.

(** *** masked_loss: broadcasting and the sums *)

Lemma chunks_take {A} (d : list A) (a n : nat) :
  (seq 0 a ≫= fun i => chunk n i d) = take (a * n) d.
Proof.
  induction a as [ | a IH]; [by rewrite take_0 | ].
  rewrite seq_S, bind_app, bind_singleton, IH. simpl.
  unfold chunk. rewrite take_take_drop. f_equal. lia.
Qed.

Lemma chunks_all {A} (d : list A) (a n : nat) :
  length d = (a * n)%nat -> (seq 0 a ≫= fun i => chunk n i d) = d.
Proof. intros H. rewrite chunks_take, take_ge by lia. reflexivity. Qed.

Lemma chunk_length {A} (d : list A) (n b B : nat) :
  length d = (B * n)%nat -> (b < B)%nat -> length (chunk n b d) = n.
Proof.
  intros Hd Hb. unfold chunk. rewrite length_take, length_drop. nia.
Qed.

Lemma expand_data_same (s : list nat) (d : list fval) :
  length d = numel s -> expand_data s s d = d.
Proof.
  revert d. induction s as [ | a s IH]; intros d Hd; [reflexivity | ].
  cbn [expand_data]. rewrite bool_decide_eq_true_2 by reflexivity.
  cbn [numel foldr] in Hd. fold (numel s) in Hd.
  etrans; [ | exact (chunks_all d a (numel s) Hd)].
  apply Forall_bind_ext, Forall_forall. intros i Hi.
  apply IH. apply elem_of_seq in Hi. apply (chunk_length d _ i a Hd). lia.
Qed.

Lemma expand_same (x : tensor) :
  length (data x) = numel (shape x) -> expand (shape x) x = data x.
Proof.
  intros H. unfold expand. rewrite Nat.sub_diag. simpl.
  by apply expand_data_same.
Qed.

Lemma broadcast_rev_same (s : list nat) : broadcast_rev s s = Some s.
Proof.
  induction s as [ | a s IH]; [reflexivity | ].
  cbn [broadcast_rev]. rewrite IH. simpl.
  by rewrite bool_decide_eq_true_2.
Qed.

Lemma broadcast_shapes_same (s : list nat) : broadcast_shapes s s = Some s.
Proof.
  unfold broadcast_shapes. rewrite broadcast_rev_same. simpl.
  by rewrite reverse_involutive.
Qed.

Lemma binop_same (f : fval -> fval -> fval) (x y : tensor) :
  shape y = shape x ->
  length (data x) = numel (shape x) -> length (data y) = numel (shape x) ->
  binop f x y = inr (Tensor (shape x) (zip_with f (data x) (data y))).
Proof.
  intros Hs Hx Hy. unfold binop. rewrite Hs, broadcast_shapes_same.
  assert (Hey : expand (shape x) y = data y)
    by (rewrite <- Hs; apply expand_same; by rewrite Hs).
  rewrite (expand_same x Hx), Hey. reflexivity.
Qed.

(** A mask of one channel, expanded over [C] channels. *)
Lemma broadcast_shapes_channel (B C H W : nat) :
  broadcast_shapes [B; C; H; W] [B; 1%nat; H; W] = Some [B; C; H; W].
Proof.
  unfold broadcast_shapes.
  change (reverse [B; C; H; W]) with [W; H; C; B].
  change (reverse [B; 1%nat; H; W]) with [W; H; 1%nat; B].
  cbn [broadcast_rev].
  repeat case_bool_decide; try congruence; reflexivity.
Qed.

Lemma bind_const_app {A} (l : list A) (n : nat) :
  (seq 0 (S n) ≫= fun _ => l) = l ++ (seq 0 n ≫= fun _ => l).
Proof.
  change (seq 0 (S n)) with (0%nat :: seq 1 n). rewrite bind_cons. f_equal.
  rewrite <- (fmap_S_seq 0 n), list_fmap_bind. reflexivity.
Qed.

Lemma expand_data_cons (a b : nat) (s r : list nat) (d : list fval) :
  expand_data (a :: s) (b :: r) d
  = if bool_decide (a = b) then
      i ← seq 0 a; expand_data s r (chunk (numel s) i d)
    else
      _ ← seq 0 b; expand_data s r d.
Proof. reflexivity. Qed.

Lemma expand_channel (B C H W : nat) (d : list fval) :
  length d = (B * (H * W))%nat ->
  expand_data [B; 1%nat; H; W] [B; C; H; W] d
  = (b ← seq 0 B; _ ← seq 0 C; chunk (H * W) b d).
Proof.
  intros Hd. rewrite expand_data_cons, bool_decide_eq_true_2 by reflexivity.
  apply Forall_bind_ext, Forall_forall. intros b Hb. apply elem_of_seq in Hb.
  assert (Hn : numel [1%nat; H; W] = (H * W)%nat) by (simpl; lia).
  rewrite Hn.
  assert (Hc : length (chunk (H * W) b d) = numel [H; W]).
  { rewrite (chunk_length d (H * W) b B Hd) by lia. simpl. lia. }
  pose proof (expand_data_same [H; W] _ Hc) as Hid.
  rewrite expand_data_cons.
  case_bool_decide as HC.
  - subst C. change (seq 0 1) with [0%nat]. rewrite !bind_singleton.
    replace (numel [H; W]) with (H * W)%nat by (simpl; lia).
    unfold chunk at 1. replace (0 * (H * W))%nat with 0%nat by lia.
    rewrite drop_0, take_ge by (rewrite (chunk_length d (H * W) b B Hd); lia).
    exact Hid.
  - apply Forall_bind_ext, Forall_forall. intros c _. exact Hid.
Qed.

Lemma bind_fmap_singleton {A B} (g : A -> B) (l : list A) :
  (l ≫= fun x => [g x]) = g <$> l.
Proof. induction l as [ | x l IH]; [reflexivity | ]. rewrite bind_cons, IH. reflexivity. Qed.

Lemma lookups_take_drop {A} (d : list A) (k n : nat) :
  (k + n <= length d)%nat ->
  (seq 0 n ≫= fun m => option_list (d !! (k + m)%nat)) = take n (drop k d).
Proof.
  intros Hk. induction n as [ | n IH]; [by rewrite take_0 | ].
  rewrite seq_S, bind_app, bind_singleton, IH by lia. simpl.
  destruct (lookup_lt_is_Some_2 d (k + n)%nat) as [x Hx]; [lia | ].
  rewrite Hx. simpl. symmetry. apply take_S_r. by rewrite lookup_drop.
Qed.

(** The sum over the three last axes of a tensor of four: one sum for every
    image. *)
Lemma sum_123_images (B C H W : nat) (d : list fval) :
  length d = (B * (C * H * W))%nat ->
  sum_123 (Tensor [B; C; H; W] d)
  = inr (Tensor [B] ((fun b => fsum (chunk (C * H * W) b d)) <$> seq 0 B)).
Proof.
  intros Hd. unfold sum_123. cbn [shape data numel foldr].
  unfold mret, res_ret. do 2 f_equal.
  rewrite <- bind_fmap_singleton.
  apply Forall_bind_ext, Forall_forall. intros b Hb. apply elem_of_seq in Hb.
  change (seq 0 1) with [0%nat]. rewrite bind_singleton. do 2 f_equal.
  unfold chunk.
  rewrite <- (lookups_take_drop d (b * (C * H * W)) (C * H * W)) by nia.
  apply list_bind_ext; [ | reflexivity]. intros m. do 2 f_equal. lia.
Qed.

Lemma chunk_zip_with {A B C} (f : A -> B -> C) (n b : nat) (l : list A) (k : list B) :
  chunk n b (zip_with f l k) = zip_with f (chunk n b l) (chunk n b k).
Proof. unfold chunk. by rewrite zip_with_drop, zip_with_take. Qed.

Lemma chunk_blocks {A} (g : nat -> list A) (n B b : nat) :
  (forall i, (i < B)%nat -> length (g i) = n) -> (b < B)%nat ->
  chunk n b (seq 0 B ≫= g) = g b.
Proof.
  intros Hg Hb. apply bind_blocks_chunk; [by apply seq_all | ].
  by rewrite lookup_seq_lt.
Qed.

Lemma tiled_one {A} (l : list A) : tiled 1 l = l.
Proof. unfold tiled. change (seq 0 1) with [0%nat]. by rewrite bind_singleton. Qed.

Lemma tiled_length {A} (k : nat) (l : list A) : length (tiled k l) = (k * length l)%nat.
Proof. unfold tiled. apply seq_blocks_length. reflexivity. Qed.

Lemma masked_loss_distance (img_ref img_gen mask : tensor) (name : string) :
  name = "l1"%string \/ name = "l2"%string ->
  masked_loss img_ref img_gen mask name
  = (loss ← binop (distance_fn name) img_ref img_gen;
     weighted ← binop fmul loss mask;
     loss ← sum_123 weighted;
     total ← sum_123 mask;
     binop fdiv loss total).
Proof. intros [-> | ->]; reflexivity. Qed.

(** The loss of every image of a batch, for a mask of the shape of the
    images or of one channel. *)
Lemma masked_loss_images (img_ref img_gen mask : tensor) (name : string)
    (B C Cm H W : nat) :
  name = "l1"%string \/ name = "l2"%string ->
  shape img_ref = [B; C; H; W] -> shape img_gen = [B; C; H; W] ->
  shape mask = [B; Cm; H; W] -> Cm = C \/ Cm = 1%nat ->
  length (data img_ref) = (B * (C * H * W))%nat ->
  length (data img_gen) = (B * (C * H * W))%nat ->
  length (data mask) = (B * (Cm * H * W))%nat ->
  masked_loss img_ref img_gen mask name
  = inr (Tensor [B]
           ((fun b => image_loss (distance_fn name)
                        (chunk (C * H * W) b (data img_ref))
                        (chunk (C * H * W) b (data img_gen))
                        (tiled (C / Cm) (chunk (Cm * H * W) b (data mask)))
                        (chunk (Cm * H * W) b (data mask))) <$> seq 0 B)).
Proof.
  intros Hname Hr Hg Hm HCm Lr Lg Lm.
  rewrite (masked_loss_distance _ _ _ _ Hname).
  destruct img_ref as [sr dr], img_gen as [sg dg], mask as [sm dm].
  cbn [shape data] in *. subst sr sg sm.
  assert (Hnum : numel [B; C; H; W] = (B * (C * H * W))%nat) by (simpl; lia).
  rewrite (binop_same _ (Tensor [B; C; H; W] dr) (Tensor [B; C; H; W] dg));
    [ | reflexivity | by (cbn [shape data]; rewrite Hnum) | by (cbn [shape data]; rewrite Hnum)].
  cbn [shape data mbind res_bind].
  set (ld := zip_with (distance_fn name) dr dg).
  assert (Lld : length ld = (B * (C * H * W))%nat)
    by (unfold ld; rewrite length_zip_with; lia).
  (* the mask laid over the distances *)
  assert (Hover : exists over,
            binop fmul (Tensor [B; C; H; W] ld) (Tensor [B; Cm; H; W] dm)
            = inr (Tensor [B; C; H; W] (zip_with fmul ld over)) /\
            length over = (B * (C * H * W))%nat /\
            forall b, (b < B)%nat ->
              chunk (C * H * W) b over
              = tiled (C / Cm) (chunk (Cm * H * W) b dm)).
  { destruct (decide (Cm = 1%nat)) as [-> | Hne].
    - exists (b ← seq 0 B; _ ← seq 0 C; chunk (H * W) b dm).
      assert (Lm' : length dm = (B * (H * W))%nat) by lia.
      assert (Hblock : forall b, (b < B)%nat ->
                length (_ ← seq 0 C; chunk (H * W) b dm) = (C * H * W)%nat).
      { intros b Hb. rewrite (seq_blocks_length _ C (H * W)); [lia | ].
        intros _ _. by apply (chunk_length dm _ b B). }
      split; [ | split].
      + unfold binop. cbn [shape data]. rewrite broadcast_shapes_channel.
        unfold expand at 1. cbn [shape data length]. rewrite Nat.sub_diag.
        cbn [replicate app]. rewrite expand_data_same by by rewrite Hnum.
        unfold expand. cbn [shape data length]. rewrite Nat.sub_diag.
        cbn [replicate app]. rewrite (expand_channel B C H W dm Lm'). reflexivity.
      + rewrite (seq_blocks_length _ B (C * H * W) Hblock). reflexivity.
      + intros b Hb. rewrite (chunk_blocks _ (C * H * W) B b Hblock Hb).
        rewrite Nat.div_1_r. unfold tiled.
        replace (1 * H * W)%nat with (H * W)%nat by lia. reflexivity.
    - destruct HCm as [-> | ->]; [ | done].
      exists dm. split; [ | split; [exact Lm | ]].
      + rewrite (binop_same _ (Tensor [B; C; H; W] ld) (Tensor [B; C; H; W] dm));
          [reflexivity | reflexivity | by (cbn [shape data]; rewrite Hnum) | by (cbn [shape data]; rewrite Hnum)].
      + intros b Hb. destruct (decide (C = 0%nat)) as [-> | HC].
        * reflexivity.
        * rewrite Nat.div_same by exact HC. by rewrite tiled_one. }
  destruct Hover as (over & -> & Lover & Hchunk).
  cbn [mbind res_bind].
  rewrite (sum_123_images B C H W) by (rewrite length_zip_with; lia).
  rewrite (sum_123_images B Cm H W dm Lm).
  cbn [mbind res_bind].
  rewrite binop_same; cbn [shape data numel foldr];
    [ | reflexivity | rewrite length_fmap, length_seq; lia
      | rewrite length_fmap, length_seq; lia].
  do 2 f_equal. rewrite zip_with_fmap_l, zip_with_fmap_r, zip_with_diag.
  apply list_fmap_ext. intros i b Hb. apply lookup_seq in Hb as [-> Hb].
  change (0 + i)%nat with i. unfold image_loss. rewrite chunk_zip_with, (Hchunk _ Hb).
  unfold ld. rewrite chunk_zip_with. reflexivity.
Qed.

(** *** masked_loss: one image *)

Lemma Qzero_true (q : Q) : (q == 0)%Q -> Qzero q = true.
Proof. intros H. unfold Qzero. by apply Qeq_bool_iff. Qed.

Lemma fadd_zero_or_nan (a b : fval) :
  is_zero a \/ a = NaN -> is_zero b \/ b = NaN ->
  is_zero (fadd a b) \/ fadd a b = NaN.
Proof.
  intros [(x & -> & Hx) | ->] [(y & -> & Hy) | ->]; simpl; try (by right).
  left. exists (x + y)%Q. split; [reflexivity | ]. rewrite Hx, Hy. reflexivity.
Qed.

Lemma fmul_zero (a b : fval) : is_zero b -> is_zero (fmul a b) \/ fmul a b = NaN.
Proof.
  intros (y & -> & Hy). destruct a as [x | s | ]; simpl.
  - left. exists (x * y)%Q. split; [reflexivity | ]. rewrite Hy. ring.
  - right. by rewrite (Qzero_true y Hy).
  - by right.
Qed.

Lemma foldl_zero_or_nan (l : list fval) (a : fval) :
  is_zero a \/ a = NaN -> Forall (fun v => is_zero v \/ v = NaN) l ->
  is_zero (foldl fadd a l) \/ foldl fadd a l = NaN.
Proof.
  intros Ha Hl. revert a Ha. induction Hl as [ | v l Hv _ IH]; intros a Ha; [exact Ha | ].
  simpl. apply IH. by apply fadd_zero_or_nan.
Qed.

Lemma fsum_zero (l : list fval) : Forall is_zero l -> is_zero (fsum l).
Proof.
  intros Hl. unfold fsum.
  assert (Hgen : forall a, is_zero a -> is_zero (foldl fadd a l)).
  { induction Hl as [ | v l (y & -> & Hy) _ IH]; intros a Ha; [exact Ha | ].
    simpl. apply IH. destruct Ha as (x & -> & Hx). exists (x + y)%Q.
    split; [reflexivity | ]. rewrite Hx, Hy. reflexivity. }
  apply Hgen. by exists 0%Q.
Qed.

(** Without a valid pixel the loss of an image is not a number, whatever
    the two images hold. *)
Lemma image_loss_empty_mask (dist : fval -> fval -> fval)
    (r g over m : list fval) :
  Forall is_zero m -> Forall is_zero over -> image_loss dist r g over m = NaN.
Proof.
  intros Hm Hover. unfold image_loss.
  destruct (fsum_zero m Hm) as (z & -> & Hz).
  assert (Hnum : is_zero (fsum (zip_with fmul (zip_with dist r g) over))
                 \/ fsum (zip_with fmul (zip_with dist r g) over) = NaN).
  { apply foldl_zero_or_nan; [left; by exists 0%Q | ].
    apply Forall_forall. intros v Hv.
    apply list_elem_of_lookup in Hv as [i Hv].
    apply lookup_zip_with_Some in Hv as (d & o & -> & _ & Ho).
    apply fmul_zero. rewrite Forall_forall in Hover. apply Hover.
    by eapply list_elem_of_lookup_2. }
  destruct Hnum as [(s & -> & Hs) | ->]; [ | reflexivity].
  simpl. by rewrite (Qzero_true z Hz), (Qzero_true s Hs).
Qed.

Lemma tiled_Forall {A} (P : A -> Prop) (k : nat) (l : list A) :
  Forall P l -> Forall P (tiled k l).
Proof.
  intros Hl. unfold tiled. induction (seq 0 k) as [ | i s IH]; [constructor | ].
  rewrite bind_cons. by apply Forall_app.
Qed.

(** *** masked_loss: channels and pixels *)

Lemma chunk_lookup {A} (d : list A) (n b j : nat) :
  (j < n)%nat -> chunk n b d !! j = d !! (b * n + j)%nat.
Proof. intros Hj. unfold chunk. by rewrite lookup_take_lt, lookup_drop. Qed.

Lemma pixel_position (C H W j : nat) :
  (j < C * H * W)%nat ->
  (j / (H * W) < C)%nat /\ (j mod (H * W) < H * W)%nat /\
  j = (j / (H * W) * (H * W) + j mod (H * W))%nat.
Proof.
  intros Hj. assert (HW : (H * W)%nat <> 0%nat) by nia.
  split; [apply Nat.Div0.div_lt_upper_bound; nia | ].
  split; [by apply Nat.mod_upper_bound | ].
  rewrite (Nat.div_mod_eq j (H * W)) at 1. lia.
Qed.

Lemma chunk_elem (d : list fval) (C H W b c p : nat) :
  (c < C)%nat -> (p < H * W)%nat ->
  chunk (C * H * W) b d !! (c * (H * W) + p)%nat = elem d C (H * W) b c p.
Proof.
  intros Hc Hp. rewrite chunk_lookup by nia. unfold elem. f_equal. lia.
Qed.

Lemma chunk_Forall_elem (P : fval -> Prop) (d : list fval) (C H W b : nat) :
  (forall c p v, (c < C)%nat -> (p < H * W)%nat ->
     elem d C (H * W) b c p = Some v -> P v) ->
  Forall P (chunk (C * H * W) b d).
Proof.
  intros Hall. apply Forall_lookup. intros j v Hv.
  assert (Hj : (j < C * H * W)%nat).
  { apply lookup_lt_Some in Hv. unfold chunk in Hv.
    rewrite length_take in Hv. lia. }
  destruct (pixel_position C H W j Hj) as (Hc & Hp & Heq).
  rewrite Heq, chunk_elem in Hv by done. by eapply Hall.
Qed.

(** The mask element that lies over channel [c] and pixel [p] of an
    image: the one of channel [c] for a mask of the shape of the images,
    the one of the only channel for a mask of one channel. *)
Lemma tiled_mask_elem (d : list fval) (B C Cm H W b c p : nat) :
  Cm = C \/ Cm = 1%nat -> length d = (B * (Cm * H * W))%nat ->
  (b < B)%nat -> (c < C)%nat -> (p < H * W)%nat ->
  tiled (C / Cm) (chunk (Cm * H * W) b d) !! (c * (H * W) + p)%nat
  = elem d Cm (H * W) b (c mod Cm) p.
Proof.
  intros HCm Hd Hb Hc Hp.
  destruct (decide (Cm = 1%nat)) as [-> | Hne].
  - rewrite Nat.div_1_r, Nat.mod_1_r. unfold tiled.
    rewrite (seq_blocks_lookup _ C (H * W)); [ | | exact Hc | exact Hp].
    + replace p with (0 * (H * W) + p)%nat at 1 by lia.
      rewrite chunk_elem by lia. reflexivity.
    + intros _ _. rewrite (chunk_length d _ b B Hd Hb). lia.
  - destruct HCm as [-> | ->]; [ | done].
    rewrite Nat.div_same by lia. rewrite tiled_one, Nat.mod_small by exact Hc.
    by apply chunk_elem.
Qed.

(** X19: for a mask that is zero all over an image, [masked_loss] gives no
    number as the loss of this image, whatever the two images hold: the
    sum of the mask it divides by is zero.  The images have shape
    (B, C, H, W), and the mask this shape or one channel. *)
Theorem masked_loss_empty_mask (img_ref img_gen mask : tensor) (name : string)
    (B C Cm H W b : nat)
    (Hname : name = "l1"%string \/ name = "l2"%string)
    (Href : shape img_ref = [B; C; H; W]) (Hgen : shape img_gen = [B; C; H; W])
    (Hmask : shape mask = [B; Cm; H; W]) (HCm : Cm = C \/ Cm = 1%nat)
    (Lref : length (data img_ref) = (B * (C * H * W))%nat)
    (Lgen : length (data img_gen) = (B * (C * H * W))%nat)
    (Lmask : length (data mask) = (B * (Cm * H * W))%nat)
    (Hb : (b < B)%nat)
    (Hzero : forall c p v, (c < Cm)%nat -> (p < H * W)%nat ->
       elem (data mask) Cm (H * W) b c p = Some v -> is_zero v) :
  exists out, masked_loss img_ref img_gen mask name = inr out /\
    shape out = [B] /\ length (data out) = B /\ data out !! b = Some NaN.
Proof.
  rewrite (masked_loss_images img_ref img_gen mask name B C Cm H W
             Hname Href Hgen Hmask HCm Lref Lgen Lmask).
  eexists. split; [reflexivity | ]. cbn [shape data].
  split; [reflexivity | ]. split; [by rewrite length_fmap, length_seq | ].
  rewrite list_lookup_fmap, lookup_seq_lt by exact Hb. cbn [fmap option_fmap option_map].
  f_equal. change (0 + b)%nat with b.
  assert (Hm : Forall is_zero (chunk (Cm * H * W) b (data mask)))
    by by apply chunk_Forall_elem.
  apply image_loss_empty_mask; [exact Hm | by apply tiled_Forall].
Qed.

(** *** masked_loss: the loss of an image between two bounds *)

Lemma Qzero_false (q : Q) : ~ (q == 0)%Q -> Qzero q = false.
Proof.
  intros H. unfold Qzero. destruct (Qeq_bool q 0) eqn:E; [ | reflexivity].
  exfalso. apply H. by apply Qeq_bool_iff.
Qed.

Lemma distance_fn_numbers (name : string) (x y : Q) :
  distance_fn name (Fin x) (Fin y) = Fin (distance_of name x y).
Proof.
  unfold distance_fn, distance_of. destruct (String.eqb name "l1"); [ | reflexivity].
  simpl. change (x + - y)%Q with (x - y)%Q. by destruct (Qle_bool 0 (x - y)).
Qed.

Lemma weighted_sum_bounds (ds over : list fval) (lo hi : Q) :
  Forall2 (fun d o => exists x y, d = Fin x /\ o = Fin y /\
             ((y == 0)%Q \/ ((y == 1)%Q /\ (lo <= x <= hi)%Q))) ds over ->
  forall acc accT, exists S T,
    foldl fadd (Fin acc) (zip_with fmul ds over) = Fin S /\
    foldl fadd (Fin accT) over = Fin T /\
    (lo * (T - accT) <= S - acc <= hi * (T - accT))%Q /\ (accT <= T)%Q.
Proof.
  induction 1 as [ | d o ds over (x & y & -> & -> & Hy) _ IH]; intros acc accT.
  - exists acc, accT. split; [reflexivity | ]. split; [reflexivity | ].
    split; [ | lra].
    assert (E1 : (accT - accT == 0)%Q) by ring.
    assert (E2 : (acc - acc == 0)%Q) by ring.
    rewrite E1, E2. lra.
  - cbn [zip_with foldl fmul fadd].
    destruct (IH (acc + x * y)%Q (accT + y)%Q) as (S & T & HS & HT & Hb & Hmono).
    exists S, T. split; [exact HS | ]. split; [exact HT | ].
    destruct Hy as [Hy | [Hy Hx]].
    + assert (E : (x * y == 0)%Q) by (rewrite Hy; ring).
      assert (E1 : (T - (accT + y) == T - accT)%Q) by (rewrite Hy; ring).
      assert (E2 : (S - (acc + x * y) == S - acc)%Q) by (rewrite E; ring).
      rewrite E1, E2 in Hb. split; [exact Hb | lra].
    + assert (E : (x * y == x)%Q) by (rewrite Hy; ring).
      assert (E1 : (lo * (T - (accT + y)) == lo * (T - accT) - lo)%Q)
        by (rewrite Hy; ring).
      assert (E2 : (hi * (T - (accT + y)) == hi * (T - accT) - hi)%Q)
        by (rewrite Hy; ring).
      assert (E3 : (S - (acc + x * y) == S - acc - x)%Q) by (rewrite E; ring).
      rewrite E1, E2, E3 in Hb. split; [lra | lra].
Qed.

Lemma foldl_numbers (l : list fval) :
  Forall is_number l ->
  exists total, forall a, exists s,
    foldl fadd (Fin a) l = Fin s /\ (s == a + total)%Q.
Proof.
  induction 1 as [ | v l [x ->] _ (total & IH)].
  - exists 0%Q. intros a. exists a. split; [reflexivity | ring].
  - exists (x + total)%Q. intros a. destruct (IH (a + x)%Q) as (s & Hs & E).
    exists s. split; [exact Hs | ]. rewrite E. ring.
Qed.

Lemma foldl_tiled (m : list fval) (total : Q) (k : nat) :
  (forall a, exists s, foldl fadd (Fin a) m = Fin s /\ (s == a + total)%Q) ->
  forall a, exists s,
    foldl fadd (Fin a) (tiled k m) = Fin s /\
    (s == a + inject_Z (Z.of_nat k) * total)%Q.
Proof.
  intros Hm. induction k as [ | k IH]; intros a.
  - exists a. split; [reflexivity | ]. change (inject_Z (Z.of_nat 0)) with 0%Q. ring.
  - unfold tiled. rewrite bind_const_app, foldl_app.
    destruct (Hm a) as (s1 & -> & E1). destruct (IH s1) as (s & Hs & E).
    exists s. split; [exact Hs | ].
    rewrite E, E1, Nat2Z.inj_succ. unfold Z.succ. rewrite inject_Z_plus.
    change (inject_Z 1) with 1%Q. ring.
Qed.

Lemma mask_sum_mono (m : list fval) (a : Q) :
  Forall (fun v => is_zero v \/ is_one v) m ->
  exists s, foldl fadd (Fin a) m = Fin s /\ (a <= s)%Q.
Proof.
  intros Hm. revert a. induction Hm as [ | v m Hv _ IH]; intros a.
  - exists a. split; [reflexivity | lra].
  - assert (Hy : exists y, v = Fin y /\ (0 <= y)%Q).
    { destruct Hv as [(y & -> & Hy) | (y & -> & Hy)]; exists y; (split; [done | lra]). }
    destruct Hy as (y & -> & Hy). destruct (IH (a + y)%Q) as (s & Hs & Hle).
    exists s. split; [exact Hs | lra].
Qed.

Lemma mask_sum_positive (m : list fval) (a : Q) :
  Forall (fun v => is_zero v \/ is_one v) m -> Exists is_one m ->
  exists s, foldl fadd (Fin a) m = Fin s /\ (a + 1 <= s)%Q.
Proof.
  intros Hm Hex. revert a. induction Hex as [v m (y & -> & Hy) | v m _ IH]; intros a.
  - apply Forall_cons in Hm as [_ Hm].
    destruct (mask_sum_mono m (a + y)%Q Hm) as (s & Hs & Hle).
    exists s. split; [exact Hs | lra].
  - apply Forall_cons in Hm as [Hv Hm].
    assert (Hy : exists y, v = Fin y /\ (0 <= y)%Q).
    { destruct Hv as [(y & -> & Hy) | (y & -> & Hy)]; exists y; (split; [done | lra]). }
    destruct Hy as (y & -> & Hy). destruct (IH Hm (a + y)%Q) as (s & Hs & Hle).
    exists s. split; [exact Hs | lra].
Qed.

Lemma ratio_bounds (S M k lo hi T : Q) :
  (0 < M)%Q -> (T == k * M)%Q -> (lo * T <= S <= hi * T)%Q ->
  (k * lo <= S / M <= k * hi)%Q.
Proof.
  intros HM HT [H1 H2]. split.
  - apply Qle_shift_div_l; [exact HM | ].
    assert (E : (k * lo * M == lo * T)%Q) by (rewrite HT; ring). by rewrite E.
  - apply Qle_shift_div_r; [exact HM | ].
    assert (E : (k * hi * M == hi * T)%Q) by (rewrite HT; ring). by rewrite E.
Qed.

(** The loss of an image with a valid pixel, from the bounds of the
    distances under the valid elements of the mask laid over it. *)
Lemma image_loss_bounds (ds m : list fval) (k : nat) (lo hi : Q) :
  Forall (fun v => is_zero v \/ is_one v) m -> Exists is_one m ->
  Forall2 (fun d o => exists x y, d = Fin x /\ o = Fin y /\
             ((y == 0)%Q \/ ((y == 1)%Q /\ (lo <= x <= hi)%Q))) ds (tiled k m) ->
  exists q,
    fdiv (fsum (zip_with fmul ds (tiled k m))) (fsum m) = Fin q /\
    (inject_Z (Z.of_nat k) * lo <= q <= inject_Z (Z.of_nat k) * hi)%Q.
Proof.
  intros Hm Hex Hds. unfold fsum.
  destruct (weighted_sum_bounds ds (tiled k m) lo hi Hds 0%Q 0%Q)
    as (S & T & -> & HT & Hb & _).
  assert (Hnum : Forall is_number m).
  { eapply Forall_impl; [exact Hm | ].
    intros v [(y & -> & _) | (y & -> & _)]; by exists y. }
  destruct (foldl_numbers m Hnum) as (total & Htotal).
  destruct (foldl_tiled m total k Htotal 0%Q) as (T' & HT' & ET).
  rewrite HT in HT'. injection HT' as <-.
  destruct (Htotal 0%Q) as (M & HM & EM).
  destruct (mask_sum_positive m 0%Q Hm Hex) as (M' & HM' & Hpos).
  rewrite HM in HM'. injection HM' as <-. rewrite HM.
  assert (HMpos : (0 < M)%Q) by lra.
  cbn [fdiv]. rewrite (Qzero_false M) by lra.
  exists (S / M)%Q. split; [reflexivity | ].
  apply (ratio_bounds S M _ lo hi T HMpos).
  - rewrite ET, EM. ring.
  - assert (E1 : (T - 0 == T)%Q) by ring. assert (E2 : (S - 0 == S)%Q) by ring.
    by rewrite E1, E2 in Hb.
Qed.

Lemma masked_loss_empty_mask_witness :
  (forall c p v, (c < 1)%nat -> (p < 1 * 1)%nat ->
     elem (data mask_off) 1 (1 * 1) 0 c p = Some v -> is_zero v) /\
  exists out, masked_loss ref_2x1 gen_2x1 mask_off "l1" = inr out /\
    data out !! 0%nat = Some NaN.
Proof.
  assert (Hzero : forall c p v, (c < 1)%nat -> (p < 1 * 1)%nat ->
            elem (data mask_off) 1 (1 * 1) 0 c p = Some v -> is_zero v).
  { intros c p v Hc Hp. assert (c = 0%nat) as -> by lia.
    assert (p = 0%nat) as -> by lia. intros E. injection E as <-. by exists 0%Q. }
  destruct (masked_loss_empty_mask ref_2x1 gen_2x1 mask_off "l1" 1 2 1 1 1 0)
    as (out & Hout & _ & _ & Hnan);
    [by left | reflexivity | reflexivity | reflexivity | by right | reflexivity
     | reflexivity | reflexivity | lia | exact Hzero | ].
  split; [exact Hzero | ]. exists out. split; [exact Hout | exact Hnan].
Defined.

(** In exact arithmetic the loss of an image with a valid pixel lies
    between the bounds of the distances under the valid elements of the
    mask, times the number of times the mask is laid over the image. *)
Lemma masked_loss_between (img_ref img_gen mask : tensor) (name : string)
    (B C Cm H W b : nat) (lo hi : Q)
    (Hname : name = "l1"%string \/ name = "l2"%string)
    (Href : shape img_ref = [B; C; H; W]) (Hgen : shape img_gen = [B; C; H; W])
    (Hmask : shape mask = [B; Cm; H; W]) (HCm : Cm = C \/ Cm = 1%nat)
    (Lref : length (data img_ref) = (B * (C * H * W))%nat)
    (Lgen : length (data img_gen) = (B * (C * H * W))%nat)
    (Lmask : length (data mask) = (B * (Cm * H * W))%nat)
    (Hb : (b < B)%nat)
    (Hfin : forall c p, (c < C)%nat -> (p < H * W)%nat ->
       exists x y, elem (data img_ref) C (H * W) b c p = Some (Fin x) /\
                   elem (data img_gen) C (H * W) b c p = Some (Fin y))
    (Hbin : forall c p v, (c < Cm)%nat -> (p < H * W)%nat ->
       elem (data mask) Cm (H * W) b c p = Some v -> is_zero v \/ is_one v)
    (Hvalid : exists c p v, (c < Cm)%nat /\ (p < H * W)%nat /\
       elem (data mask) Cm (H * W) b c p = Some v /\ is_one v)
    (Hbound : forall c p x y v, (c < C)%nat -> (p < H * W)%nat ->
       elem (data img_ref) C (H * W) b c p = Some (Fin x) ->
       elem (data img_gen) C (H * W) b c p = Some (Fin y) ->
       elem (data mask) Cm (H * W) b (c mod Cm) p = Some v -> is_one v ->
       (lo <= distance_of name x y <= hi)%Q) :
  exists out q, masked_loss img_ref img_gen mask name = inr out /\
    data out !! b = Some (Fin q) /\
    (inject_Z (Z.of_nat (C / Cm)) * lo <= q
     <= inject_Z (Z.of_nat (C / Cm)) * hi)%Q.
Proof.
  rewrite (masked_loss_images img_ref img_gen mask name B C Cm H W
             Hname Href Hgen Hmask HCm Lref Lgen Lmask).
  set (r := chunk (C * H * W) b (data img_ref)).
  set (g := chunk (C * H * W) b (data img_gen)).
  set (m := chunk (Cm * H * W) b (data mask)).
  assert (Hm : Forall (fun v => is_zero v \/ is_one v) m)
    by by apply chunk_Forall_elem.
  assert (Hex : Exists is_one m).
  { destruct Hvalid as (c & p & v & Hc & Hp & Hv & Hone).
    apply Exists_exists. exists v. split; [ | exact Hone].
    apply (list_elem_of_lookup_2 _ (c * (H * W) + p)%nat).
    unfold m. by rewrite chunk_elem. }
  assert (Lr : length r = (C * H * W)%nat) by by apply (chunk_length _ _ b B).
  assert (Lg : length g = (C * H * W)%nat) by by apply (chunk_length _ _ b B).
  assert (Lm : length m = (Cm * H * W)%nat) by by apply (chunk_length _ _ b B).
  assert (Lover : length (tiled (C / Cm) m) = (C * H * W)%nat).
  { rewrite tiled_length, Lm. destruct HCm as [-> | ->].
    - destruct (decide (C = 0%nat)) as [-> | HC]; [reflexivity | ].
      rewrite Nat.div_same by exact HC. lia.
    - rewrite Nat.div_1_r. lia. }
  assert (Hmod : forall c, (c < C)%nat -> (c mod Cm < Cm)%nat).
  { intros c Hc. apply Nat.mod_upper_bound. destruct HCm as [-> | ->]; lia. }
  assert (Hds : Forall2 (fun d o => exists x y, d = Fin x /\ o = Fin y /\
              ((y == 0)%Q \/ ((y == 1)%Q /\ (lo <= x <= hi)%Q)))
            (zip_with (distance_fn name) r g) (tiled (C / Cm) m)).
  { apply Forall2_same_length_lookup_2.
    - rewrite length_zip_with, Lr, Lg, Lover. lia.
    - intros j d o Hd Ho.
      apply lookup_zip_with_Some in Hd as (vr & vg & -> & Hvr & Hvg).
      assert (Hj : (j < C * H * W)%nat) by (apply lookup_lt_Some in Hvr; lia).
      destruct (pixel_position C H W j Hj) as (Hc & Hp & Heq).
      set (c := (j / (H * W))%nat) in *. set (p := (j mod (H * W))%nat) in *.
      rewrite Heq in Hvr, Hvg, Ho. unfold r in Hvr. unfold g in Hvg.
      rewrite chunk_elem in Hvr by done. rewrite chunk_elem in Hvg by done.
      unfold m in Ho.
      rewrite (tiled_mask_elem _ B C Cm H W b c p HCm Lmask Hb Hc Hp) in Ho.
      destruct (Hfin c p Hc Hp) as (x & y & Hx & Hy).
      rewrite Hx in Hvr. injection Hvr as <-.
      rewrite Hy in Hvg. injection Hvg as <-.
      rewrite distance_fn_numbers. exists (distance_of name x y).
      destruct (Hbin _ p o (Hmod c Hc) Hp Ho) as [(z & -> & Hz) | (z & -> & Hz)].
      + exists z. split; [reflexivity | ]. split; [reflexivity | by left].
      + exists z. split; [reflexivity | ]. split; [reflexivity | ].
        right. split; [exact Hz | ].
        apply (Hbound c p x y (Fin z) Hc Hp Hx Hy Ho). by exists z. }
  destruct (image_loss_bounds _ m (C / Cm) lo hi Hm Hex Hds) as (q & Hq & Hrange).
  eexists. exists q. split; [reflexivity | ]. cbn [data].
  split; [ | exact Hrange].
  rewrite list_lookup_fmap, lookup_seq_lt by exact Hb.
  cbn [fmap option_fmap option_map]. f_equal. exact Hq.
Qed.

Lemma distance_of_unit (name : string) (x y : Q) :
  (-1 <= x <= 1)%Q -> (-1 <= y <= 1)%Q -> (0 <= distance_of name x y <= 4)%Q.
Proof.
  intros Hx Hy. unfold distance_of.
  destruct (String.eqb name "l1").
  - destruct (Qle_bool 0 (x - y)) eqn:E.
    + apply Qle_bool_iff in E. lra.
    + assert (H : ~ (0 <= x - y)%Q)
        by (intros H; apply Qle_bool_iff in H; congruence).
      lra.
  - assert (Hd : (-2 <= x - y <= 2)%Q) by lra.
    set (d := (x - y)%Q) in *. clearbody d.
    assert (H1 : (0 <= (2 - d) * (2 + d))%Q)
      by (apply Qmult_le_0_compat; lra).
    assert (E : ((2 - d) * (2 + d) == 4 - d * d)%Q) by ring.
    rewrite E in H1. split; [nra | lra].
Qed.

Lemma distance_of_equal (name : string) (x y : Q) :
  (x == y)%Q -> (distance_of name x y == 0)%Q.
Proof.
  intros E. unfold distance_of.
  destruct (String.eqb name "l1"); [ | rewrite E; ring].
  destruct (Qle_bool 0 (x - y)); rewrite E; ring.
Qed.

(** X20: the loss that [masked_loss] gives an image with a valid pixel is
    not negative, and it is zero when the two images agree under the valid
    elements of the mask, whatever they hold elsewhere.  This is for images
    of shape (B, C, H, W) of numbers between -1 and 1, the range of the
    scans that the datasets return, where no distance leaves the range of
    the floats, and for a mask of zeros and ones of the same shape or of
    one channel. *)
Theorem masked_loss_zero_on_agreement (img_ref img_gen mask : tensor)
    (name : string) (B C Cm H W b : nat)
    (Hname : name = "l1"%string \/ name = "l2"%string)
    (Href : shape img_ref = [B; C; H; W]) (Hgen : shape img_gen = [B; C; H; W])
    (Hmask : shape mask = [B; Cm; H; W]) (HCm : Cm = C \/ Cm = 1%nat)
    (Lref : length (data img_ref) = (B * (C * H * W))%nat)
    (Lgen : length (data img_gen) = (B * (C * H * W))%nat)
    (Lmask : length (data mask) = (B * (Cm * H * W))%nat)
    (Hb : (b < B)%nat)
    (Hunit : forall c p, (c < C)%nat -> (p < H * W)%nat ->
       exists x y, elem (data img_ref) C (H * W) b c p = Some (Fin x) /\
                   elem (data img_gen) C (H * W) b c p = Some (Fin y) /\
                   (-1 <= x <= 1)%Q /\ (-1 <= y <= 1)%Q)
    (Hbin : forall c p v, (c < Cm)%nat -> (p < H * W)%nat ->
       elem (data mask) Cm (H * W) b c p = Some v -> is_zero v \/ is_one v)
    (Hvalid : exists c p v, (c < Cm)%nat /\ (p < H * W)%nat /\
       elem (data mask) Cm (H * W) b c p = Some v /\ is_one v) :
  exists out q, masked_loss img_ref img_gen mask name = inr out /\
    data out !! b = Some (Fin q) /\
    (0 <= q)%Q /\
    ((forall c p x y v, (c < C)%nat -> (p < H * W)%nat ->
        elem (data img_ref) C (H * W) b c p = Some (Fin x) ->
        elem (data img_gen) C (H * W) b c p = Some (Fin y) ->
        elem (data mask) Cm (H * W) b (c mod Cm) p = Some v -> is_one v ->
        (x == y)%Q) ->
     (q == 0)%Q).
Proof.
  assert (Hfin : forall c p, (c < C)%nat -> (p < H * W)%nat ->
            exists x y, elem (data img_ref) C (H * W) b c p = Some (Fin x) /\
                        elem (data img_gen) C (H * W) b c p = Some (Fin y)).
  { intros c p Hc Hp. destruct (Hunit c p Hc Hp) as (x & y & Hx & Hy & _).
    by exists x, y. }
  assert (Hwide : forall c p x y v, (c < C)%nat -> (p < H * W)%nat ->
            elem (data img_ref) C (H * W) b c p = Some (Fin x) ->
            elem (data img_gen) C (H * W) b c p = Some (Fin y) ->
            elem (data mask) Cm (H * W) b (c mod Cm) p = Some v -> is_one v ->
            (0 <= distance_of name x y <= 4)%Q).
  { intros c p x y v Hc Hp Hx Hy _ _.
    destruct (Hunit c p Hc Hp) as (x' & y' & Hx' & Hy' & Rx & Ry).
    rewrite Hx in Hx'. injection Hx' as <-.
    rewrite Hy in Hy'. injection Hy' as <-.
    by apply distance_of_unit. }
  destruct (masked_loss_between img_ref img_gen mask name B C Cm H W b 0 4
              Hname Href Hgen Hmask HCm Lref Lgen Lmask Hb Hfin Hbin Hvalid Hwide)
    as (out & q & Hout & Hq & Hrange).
  exists out, q. split; [exact Hout | ]. split; [exact Hq | ]. split.
  - destruct Hrange as [Hlo _].
    assert (E : (inject_Z (Z.of_nat (C / Cm)) * 0 == 0)%Q) by ring.
    by rewrite E in Hlo.
  - intros Hagree.
    assert (Hzero : forall c p x y v, (c < C)%nat -> (p < H * W)%nat ->
              elem (data img_ref) C (H * W) b c p = Some (Fin x) ->
              elem (data img_gen) C (H * W) b c p = Some (Fin y) ->
              elem (data mask) Cm (H * W) b (c mod Cm) p = Some v -> is_one v ->
              (0 <= distance_of name x y <= 0)%Q).
    { intros c p x y v Hc Hp Hx Hy Hv Hone.
      rewrite (distance_of_equal name x y (Hagree c p x y v Hc Hp Hx Hy Hv Hone)).
      split; apply Qle_refl. }
    destruct (masked_loss_between img_ref img_gen mask name B C Cm H W b 0 0
                Hname Href Hgen Hmask HCm Lref Lgen Lmask Hb Hfin Hbin Hvalid Hzero)
      as (out' & q' & Hout' & Hq' & Hrange').
    rewrite Hout in Hout'. injection Hout' as <-.
    rewrite Hq in Hq'. injection Hq' as <-.
    assert (E : (inject_Z (Z.of_nat (C / Cm)) * 0 == 0)%Q) by ring.
    rewrite E in Hrange'. lra.
Qed.

Lemma masked_loss_zero_on_agreement_witness :
  (exists c p v, (c < 1)%nat /\ (p < 1 * 2)%nat /\
     elem (data mask_first) 1 (1 * 2) 0 c p = Some v /\ is_one v) /\
  exists out q, masked_loss ref_1x2 gen_1x2 mask_first "l2" = inr out /\
    data out !! 0%nat = Some (Fin q) /\ (q == 0)%Q.
Proof.
  assert (Hunit : forall c p, (c < 1)%nat -> (p < 1 * 2)%nat ->
            exists x y, elem (data ref_1x2) 1 (1 * 2) 0 c p = Some (Fin x) /\
                        elem (data gen_1x2) 1 (1 * 2) 0 c p = Some (Fin y) /\
                        (-1 <= x <= 1)%Q /\ (-1 <= y <= 1)%Q).
  { intros c p Hc Hp. assert (c = 0%nat) as -> by lia.
    destruct p as [ | [ | p]]; [ | | lia]; eexists _, _;
      (split; [reflexivity | ]); (split; [reflexivity | ]);
      split; split; vm_compute; discriminate. }
  assert (Hbin : forall c p v, (c < 1)%nat -> (p < 1 * 2)%nat ->
            elem (data mask_first) 1 (1 * 2) 0 c p = Some v -> is_zero v \/ is_one v).
  { intros c p v Hc Hp. assert (c = 0%nat) as -> by lia.
    destruct p as [ | [ | p]]; [ | | lia]; intros E; injection E as <-.
    - right. by exists 1%Q.
    - left. by exists 0%Q. }
  assert (Hvalid : exists c p v, (c < 1)%nat /\ (p < 1 * 2)%nat /\
            elem (data mask_first) 1 (1 * 2) 0 c p = Some v /\ is_one v).
  { exists 0%nat, 0%nat, (Fin 1). split; [lia | ]. split; [lia | ].
    split; [reflexivity | by exists 1%Q]. }
  destruct (masked_loss_zero_on_agreement ref_1x2 gen_1x2 mask_first "l2"
              1 1 1 1 2 0)
    as (out & q & Hout & Hq & _ & Hzero);
    [by right | reflexivity | reflexivity | reflexivity | by left | reflexivity
     | reflexivity | reflexivity | lia | exact Hunit | exact Hbin | exact Hvalid | ].
  split; [exact Hvalid | ].
  exists out, q. split; [exact Hout | ]. split; [exact Hq | ].
  apply Hzero. intros c p x y v Hc Hp. assert (c = 0%nat) as -> by lia.
  destruct p as [ | [ | p]]; [ | | lia]; intros Ex Ey Ev Hone.
  - injection Ex as <-. injection Ey as <-. reflexivity.
  - exfalso. injection Ev as <-. destruct Hone as (o & Ho & E1).
    injection Ho as <-. discriminate E1.
Defined.

(** X21: what [masked_loss] computes.  A distance other than "l1" and "l2"
    is a [NotImplementedError], whatever the tensors are.  For images of
    shape (B, C, H, W) and a mask of this shape or of one channel, the
    result has one loss for every image of the batch: its distances to
    the other image, element by element, each multiplied by the element
    of the mask that lies over it, summed, and divided by the sum of the
    mask of the image as it was given. *)
Theorem masked_loss_per_image (img_ref img_gen mask : tensor) (name : string)
    (B C Cm H W : nat) :
  (name <> "l1"%string -> name <> "l2"%string ->
   masked_loss img_ref img_gen mask name = inl NotImplementedError) /\
  (name = "l1"%string \/ name = "l2"%string ->
   shape img_ref = [B; C; H; W] -> shape img_gen = [B; C; H; W] ->
   shape mask = [B; Cm; H; W] -> Cm = C \/ Cm = 1%nat ->
   length (data img_ref) = (B * (C * H * W))%nat ->
   length (data img_gen) = (B * (C * H * W))%nat ->
   length (data mask) = (B * (Cm * H * W))%nat ->
   exists out, masked_loss img_ref img_gen mask name = inr out /\
     shape out = [B] /\ length (data out) = B /\
     forall b, (b < B)%nat ->
       data out !! b
       = Some (image_loss (distance_fn name)
                 (chunk (C * H * W) b (data img_ref))
                 (chunk (C * H * W) b (data img_gen))
                 (tiled (C / Cm) (chunk (Cm * H * W) b (data mask)))
                 (chunk (Cm * H * W) b (data mask)))).
Proof.
  split.
  - intros H1 H2. unfold masked_loss.
    apply String.eqb_neq in H1, H2. rewrite H1, H2. reflexivity.
  - intros Hname Href Hgen Hmask HCm Lref Lgen Lmask.
    rewrite (masked_loss_images img_ref img_gen mask name B C Cm H W
               Hname Href Hgen Hmask HCm Lref Lgen Lmask).
    eexists. split; [reflexivity | ]. cbn [shape data].
    split; [reflexivity | ]. split; [by rewrite length_fmap, length_seq | ].
    intros b Hb. rewrite list_lookup_fmap, lookup_seq_lt by exact Hb. reflexivity.
Qed.

Lemma masked_loss_per_image_witness :
  "l3"%string <> "l1"%string /\ "l3"%string <> "l2"%string /\
  masked_loss ref_2x1 gen_2x1 mask_on "l3" = inl NotImplementedError /\
  exists out, masked_loss ref_2x1 gen_2x1 mask_on "l2" = inr out /\ shape out = [1%nat].
Proof.
  assert (H1 : "l3"%string <> "l1"%string) by discriminate.
  assert (H2 : "l3"%string <> "l2"%string) by discriminate.
  destruct (masked_loss_per_image ref_2x1 gen_2x1 mask_on "l3" 1 2 1 1 1) as [Hno _].
  destruct (masked_loss_per_image ref_2x1 gen_2x1 mask_on "l2" 1 2 1 1 1) as [_ Hyes].
  destruct Hyes as (out & Hout & Hs & _);
    [by right | reflexivity | reflexivity | reflexivity | by right | reflexivity
     | reflexivity | reflexivity | ].
  split; [exact H1 | ]. split; [exact H2 | ]. split; [exact (Hno H1 H2) | ].
  exists out. split; [exact Hout | exact Hs].
Defined.

(** *** flatten *)

Lemma index_bound (B C L b c p : nat) :
  (b < B)%nat -> (c < C)%nat -> (p < L)%nat ->
  ((b * C + c) * L + p < B * (C * L))%nat.
Proof.
  intros Hb Hc Hp. assert (Hbc : (b * C + c + 1 <= B * C)%nat) by nia.
  apply (Nat.mul_le_mono_r _ _ L) in Hbc. lia.
Qed.

Lemma chunks_of_chunk {A} (d : list A) (C L b : nat) :
  (seq 0 C ≫= fun c => chunk L (b * C + c) d) = chunk (C * L) b d.
Proof.
  unfold chunk at 2. rewrite <- chunks_take.
  apply Forall_bind_ext, Forall_forall. intros c _.
  unfold chunk. rewrite drop_drop. do 2 f_equal. lia.
Qed.

(** The elements of a tensor, enumerated along its three axes. *)
Lemma nest3_all {A} (d : list A) (B C L : nat) :
  length d = (B * (C * L))%nat ->
  (b ← seq 0 B; c ← seq 0 C; p ← seq 0 L;
   option_list (d !! ((b * C + c) * L + p)%nat)) = d.
Proof.
  intros Hd. etrans; [ | exact (chunks_all d B (C * L) Hd)].
  apply Forall_bind_ext, Forall_forall. intros b Hb. apply elem_of_seq in Hb.
  etrans; [ | exact (chunks_of_chunk d C L b)].
  apply Forall_bind_ext, Forall_forall. intros c Hc. apply elem_of_seq in Hc.
  unfold chunk. apply lookups_take_drop. rewrite Hd.
  assert (Hbc : (b * C + c + 1 <= B * C)%nat) by nia.
  apply (Nat.mul_le_mono_r _ _ L) in Hbc. lia.
Qed.

(** X22: [flatten] turns a batch of images of shape (B, C, H, W) into one of
    shape (B, H * W, C) with the same elements: what was at channel [c] and
    pixel [p] of image [b] is at row [p] and column [c] of image [b].
    Flattening the result again gives the elements back in their first
    order, in the shape (B, C, H * W).  A tensor of less than three axes is
    an [IndexError]. *)
Theorem flatten_transposes (t : tensor) (B C H W : nat)
    (Hshape : shape t = [B; C; H; W])
    (Hlen : length (data t) = (B * (C * (H * W)))%nat) :
  exists out, flatten t = inr out /\
    shape out = [B; (H * W)%nat; C] /\
    length (data out) = length (data t) /\
    (forall b c p, (b < B)%nat -> (c < C)%nat -> (p < H * W)%nat ->
       elem (data out) (H * W) C b p c = elem (data t) C (H * W) b c p) /\
    flatten out = inr (Tensor [B; C; (H * W)%nat] (data t)) /\
    (forall x : tensor, (length (shape x) < 3)%nat -> flatten x = inl (Raised IndexError)).
Proof.
  assert (HL : numel [H; W] = (H * W)%nat) by (simpl; lia).
  assert (Hsome : forall b p c, (b < B)%nat -> (p < H * W)%nat -> (c < C)%nat ->
            is_Some (data t !! ((b * C + c) * (H * W) + p)%nat)).
  { intros b p c Hb Hp Hc. apply lookup_lt_is_Some_2. rewrite Hlen.
    by apply index_bound. }
  unfold flatten at 1. rewrite Hshape, HL.
  eexists. split; [reflexivity | ]. cbn [shape data].
  split; [reflexivity | ].
  assert (Hlen' : length (b ← seq 0 B; p ← seq 0 (H * W); c ← seq 0 C;
                          option_list (data t !! ((b * C + c) * (H * W) + p)%nat))
                  = (B * (H * W * C))%nat)
    by exact (nest3_length _ B (H * W) C Hsome).
  split; [rewrite Hlen', Hlen; lia | ].
  assert (Hat : forall b c p, (b < B)%nat -> (c < C)%nat -> (p < H * W)%nat ->
            (b ← seq 0 B; p ← seq 0 (H * W); c ← seq 0 C;
             option_list (data t !! ((b * C + c) * (H * W) + p)%nat))
              !! ((b * (H * W) + p) * C + c)%nat
            = data t !! ((b * C + c) * (H * W) + p)%nat).
  { intros b c p Hb Hc Hp.
    exact (nest3_lookup _ B (H * W) C b p c Hsome Hb Hp Hc). }
  split; [ | split].
  - intros b c p Hb Hc Hp. unfold elem. by apply Hat.
  - unfold flatten. cbn [shape data numel foldr].
    replace (C * 1)%nat with C by lia.
    unfold mret, res_ret. do 2 f_equal.
    etrans; [ | exact (nest3_all (data t) B C (H * W) Hlen)].
    apply Forall_bind_ext, Forall_forall. intros b Hb. apply elem_of_seq in Hb.
    apply Forall_bind_ext, Forall_forall. intros c Hc. apply elem_of_seq in Hc.
    apply Forall_bind_ext, Forall_forall. intros p Hp. apply elem_of_seq in Hp.
    f_equal. apply Hat; lia.
  - intros x Hx. unfold flatten.
    destruct (shape x) as [ | ? [ | ? [ | ? ?]]]; try reflexivity. simpl in Hx. lia.
Qed.

Lemma flatten_transposes_witness :
  length (data ref_2x1) = (1 * (2 * (1 * 1)))%nat /\
  flatten ref_2x1 = inr (Tensor [1; 1; 2]%nat [Fin 1; Fin 2]).
Proof.
  assert (Hlen : length (data ref_2x1) = (1 * (2 * (1 * 1)))%nat) by reflexivity.
  destruct (flatten_transposes ref_2x1 1 2 1 1 eq_refl Hlen) as (out & Hout & _).
  split; [exact Hlen | ]. rewrite Hout. vm_compute in Hout.
  injection Hout as <-. reflexivity.
Defined.

(** *** xyz_to_normal *)

Lemma clamp01_cases (v : fval) :
  clamp01 v = NaN \/ exists c, clamp01 v = Fin c /\ (0 <= c <= 1)%Q.
Proof.
  destruct v as [q | s | ]; [right | right | by left];
    apply clamp01_range; discriminate.
Qed.

(** One element of the normals, from the estimate to the result. *)
Lemma normal_element (v : fval) :
  exists q,
    clamp01 (fdiv (fadd (if negb (feqb (fneg v) (fneg v)) then Fin 0 else fneg v)
                     (Fin 1)) (Fin 2)) = Fin q /\
    (0 <= q <= 1)%Q /\
    (v = NaN -> q = 1 # 2) /\
    (forall x, v = Fin x -> (-1 <= x <= 1)%Q -> (q == (1 - x) / 2)%Q).
Proof.
  destruct v as [x | s | ].
  - cbn [fneg feqb]. rewrite (proj2 (Qeq_bool_iff (- x) (- x))) by reflexivity.
    cbn [negb fadd fdiv]. change (Qzero 2) with false. cbv iota.
    destruct (clamp01_range (Fin ((- x + 1) / 2))) as (q & Hq & Hr); [discriminate | ].
    exists q. split; [exact Hq | ]. split; [exact Hr | ]. split; [discriminate | ].
    intros x' E Hx. injection E as <-. simpl in Hq.
    destruct (Qle_bool ((- x + 1) / 2) 0) eqn:E0.
    + injection Hq as <-. apply Qle_bool_iff in E0.
      assert (E : ((- x + 1) / 2 == (1 - x) / 2)%Q) by field.
      rewrite E in E0. assert (E' : ((1 - x) / 2 == (1 - x) * (1 # 2))%Q) by field.
      rewrite E' in *. lra.
    + destruct (Qle_bool 1 ((- x + 1) / 2)) eqn:E1.
      * injection Hq as <-. apply Qle_bool_iff in E1.
        assert (E' : ((- x + 1) / 2 == (1 - x) * (1 # 2))%Q) by field.
        assert (E'' : ((1 - x) / 2 == (1 - x) * (1 # 2))%Q) by field.
        rewrite E' in E1. rewrite E''. lra.
      * injection Hq as <-. field.
  - destruct s; simpl; eexists; (split; [reflexivity | ]);
      (split; [lra | ]); (split; [discriminate | ]); intros x E; discriminate E.
  - simpl. exists (1 # 2). split; [reflexivity | ]. split; [lra | ].
    split; [reflexivity | ]. intros x E. discriminate E.
Qed.

(** X23: as the module is written, [xyz_to_normal] ends with a [NameError]:
    the import of [estimate_surface_normal] is commented out.  With the
    name bound, a failure of the estimate is the failure of the call, and
    for every estimate that is returned the result has its shape and
    holds numbers between 0 and 1 only: an element of the estimate that
    is not a number gives one half, and a number [x] between -1 and 1
    gives [(1 - x) / 2]. *)
Theorem xyz_to_normal_unit_range (f : estimator) (xyz : tensor) (mode : string) :
  xyz_to_normal module_estimator xyz mode = inl NameError /\
  (forall e, f xyz mode = inl e -> xyz_to_normal (Some f) xyz mode = inl e) /\
  (forall n, f xyz mode = inr n ->
   exists out, xyz_to_normal (Some f) xyz mode = inr out /\
     shape out = shape n /\
     forall i v, data n !! i = Some v ->
       exists q, data out !! i = Some (Fin q) /\ (0 <= q <= 1)%Q /\
         (v = NaN -> q = 1 # 2) /\
         (forall x, v = Fin x -> (-1 <= x <= 1)%Q -> (q == (1 - x) / 2)%Q)).
Proof.
  split; [reflexivity | ]. split.
  - intros e He. unfold xyz_to_normal. simpl. rewrite He. reflexivity.
  - intros n Hn. unfold xyz_to_normal. simpl. rewrite Hn. simpl.
    eexists. split; [reflexivity | ]. split; [reflexivity | ].
    intros i v Hv. cbn [data pointwise tanh_to_sigmoid]. 
    rewrite !list_lookup_fmap, Hv. cbn [fmap option_fmap option_map].
    destruct (normal_element v) as (q & Hq & Hrest).
    exists q. split; [ | exact Hrest]. f_equal. exact Hq.
Qed.

Lemma xyz_to_normal_unit_range_witness :
  let f : estimator := fun t _ => inr t in
  let xyz := Tensor [3%nat] [NaN; Inf true; Fin (1 # 2)] in
  f xyz "closest"%string = inr xyz /\
  exists out, xyz_to_normal (Some f) xyz "closest" = inr out /\ shape out = [3%nat].
Proof.
  intros f xyz.
  assert (Hf : f xyz "closest"%string = inr xyz) by reflexivity.
  destruct (xyz_to_normal_unit_range f xyz "closest") as (_ & _ & Hok).
  destruct (Hok xyz Hf) as (out & Hout & Hs & _).
  split; [exact Hf | ]. exists out. split; [exact Hout | exact Hs].
Defined.

(** *** postprocess *)

Lemma run_bind_inr {A B} (c : run A) (k : A -> run B) (b : B) :
  result (c ≫= k) = inr b -> exists a, result c = inr a /\ result (k a) = inr b.
Proof.
  unfold mbind, run_bind. destruct (result c) as [e | a]; simpl; [done | eauto].
Qed.

Lemma run_bind_inl {A B} (c : run A) (k : A -> run B) (e : failure) :
  result c = inl e -> result (c ≫= k) = inl e.
Proof. intros H. unfold mbind, run_bind. by rewrite H. Qed.

Lemma run_bind_fails {A B} (c : run A) (k : A -> run B) :
  (forall a, result c = inr a -> exists e, result (k a) = inl e) ->
  exists e, result (c ≫= k) = inl e.
Proof.
  intros H. unfold mbind, run_bind. destruct (result c) as [e | a] eqn:E.
  - by exists e.
  - simpl. by apply H.
Qed.

Lemma append_length (s1 s2 : string) :
  String.length (s1 +:+ s2) = (String.length s1 + String.length s2)%nat.
Proof. induction s1 as [ | a s1 IH]; [reflexivity | ]. simpl. by rewrite IH. Qed.

Lemma points_key_other (key : string) : "points_" +:+ key <> key.
Proof.
  intros H. apply (f_equal String.length) in H.
  rewrite append_length in H. simpl in H. lia.
Qed.

(** What one entry of [synth] leaves in the dictionary. *)
Lemma postprocess_entry_inr (inv_to_xyz : value -> res value) (int32_index : bool)
    (maps : option data_maps) (out out' : gmap string value)
    (key : string) (value : value) :
  result (postprocess_entry inv_to_xyz int32_index maps out (key, value)) = inr out' ->
  exists v, out' !! key = Some v /\
    (forall k, k <> key ->
       (contains "inv" key = true -> k <> "points_" +:+ key) ->
       out' !! k = out !! k) /\
    (contains "inv" key = true -> is_Some (out' !! ("points_" +:+ key))) /\
    (contains "inv" key = true \/ contains "reflectance" key = true ->
       unit_range value = inr v) /\
    (contains "inv" key = false -> contains "reflectance" key = false ->
     contains "label" key = false -> v = value) /\
    (contains "inv" key = false -> contains "reflectance" key = false ->
     contains "label" key = true ->
     exists m inner outer r, maps = Some m /\
       result (_map_value true value (inv_learning_map m)) = inr inner /\
       result (_map_value (if is_tensor inner then int32_index else true)
                 (Ints inner) (color_map m)) = inr outer /\
       reverse_last outer = inr r /\ v = Ints r).
Proof.
  unfold postprocess_entry.
  destruct (contains "inv" key) eqn:Einv;
    [ | destruct (contains "reflectance" key) eqn:Erefl;
        [ | destruct (contains "label" key) eqn:Elabel]].
  - intros H. apply run_bind_inr in H as (v & Hv & H).
    apply run_bind_inr in H as (p & Hp & H). simpl in H, Hv. injection H as <-.
    exists v. split.
    { rewrite lookup_insert_ne by (intros E; by apply (points_key_other key)).
      by rewrite lookup_insert_eq. }
    split.
    { intros k Hk Hpk. rewrite !lookup_insert_ne; [reflexivity | done | ].
      intros E. by apply Hpk. }
    split; [intros _; rewrite lookup_insert_eq; by eexists | ].
    split; [by intros _ | ]. split; intros; discriminate.
  - intros H. apply run_bind_inr in H as (v & Hv & H). simpl in H, Hv.
    injection H as <-.
    exists v. split; [by rewrite lookup_insert_eq | ].
    split; [intros k Hk _; by rewrite lookup_insert_ne | ].
    split; [intros; discriminate | ].
    split; [by intros _ | ]. split; intros; discriminate.
  - destruct maps as [m | ]; [ | discriminate].
    intros H. apply run_bind_inr in H as (inner & Hinner & H).
    apply run_bind_inr in H as (outer & Houter & H).
    apply run_bind_inr in H as (r & Hr & H). simpl in H, Hr. injection H as <-.
    exists (Ints r). split; [by rewrite lookup_insert_eq | ].
    split; [intros k Hk _; by rewrite lookup_insert_ne | ].
    split; [intros; discriminate | ].
    split; [intros [? | ?]; discriminate | ].
    split; [intros; discriminate | ].
    intros _ _ _. by exists m, inner, outer, r.
  - intros H. simpl in H. injection H as <-.
    exists value. split; [by rewrite lookup_insert_eq | ].
    split; [intros k Hk _; by rewrite lookup_insert_ne | ].
    split; [intros; discriminate | ].
    split; [intros [? | ?]; discriminate | ].
    split; [by intros | intros; discriminate].
Qed.

Lemma written_cons (key k : string) (v : value) (l : list (string * value)) :
  written ((k, v) :: l) key <->
  key = k \/ (contains "inv" k = true /\ key = "points_" +:+ k) \/ written l key.
Proof.
  unfold written. rewrite fmap_cons. cbn [fst]. split.
  - intros [H | (k' & H & Hinv & ->)].
    + apply elem_of_cons in H as [-> | H]; [by left | right; right; by left].
    + apply elem_of_cons in H as [-> | H]; [right; left; done | ].
      right; right; right. by exists k'.
  - intros [-> | [[Hinv ->] | [H | (k' & H & Hinv & ->)]]].
    + left. apply elem_of_cons. by left.
    + right. exists k. split; [apply elem_of_cons; by left | done].
    + left. apply elem_of_cons. by right.
    + right. exists k'. split; [apply elem_of_cons; by right | done].
Qed.

Lemma postprocess_loop_frame (inv_to_xyz : value -> res value) (int32_index : bool)
    (maps : option data_maps) (synth : list (string * value))
    (out final : gmap string value) (key : string) :
  result (postprocess_loop inv_to_xyz int32_index maps synth out) = inr final ->
  ~ written synth key -> final !! key = out !! key.
Proof.
  revert out. induction synth as [ | [k v] synth IH]; intros out H Hnot.
  - simpl in H. by injection H as <-.
  - cbn [postprocess_loop] in H. apply run_bind_inr in H as (o1 & H1 & H).
    rewrite written_cons in Hnot.
    rewrite (IH o1 H) by tauto.
    destruct (postprocess_entry_inr _ _ _ _ _ _ _ H1) as (_ & _ & Hframe & _).
    apply Hframe; [intros ->; tauto | intros Hinv ->; tauto].
Qed.

Lemma postprocess_loop_keys (inv_to_xyz : value -> res value) (int32_index : bool)
    (maps : option data_maps) (synth : list (string * value))
    (out final : gmap string value) (key : string) :
  result (postprocess_loop inv_to_xyz int32_index maps synth out) = inr final ->
  is_Some (final !! key) <-> written synth key \/ is_Some (out !! key).
Proof.
  revert out. induction synth as [ | [k v] synth IH]; intros out H.
  - simpl in H. injection H as <-. unfold written. rewrite fmap_nil.
    split; [by right | ]. intros [[H | (k' & H & _)] | H]; [ | | done];
      by apply elem_of_nil in H.
  - cbn [postprocess_loop] in H. apply run_bind_inr in H as (o1 & H1 & H).
    rewrite (IH o1 H), written_cons.
    destruct (postprocess_entry_inr _ _ _ _ _ _ _ H1)
      as (x & Hown & Hframe & Hpoints & _).
    destruct (decide (key = k)) as [-> | Hk].
    { rewrite Hown. split; [intros _; left; by left | intros _; right; by eexists]. }
    destruct (contains "inv" k) eqn:Einv.
    + destruct (decide (key = "points_" +:+ k)) as [-> | Hpk].
      * split; [intros _; left; right; left; done | ].
        intros _. right. by apply Hpoints.
      * rewrite (Hframe key Hk (fun _ => Hpk)). split; [tauto | ].
        intros [[-> | [[_ ->] | H']] | H']; tauto.
    + rewrite (Hframe key Hk) by (intros E; discriminate E). split; [tauto | ].
      intros [[-> | [[E _] | H']] | H']; [done | discriminate E | tauto | tauto].
Qed.

(** The entry of a key that no later entry writes again. *)
Lemma postprocess_loop_own (inv_to_xyz : value -> res value) (int32_index : bool)
    (maps : option data_maps) (synth : list (string * value))
    (out final : gmap string value) (key : string) (v : value) :
  result (postprocess_loop inv_to_xyz int32_index maps synth out) = inr final ->
  NoDup synth.*1 -> (key, v) ∈ synth ->
  (forall k', k' ∈ synth.*1 -> contains "inv" k' = true -> "points_" +:+ k' <> key) ->
  exists o o', result (postprocess_entry inv_to_xyz int32_index maps o (key, v)) = inr o' /\
    final !! key = o' !! key.
Proof.
  revert out. induction synth as [ | [k x] synth IH]; intros out H Hnd Hin Hfree.
  - by apply elem_of_nil in Hin.
  - cbn [postprocess_loop] in H. apply run_bind_inr in H as (o1 & H1 & H).
    rewrite fmap_cons in Hnd. cbn [fst] in Hnd. apply NoDup_cons in Hnd as [Hk Hnd].
    apply elem_of_cons in Hin as [E | Hin].
    + injection E as -> ->. exists out, o1. split; [exact H1 | ].
      apply (postprocess_loop_frame _ _ _ _ _ _ _ H).
      intros [Hw | (k' & Hk' & Hinv & E)]; [done | ].
      apply (Hfree k'); [rewrite fmap_cons; apply elem_of_cons; by right | done | done].
    + apply (IH o1 H Hnd Hin). intros k' Hk'. apply Hfree.
      rewrite fmap_cons. apply elem_of_cons. by right.
Qed.

Lemma unit_range_elements (v v' : value) :
  unit_range v = inr v' ->
  exists t', v' = Floats true t' /\
    Forall (fun x => x = NaN \/ exists c, x = Fin c /\ (0 <= c <= 1)%Q) (data t') /\
    forall t, v = Floats true t ->
      shape t' = shape t /\
      forall i x, data t !! i = Some (Fin x) -> (-1 <= x <= 1)%Q ->
        exists q, data t' !! i = Some (Fin q) /\ (q == (x + 1) / 2)%Q.
Proof.
  assert (Hall : forall t, Forall (fun x => x = NaN \/ exists c, x = Fin c /\ (0 <= c <= 1)%Q)
                   (data (pointwise clamp01 t))).
  { intros t. cbn [pointwise data]. rewrite Forall_fmap.
    apply Forall_forall. intros x _. apply clamp01_cases. }
  destruct v as [[ | ] t | [a | a]]; simpl; intros H; try discriminate H;
    injection H as <-; eexists; (split; [reflexivity | ]); (split; [apply Hall | ]).
  - intros t0 E. injection E as <-. split; [reflexivity | ].
    intros i x Hx Hr. cbn [pointwise data tanh_to_sigmoid].
    rewrite !list_lookup_fmap, Hx. cbn [fmap option_fmap option_map fadd fdiv].
    change (Qzero 2) with false. cbv iota.
    assert (H01 : (0 <= (x + 1) / 2 <= 1)%Q).
    { assert (E : ((x + 1) / 2 == (x + 1) * (1 # 2))%Q) by field. rewrite E. lra. }
    cbn [clamp01].
    destruct (Qle_bool ((x + 1) / 2) 0) eqn:E0.
    + exists 0%Q. split; [reflexivity | ]. apply Qle_bool_iff in E0. lra.
    + destruct (Qle_bool 1 ((x + 1) / 2)) eqn:E1.
      * exists 1%Q. split; [reflexivity | ]. apply Qle_bool_iff in E1. lra.
      * eexists. split; reflexivity.
  - intros t0 E. discriminate E.
Qed.

(** X24: what [postprocess] returns for the keys of [synth].  The dictionary
    returned has the keys of [synth] and, for every key with [inv] in it,
    the key with [points_] put in front, and no other.  Where no such
    second key is a key of [synth] itself: under a key with [inv] or
    [reflectance] in it stands a new Torch tensor of numbers between 0 and
    1 (or not a number), which is [(x + 1) / 2] for an element [x] from -1
    to 1 of a tensor given; under a key without [inv], [reflectance] and
    [label] stands the value given. *)
Theorem postprocess_unit_ranges (inv_to_xyz : value -> res value)
    (int32_index : bool) (synth : list (string * value))
    (maps : option data_maps) (out : gmap string value)
    (Hout : result (postprocess inv_to_xyz int32_index synth maps) = inr out)
    (Hnd : NoDup synth.*1) :
  (forall key, is_Some (out !! key) <-> written synth key) /\
  forall key v, (key, v) ∈ synth ->
    (forall k', k' ∈ synth.*1 -> contains "inv" k' = true -> "points_" +:+ k' <> key) ->
    (contains "inv" key = true \/ contains "reflectance" key = true ->
     exists t', out !! key = Some (Floats true t') /\
       Forall (fun x => x = NaN \/ exists c, x = Fin c /\ (0 <= c <= 1)%Q) (data t') /\
       forall t, v = Floats true t ->
         shape t' = shape t /\
         forall i x, data t !! i = Some (Fin x) -> (-1 <= x <= 1)%Q ->
           exists q, data t' !! i = Some (Fin q) /\ (q == (x + 1) / 2)%Q) /\
    (contains "inv" key = false -> contains "reflectance" key = false ->
     contains "label" key = false -> out !! key = Some v).
Proof.
  unfold postprocess in Hout. split.
  - intros key. rewrite (postprocess_loop_keys _ _ _ _ _ _ key Hout).
    rewrite lookup_empty. split; [intros [H | H]; [done | by destruct H] | by left].
  - intros key v Hin Hfree.
    destruct (postprocess_loop_own _ _ _ _ _ _ key v Hout Hnd Hin Hfree)
      as (o & o' & Hentry & ->).
    destruct (postprocess_entry_inr _ _ _ _ _ _ _ Hentry)
      as (x & -> & _ & _ & Hunit & Hplain & _).
    split.
    + intros Hkey. destruct (unit_range_elements v x (Hunit Hkey)) as (t' & -> & Hrest).
      by exists t'.
    + intros H1 H2 H3. by rewrite (Hplain H1 H2 H3).
Qed.

Lemma postprocess_unit_ranges_witness :
  NoDup synth_3.*1 /\
  exists out, result (postprocess xyz_id true synth_3 (Some maps_rgb)) = inr out /\
    (exists t', out !! "inv"%string = Some (Floats true t')) /\
    out !! "mask"%string = Some (Floats true (Tensor [1%nat] [Fin 1])).
Proof.
  assert (Hnd : NoDup synth_3.*1) by (apply (bool_decide_unpack (NoDup synth_3.*1)); vm_compute; exact I).
  assert (Hout : exists out,
            result (postprocess xyz_id true synth_3 (Some maps_rgb)) = inr out)
    by (eexists; vm_compute; reflexivity).
  destruct Hout as [out Hout].
  destruct (postprocess_unit_ranges xyz_id true synth_3 (Some maps_rgb) out Hout Hnd)
    as [_ Hkeys].
  assert (Hfree : forall key, key = "inv"%string \/ key = "mask"%string ->
            forall k', k' ∈ synth_3.*1 -> contains "inv" k' = true ->
              "points_" +:+ k' <> key).
  { intros key Hkey k' Hk' Hinv. simpl in Hk'.
    repeat (apply elem_of_cons in Hk' as [-> | Hk']);
      [ | discriminate Hinv | discriminate Hinv | by apply elem_of_nil in Hk'].
    destruct Hkey as [-> | ->]; discriminate. }
  assert (Hin1 : ("inv"%string, Floats true (Tensor [2%nat] [Fin (-3); Fin (1 # 2)]))
                 ∈ synth_3) by (apply elem_of_cons; by left).
  assert (Hin2 : ("mask"%string, Floats true (Tensor [1%nat] [Fin 1])) ∈ synth_3)
    by (apply elem_of_cons; right; apply elem_of_cons; right; apply elem_of_cons; by left).
  split; [exact Hnd | ]. exists out. split; [exact Hout | ]. split.
  - destruct (Hkeys _ _ Hin1 (Hfree _ (or_introl eq_refl))) as [Hunit _].
    destruct (Hunit (or_introl eq_refl)) as (t' & Ht' & _). by exists t'.
  - destruct (Hkeys _ _ Hin2 (Hfree _ (or_intror eq_refl))) as [_ Hplain].
    exact (Hplain eq_refl eq_refl eq_refl).
Defined.

(** *** postprocess: the labels *)

Lemma postprocess_loop_fails (inv_to_xyz : value -> res value) (int32_index : bool)
    (maps : option data_maps) (synth : list (string * value)) (key : string)
    (v : value) :
  (key, v) ∈ synth ->
  (forall o, exists e,
     result (postprocess_entry inv_to_xyz int32_index maps o (key, v)) = inl e) ->
  forall out, exists e,
    result (postprocess_loop inv_to_xyz int32_index maps synth out) = inl e.
Proof.
  intros Hin Hfail. induction synth as [ | kv synth IH]; intros out.
  - by apply elem_of_nil in Hin.
  - cbn [postprocess_loop]. apply run_bind_fails. intros o1 H1.
    apply elem_of_cons in Hin as [<- | Hin].
    + destruct (Hfail out) as [e He]. rewrite He in H1. discriminate H1.
    + by apply IH.
Qed.

Lemma _map_value_kind (indexes : bool) (l r : labels) (m : mapdict) :
  result (_map_value indexes (Ints l) m) = inr r -> is_tensor r = is_tensor l.
Proof.
  unfold _map_value. intros H. apply run_bind_inr in H as (lut & _ & H).
  destruct indexes; [ | discriminate H].
  apply run_bind_inr in H as (x & _ & H). simpl in H. injection H as <-.
  unfold relabel. by destruct (is_tensor l).
Qed.

Lemma _map_value_floats (indexes torch : bool) (t : tensor) (m : mapdict) :
  exists e, result (_map_value indexes (Floats torch t) m) = inl e.
Proof.
  unfold _map_value. apply run_bind_fails. intros lut _. by eexists.
Qed.

(** X25: the keys with [label] in them that make [postprocess] fail.  For a
    key with [label] and without [inv] and [reflectance] in it: without
    [data_maps], which is the default, the entry ends the call with an
    [AttributeError] before anything is printed; and whatever the two
    mappings are, a value that is a Torch tensor of integers never gets
    through, since the last axis of the result cannot be reversed with a
    negative step, and a value of floating point numbers cannot index
    the table.  In these three cases [postprocess] returns no
    dictionary. *)
Theorem postprocess_label_failures (inv_to_xyz : value -> res value)
    (int32_index : bool) (synth : list (string * value))
    (maps : option data_maps) (key : string) (v : value)
    (Hin : (key, v) ∈ synth)
    (Hinv : contains "inv" key = false)
    (Hrefl : contains "reflectance" key = false)
    (Hlabel : contains "label" key = true) :
  (forall o, postprocess_entry inv_to_xyz int32_index None o (key, v)
             = Ran [] (inl AttributeError)) /\
  (maps = None \/ (exists a, v = Ints (TorchLabels a)) \/ (exists torch t, v = Floats torch t) ->
   forall out, result (postprocess inv_to_xyz int32_index synth maps) <> inr out) /\
  (forall o m a, v = Ints (TorchLabels a) ->
     forall inner outer,
       result (_map_value true v (inv_learning_map m)) = inr inner ->
       result (_map_value (if is_tensor inner then int32_index else true)
                 (Ints inner) (color_map m)) = inr outer ->
       result (postprocess_entry inv_to_xyz int32_index (Some m) o (key, v))
       = inl (Raised ValueError)).
Proof.
  assert (Hentry : forall m o,
            postprocess_entry inv_to_xyz int32_index m o (key, v)
            = match m with
              | None => quiet (fail AttributeError)
              | Some maps =>
                  inner ← _map_value true v (inv_learning_map maps);
                  outer ← _map_value (if is_tensor inner then int32_index else true)
                            (Ints inner) (color_map maps);
                  r ← quiet (reverse_last outer);
                  mret (<[key := Ints r]> o)
              end).
  { intros m o. unfold postprocess_entry. by rewrite Hinv, Hrefl, Hlabel. }
  split; [intros o; by rewrite Hentry | ]. split.
  - intros Hcase out Hout.
    assert (Hfail : forall o, exists e,
              result (postprocess_entry inv_to_xyz int32_index maps o (key, v)) = inl e).
    { intros o. rewrite Hentry. destruct maps as [m | ]; [ | by eexists].
      destruct Hcase as [Hnone | [[a ->] | (torch & t & ->)]]; [discriminate Hnone | | ].
      - apply run_bind_fails. intros inner Hinner.
        apply run_bind_fails. intros outer Houter.
        apply _map_value_kind in Hinner, Houter.
        destruct outer as [x | x]; [simpl in *; congruence | ]. by eexists.
      - destruct (_map_value_floats true torch t (inv_learning_map m)) as [e He].
        exists e. by apply run_bind_inl. }
    destruct (postprocess_loop_fails _ _ _ _ _ _ Hin Hfail ∅) as [e He].
    unfold postprocess in Hout. rewrite He in Hout. discriminate Hout.
  - intros o m a -> inner outer Hinner Houter. rewrite Hentry.
    pose proof (_map_value_kind _ _ _ _ Hinner) as K1.
    pose proof (_map_value_kind _ _ _ _ Houter) as K2.
    unfold mbind, run_bind. rewrite Hinner. cbn [result]. rewrite Houter. cbn [result].
    destruct outer as [x | x]; [simpl in *; congruence | ]. reflexivity.
Qed.

Lemma postprocess_label_failures_witness :
  ("label"%string, Ints (TorchLabels (IArray [2%nat] [1; 0])))
    ∈ [("label"%string, Ints (TorchLabels (IArray [2%nat] [1; 0])))] /\
  result (postprocess xyz_id true
            [("label"%string, Ints (TorchLabels (IArray [2%nat] [1; 0])))] None)
  = inl AttributeError.
Proof.
  assert (Hin : ("label"%string, Ints (TorchLabels (IArray [2%nat] [1; 0])))
                ∈ [("label"%string, Ints (TorchLabels (IArray [2%nat] [1; 0])))])
    by (apply elem_of_cons; by left).
  destruct (postprocess_label_failures xyz_id true _ None _ _ Hin eq_refl eq_refl eq_refl)
    as (Hnone & _).
  split; [exact Hin | ]. unfold postprocess. cbn [postprocess_loop].
  rewrite (Hnone ∅). reflexivity.
Defined.

(** *** postprocess: the colours of the labels *)

Lemma lift_inr {A} (c : py A) (a : A) : result (lift c) = inr a -> outcome c = inr a.
Proof. unfold lift. simpl. destruct (outcome c); [discriminate | congruence]. Qed.

Lemma bind_outcome {A B} (c : py A) (k : A -> py B) (a : A) :
  outcome c = inr a -> outcome (x ← c; k x) = outcome (k a).
Proof. intros H. unfold mbind, py_bind, bind. by rewrite H. Qed.

Lemma _map_value_inr (l r : labels) (m : mapdict) :
  result (_map_value true (Ints l) m) = inr r ->
  exists lut mp, outcome (_map_lut m) = inr lut /\
    outcome (take_ lut (label_array l)) = inr mp /\
    outcome (_map l m) = inr (is_tensor l, mp) /\
    r = relabel l (to_array lut mp).
Proof.
  unfold _map_value. intros H. apply run_bind_inr in H as (lut & Hlut & H).
  apply run_bind_inr in H as (mp & Hmp & H). simpl in H. injection H as <-.
  apply lift_inr in Hlut, Hmp. exists lut, mp.
  split; [exact Hlut | ]. split; [exact Hmp | ]. split; [ | reflexivity].
  unfold _map. rewrite (bind_outcome _ _ lut Hlut), (bind_outcome _ _ mp Hmp).
  reflexivity.
Qed.

Lemma setitem_rows_ok (lut lut' : ndarray) (key : Z) (data : mapval) :
  rows_ok lut -> setitem lut key data = ret lut' -> rows_ok lut'.
Proof.
  unfold setitem. destruct (norm_index (alen lut) key) as [k | ]; [ | discriminate].
  destruct lut as [cells | nel rows], data as [v | l]; simpl; intros Hok H.
  - by injection H as <-.
  - discriminate H.
  - injection H as <-. simpl. apply Forall_insert; [exact Hok | ].
    by rewrite length_replicate.
  - case_bool_decide as Hl.
    + injection H as <-. simpl. apply Forall_insert; [exact Hok | ].
      by rewrite length_map.
    + destruct l as [ | v [ | w l]]; try discriminate H.
      injection H as <-. simpl. apply Forall_insert; [exact Hok | ].
      by rewrite length_replicate.
Qed.

Lemma fill_lut_rows_ok (m : mapdict) (lut lut' : ndarray) :
  rows_ok lut -> outcome (fill_lut lut m) = inr lut' -> rows_ok lut'.
Proof.
  revert lut. induction m as [ | [key data] m IH]; intros lut Hok Hout.
  - simpl in Hout. by injection Hout as <-.
  - destruct (setitem_cases lut key data)
      as [(l & Heq & _) | [[Heq _] | [_ Hnone]]].
    + rewrite (fill_lut_stored _ _ _ _ _ Heq) in Hout.
      apply (IH l); [by eapply setitem_rows_ok | exact Hout].
    + by rewrite (fill_lut_value_error _ _ _ _ Heq) in Hout.
    + rewrite (fill_lut_skipped _ _ _ _ Hnone) in Hout.
      unfold mbind, py_bind, bind in Hout. simpl in Hout. by apply (IH lut).
Qed.

(** The table that the two loops build has rows of one length, which is
    more than one. *)
Lemma _map_lut_rows (m : mapdict) (lut : ndarray) :
  outcome (_map_lut m) = inr lut ->
  rows_ok lut /\ forall nel rows, lut = Arr2 nel rows -> (1 < nel)%nat.
Proof.
  unfold _map_lut. intros H. apply bind_inr in H as (lut0 & H0 & H).
  assert (Hok0 : rows_ok lut0 /\ (1 < entry_len lut0 \/ exists c, lut0 = Arr1 c)%nat).
  { unfold alloc_lut in H0. destruct (scan_mapdict m) as [mk [nel | ]]; [ | discriminate H0].
    case_bool_decide as Hnel; simpl in H0; injection H0 as <-.
    - split; [ | by left]. unfold zeros2. simpl. apply Forall_replicate.
      by rewrite length_replicate.
    - split; [exact I | right; by eexists]. }
  destruct Hok0 as [Hok0 Hnel].
  split; [by apply (fill_lut_rows_ok m lut0) | ].
  intros nel rows ->. destruct (fill_lut_entries m lut0 _ H) as [Hlen Hzero].
  destruct Hnel as [Hnel | [c ->]]; [simpl in Hlen; lia | ]. simpl in Hzero. discriminate Hzero.
Qed.

Lemma items_rows (nel : nat) (rows : list (list Z)) (idx : list Z) (cs : list cell) :
  Forall (fun r => length r = nel) rows ->
  outcome (items (Arr2 nel rows) idx) = inr cs ->
  Forall (fun c => length (cell_values c) = nel) cs.
Proof.
  intros Hrows. revert cs. induction idx as [ | i idx IH]; intros cs H.
  - simpl in H. injection H as <-. constructor.
  - cbn [items] in H. apply bind_inr in H as (c & Hc & H).
    apply bind_inr in H as (cs' & Hcs' & H). simpl in H. injection H as <-.
    constructor; [ | by apply IH].
    unfold item in Hc. apply bind_inr in Hc as (r & Hr & Hc). simpl in Hc.
    injection Hc as <-. simpl.
    unfold getitem in Hr. destruct (norm_index (length rows) i) as [k | ]; [ | discriminate Hr].
    destruct (rows !! k) as [r' | ] eqn:Hk; [ | discriminate Hr].
    simpl in Hr. injection Hr as <-.
    rewrite Forall_forall in Hrows. apply Hrows. by eapply list_elem_of_lookup_2.
Qed.

Lemma bind_by_position {A B} (cs : list A) (g : nat -> list B) (h : A -> list B) :
  (forall i x, cs !! i = Some x -> g i = h x) ->
  (seq 0 (length cs) ≫= g) = cs ≫= h.
Proof.
  induction cs as [ | x cs IH] using rev_ind; intros Hg; [reflexivity | ].
  rewrite length_app, Nat.add_1_r, seq_S, !bind_app, !bind_singleton. simpl.
  rewrite IH.
  - f_equal. apply Hg. by rewrite lookup_app_r, Nat.sub_diag.
  - intros i y Hy. apply Hg. rewrite lookup_app_l; [exact Hy | ].
    by eapply lookup_lt_Some.
Qed.

(** The last axis of an array of rows in reverse: every row in reverse. *)
Lemma reverse_rows (cs : list cell) (nel : nat) :
  (0 < nel)%nat -> Forall (fun c => length (cell_values c) = nel) cs ->
  (c ← seq 0 (length (cs ≫= cell_values) / nel);
   reverse (chunk nel c (cs ≫= cell_values)))
  = cs ≫= fun c => reverse (cell_values c).
Proof.
  intros Hnel Hcs. rewrite (bind_blocks_length cell_values cs nel Hcs).
  rewrite Nat.div_mul by lia.
  apply bind_by_position. intros i x Hx.
  by rewrite (bind_blocks_chunk cell_values cs nel i x Hcs Hx).
Qed.

(** X26: the colours that [postprocess] gives the labels.  For a key with
    [label] and without [inv] and [reflectance] in it that holds a NumPy
    array of labels, and that no other entry writes: when [postprocess]
    returns, the two mappings of [data_maps] have been applied one after
    the other as [_map] applies them, and under the key stands the result
    with its last axis in reverse.  For a table of colours this is, for
    every label in its place, the colour of the label read backwards. *)
Theorem postprocess_label_colours (inv_to_xyz : value -> res value)
    (int32_index : bool) (synth : list (string * value))
    (maps : option data_maps) (out : gmap string value)
    (key : string) (a : iarray)
    (Hout : result (postprocess inv_to_xyz int32_index synth maps) = inr out)
    (Hnd : NoDup synth.*1)
    (Hin : (key, Ints (NpLabels a)) ∈ synth)
    (Hinv : contains "inv" key = false)
    (Hrefl : contains "reflectance" key = false)
    (Hlabel : contains "label" key = true)
    (Hfree : forall k', k' ∈ synth.*1 -> contains "inv" k' = true ->
       "points_" +:+ k' <> key) :
  exists m lut1 r1 lut2 r2 rv,
    maps = Some m /\
    outcome (_map_lut (inv_learning_map m)) = inr lut1 /\
    outcome (_map (NpLabels a) (inv_learning_map m)) = inr (false, r1) /\
    outcome (_map_lut (color_map m)) = inr lut2 /\
    outcome (_map (NpLabels (to_array lut1 r1)) (color_map m)) = inr (false, r2) /\
    reverse_last (NpLabels (to_array lut2 r2)) = inr (NpLabels rv) /\
    out !! key = Some (Ints (NpLabels rv)) /\
    forall nel rows, lut2 = Arr2 nel rows ->
      ishape rv = ishape (to_array lut1 r1) ++ [nel] /\
      idata rv = mcells r2 ≫= fun c => reverse (cell_values c).
Proof.
  unfold postprocess in Hout.
  destruct (postprocess_loop_own _ _ _ _ _ _ key _ Hout Hnd Hin Hfree)
    as (o & o' & Hentry & ->).
  destruct (postprocess_entry_inr _ _ _ _ _ _ _ Hentry)
    as (x & -> & _ & _ & _ & _ & Hlab).
  destruct (Hlab Hinv Hrefl Hlabel) as (m & inner & outer & r & -> & H1 & H2 & Hr & ->).
  destruct (_map_value_inr _ _ _ H1) as (lut1 & r1 & Hlut1 & Htake1 & Hmap1 & ->).
  cbn [relabel is_tensor label_array] in *.
  destruct (_map_value_inr _ _ _ H2) as (lut2 & r2 & Hlut2 & Htake2 & Hmap2 & ->).
  cbn [relabel is_tensor label_array] in *.
  assert (Hrv : exists rv, r = NpLabels rv).
  { unfold reverse_last in Hr.
    destruct (last (ishape (to_array lut2 r2))); [ | discriminate Hr].
    injection Hr as <-. by eexists. }
  destruct Hrv as [rv ->].
  exists m, lut1, r1, lut2, r2, rv.
  split; [reflexivity | ]. split; [exact Hlut1 | ]. split; [exact Hmap1 | ].
  split; [exact Hlut2 | ]. split; [exact Hmap2 | ]. split; [exact Hr | ].
  split; [reflexivity | ].
  intros nel rows ->.
  destruct (_map_lut_rows _ _ Hlut2) as [Hok Hnel]. specialize (Hnel nel rows eq_refl).
  unfold take_ in Htake2. apply bind_inr in Htake2 as (cs & Hcs & Htake2).
  simpl in Htake2. injection Htake2 as <-.
  pose proof (items_rows nel rows _ cs Hok Hcs) as Hrows.
  unfold reverse_last, to_array in Hr. cbn [ishape idata mshape mcells] in Hr.
  rewrite last_snoc in Hr. injection Hr as <-. cbn [ishape idata].
  split; [reflexivity | ]. apply reverse_rows; [lia | exact Hrows].
Qed.

Lemma postprocess_label_colours_witness :
  NoDup synth_3.*1 /\
  exists out rv, result (postprocess xyz_id true synth_3 (Some maps_rgb)) = inr out /\
    out !! "label"%string = Some (Ints (NpLabels rv)) /\
    idata rv = [6; 5; 4; 3; 2; 1].
Proof.
  assert (Hnd : NoDup synth_3.*1)
    by (apply (bool_decide_unpack (NoDup synth_3.*1)); vm_compute; exact I).
  assert (Hout : exists out,
            result (postprocess xyz_id true synth_3 (Some maps_rgb)) = inr out)
    by (eexists; vm_compute; reflexivity).
  destruct Hout as [out Hout].
  assert (Hin : ("label"%string, Ints (NpLabels (IArray [2%nat] [1; 0]))) ∈ synth_3)
    by (apply elem_of_cons; right; apply elem_of_cons; by left).
  assert (Hfree : forall k', k' ∈ synth_3.*1 -> contains "inv" k' = true ->
            "points_" +:+ k' <> "label"%string).
  { intros k' Hk' Hinv. simpl in Hk'.
    repeat (apply elem_of_cons in Hk' as [-> | Hk']);
      [discriminate | discriminate Hinv | discriminate Hinv
       | by apply elem_of_nil in Hk']. }
  destruct (postprocess_label_colours xyz_id true synth_3 (Some maps_rgb) out
              "label" _ Hout Hnd Hin eq_refl eq_refl eq_refl Hfree)
    as (m & lut1 & r1 & lut2 & r2 & rv & Hm & _ & _ & _ & _ & _ & Hkey & _).
  split; [exact Hnd | ]. exists out, rv. split; [exact Hout | ].
  split; [exact Hkey | ].
  vm_compute in Hout. injection Hout as <-. vm_compute in Hkey.
  injection Hkey as <-. reflexivity.
Defined.
